(** * IntelliMarket front end: a shallow embedding and its properties

    The development follows the three JavaScript sources of the front end:

    - the "API Communication Module" (first client, [CommModule]),
    - the "IntelliMarket API Client" (second client, [ApiClient]),
    - [main.js], the application object ([App]): the markdown renderer with
      its table parser, and the recent-analyses list.

    JavaScript strings are sequences of code units.  The embedding takes the
    code units below 256 as its alphabet ([ascii]), so a string is a
    [list ascii]; strings that hold larger code units are outside it.  On
    this alphabet the host functions the sources call ([trim], [split],
    [includes], the regular expressions, the HTML serialisation of a text
    node) are written out in full.  [toUpperCase] is written out for every
    unit except U+00B5 and U+00FF, whose upper-case forms lie above 255. *)

From Stdlib Require Import Strings.Ascii Strings.Byte NArith ZArith Lia.
From Stdlib Require Strings.String DecimalString.
From stdpp Require Import base list.
From Equations Require Import Equations.

Local Open Scope list_scope.

(* ===================================================================== *)
(** * Part I: the embedding                                               *)
(* ===================================================================== *)

(** ** JavaScript strings *)

Abbreviation jsstring := (list ascii) (only parsing).

(** String literals denote lists of code units. *)
Definition literal := list ascii.

Inductive literal_syntax := lit_nil | lit_cons (c : ascii) (l : literal_syntax).

Fixpoint literal_of_bytes (l : list Byte.byte) : literal_syntax :=
  match l with
  | [] => lit_nil
  | b :: l' => lit_cons (ascii_of_byte b) (literal_of_bytes l')
  end.

Fixpoint bytes_of_literal (l : literal_syntax) : list Byte.byte :=
  match l with
  | lit_nil => []
  | lit_cons c l' => byte_of_ascii c :: bytes_of_literal l'
  end.

Declare Scope js_scope.
Delimit Scope js_scope with js.
#[warnings="-via-type-remapping,-via-type-mismatch"]
String Notation literal literal_of_bytes bytes_of_literal
  (via literal_syntax mapping [[nil] => lit_nil, [cons] => lit_cons]) : js_scope.
Open Scope js_scope.

#[global] Instance ascii_eq_dec : EqDecision ascii := Ascii.ascii_dec.

Module JS.

Definition code (c : ascii) : N := N_of_ascii c.

Definition LF : ascii := ascii_of_N 10.
Definition NBSP : ascii := ascii_of_N 160.
Definition QUOTE : ascii := ascii_of_N 34.

Definition inRange (lo hi c : ascii) : bool :=
  (code lo <=? code c)%N && (code c <=? code hi)%N.

(** LineTerminator: LF and CR (U+2028 and U+2029 are above the alphabet). *)
Definition isLineTerminator (c : ascii) : bool :=
  (code c =? 10)%N || (code c =? 13)%N.

(** WhiteSpace and LineTerminator units stripped by [String.prototype.trim]:
    TAB, LF, VT, FF, CR, SP and NBSP. *)
Definition isWhiteSpace (c : ascii) : bool :=
  ((9 <=? code c)%N && (code c <=? 13)%N) || (code c =? 32)%N || (code c =? 160)%N.

Fixpoint trimStart (s : jsstring) : jsstring :=
  match s with
  | [] => []
  | c :: s' => if isWhiteSpace c then trimStart s' else s
  end.

Definition trimEnd (s : jsstring) : jsstring := rev (trimStart (rev s)).

Definition trim (s : jsstring) : jsstring := trimEnd (trimStart s).

(** [toUpperCase], unit by unit: a-z and the Latin-1 letters U+00E0-U+00FE
    (U+00F7, the division sign, apart) move down by 32; U+00DF becomes "SS".
    U+00B5 and U+00FF, whose upper-case forms are outside the alphabet, are
    left as they are: strings that hold them are outside the embedding of
    [toUpperCase]. *)
Definition upperUnit (c : ascii) : jsstring :=
  let n := code c in
  if ((97 <=? n)%N && (n <=? 122)%N)
     || ((224 <=? n)%N && (n <=? 254)%N && negb (n =? 247)%N)
  then [ascii_of_N (n - 32)]
  else if (n =? 223)%N then "SS"
  else [c].

Definition toUpperCase (s : jsstring) : jsstring := flat_map upperUnit s.

(** [s.split(sep)] for a one-character separator: never the empty array. *)
Fixpoint split (sep : ascii) (s : jsstring) : list jsstring :=
  match s with
  | [] => [[]]
  | c :: s' =>
      if Ascii.eqb c sep then [] :: split sep s'
      else match split sep s' with
           | [] => [[c]]
           | piece :: pieces => (c :: piece) :: pieces
           end
  end.

Fixpoint join (sep : jsstring) (l : list jsstring) : jsstring :=
  match l with
  | [] => []
  | [x] => x
  | x :: l' => x ++ sep ++ join sep l'
  end.

Fixpoint startsWith (p s : jsstring) : bool :=
  match p, s with
  | [], _ => true
  | _ :: _, [] => false
  | a :: p', b :: s' => Ascii.eqb a b && startsWith p' s'
  end.

Definition endsWith (p s : jsstring) : bool := startsWith (rev p) (rev s).

Fixpoint includes (p s : jsstring) : bool :=
  startsWith p s ||
  match s with
  | [] => false
  | _ :: s' => includes p s'
  end.

(** Decimal rendering of a non-negative integer, as a template literal
    prints it. *)
Definition decimal (n : N) : jsstring :=
  String.list_ascii_of_string
    (DecimalString.NilZero.string_of_uint (N.to_uint n)).

End JS.

(** ** Regular expressions

    The fragment of ECMAScript patterns the sources use: literal characters,
    [.], a character range, the assertions [^] and [$], concatenation,
    greedy and lazy quantifiers, and one capturing group.  Matching is the
    backtracking matcher of the language definition, in continuation
    style. *)

Module Regex.

Inductive regex : Type :=
| Eps
| Chr (c : ascii)
| Any
| Range (lo hi : ascii)
| Bol
| Eol
| Cat (r1 r2 : regex)
| Rep (min : nat) (max : option nat) (greedy : bool) (r : regex)
| Grp (r : regex).

Record flags := { global : bool; multiline : bool; dotAll : bool }.

(** A position in the input: the unit before it, what is left of the input,
    and the text of capture 1 if the group has been matched. *)
Record mstate := { prev : option ascii; rest : jsstring; cap : option jsstring }.

Definition start (p : option ascii) (s : jsstring) : mstate :=
  {| prev := p; rest := s; cap := None |}.

Definition advance (c : ascii) (s' : jsstring) (st : mstate) : mstate :=
  {| prev := Some c; rest := s'; cap := cap st |}.

Definition atLineStart (fl : flags) (st : mstate) : bool :=
  match prev st with
  | None => true
  | Some c => multiline fl && JS.isLineTerminator c
  end.

Definition atLineEnd (fl : flags) (st : mstate) : bool :=
  match rest st with
  | [] => true
  | c :: _ => multiline fl && JS.isLineTerminator c
  end.

Definition belowMax (max : option nat) (n : nat) : bool :=
  match max with
  | None => true
  | Some m => n <? m
  end.

Definition orElse (a : option mstate) (b : unit -> option mstate) : option mstate :=
  match a with
  | Some st => Some st
  | None => b tt
  end.

Definition one (ok : ascii -> bool) (st : mstate) (k : mstate -> option mstate)
  : option mstate :=
  match rest st with
  | c :: s' => if ok c then k (advance c s' st) else None
  | [] => None
  end.

(** The quantifier [r{min,max}] after [n] rounds of [body].  A round past
    [min] that consumes nothing is refused, so [fuel] above
    [min + length (rest st)] is never used up. *)
Fixpoint iterate (body : mstate -> (mstate -> option mstate) -> option mstate)
    (min : nat) (max : option nat) (greedy : bool)
    (k : mstate -> option mstate) (fuel n : nat) (st : mstate)
    {struct fuel} : option mstate :=
  match fuel with
  | 0 => None
  | S fuel' =>
      let more (_ : unit) :=
        if belowMax max n then
          body st (fun st' =>
            if (min <=? n) && (length (rest st') =? length (rest st))
            then None
            else iterate body min max greedy k fuel' (S n) st')
        else None in
      if n <? min then more tt
      else if greedy then orElse (more tt) (fun _ => k st)
      else orElse (k st) more
  end.

Fixpoint exec (fl : flags) (r : regex) (st : mstate)
    (k : mstate -> option mstate) {struct r} : option mstate :=
  match r with
  | Eps => k st
  | Chr c => one (Ascii.eqb c) st k
  | Any => one (fun c => dotAll fl || negb (JS.isLineTerminator c)) st k
  | Range lo hi => one (JS.inRange lo hi) st k
  | Bol => if atLineStart fl st then k st else None
  | Eol => if atLineEnd fl st then k st else None
  | Cat r1 r2 => exec fl r1 st (fun st' => exec fl r2 st' k)
  | Rep min max greedy r' =>
      iterate (exec fl r') min max greedy k (S (min + length (rest st))) 0 st
  | Grp r' =>
      exec fl r' st (fun st' =>
        k {| prev := prev st'; rest := rest st';
             cap := Some (take (length (rest st) - length (rest st')) (rest st)) |})
  end.

Fixpoint Lit (s : jsstring) : regex :=
  match s with
  | [] => Eps
  | c :: s' => Cat (Chr c) (Lit s')
  end.

Definition Seq (l : list regex) : regex := foldr Cat Eps l.

Definition Star (r : regex) : regex := Rep 0 None true r.
Definition LazyStar (r : regex) : regex := Rep 0 None false r.

(** A match attempted at one position. *)
Definition matchAt (fl : flags) (r : regex) (p : option ascii) (s : jsstring)
  : option mstate :=
  exec fl r (start p s) Some.

(** [regex.test(s)]: is there a match starting anywhere in [s]. *)
Fixpoint searchFrom (fl : flags) (r : regex) (p : option ascii) (s : jsstring) : bool :=
  match matchAt fl r p s with
  | Some _ => true
  | None =>
      match s with
      | [] => false
      | c :: s' => searchFrom fl r (Some c) s'
      end
  end.

Definition test (fl : flags) (r : regex) (s : jsstring) : bool :=
  searchFrom fl r None s.

(** Replacement templates: literal text and [$1]. *)
Inductive piece := Text (s : jsstring) | Cap1.

Definition expand (tpl : list piece) (c : option jsstring) : jsstring :=
  flat_map (fun p => match p with
                     | Text s => s
                     | Cap1 => default [] c
                     end) tpl.

(** [s.replace(r, tpl)] without the [g] flag: the leftmost match only. *)
Fixpoint replaceFirst (fl : flags) (r : regex) (tpl : list piece)
    (p : option ascii) (s : jsstring) : jsstring :=
  match matchAt fl r p s with
  | Some st' => expand tpl (cap st') ++ rest st'
  | None =>
      match s with
      | [] => []
      | c :: s' => c :: replaceFirst fl r tpl (Some c) s'
      end
  end.

(** [s.replace(r, tpl)] with the [g] flag.  [skip] counts the units of the
    current match still to be passed over; the next match is looked for
    where the previous one ended, and one unit further on after an empty
    match. *)
Fixpoint replaceAll (fl : flags) (r : regex) (tpl : list piece)
    (skip : nat) (p : option ascii) (s : jsstring) : jsstring :=
  match skip with
  | S n =>
      match s with
      | [] => []
      | c :: s' => replaceAll fl r tpl n (Some c) s'
      end
  | 0 =>
      match matchAt fl r p s with
      | Some st' =>
          expand tpl (cap st') ++
          match s with
          | [] => []
          | c :: s' =>
              match length s - length (rest st') with
              | 0 => c :: replaceAll fl r tpl 0 (Some c) s'
              | S n => replaceAll fl r tpl n (Some c) s'
              end
          end
      | None =>
          match s with
          | [] => []
          | c :: s' => c :: replaceAll fl r tpl 0 (Some c) s'
          end
      end
  end.

Definition replace (fl : flags) (r : regex) (tpl : list piece) (s : jsstring)
  : jsstring :=
  if global fl then replaceAll fl r tpl 0 None s
  else replaceFirst fl r tpl None s.

Definition noFlags : flags := {| global := false; multiline := false; dotAll := false |}.
Definition flags_g : flags := {| global := true; multiline := false; dotAll := false |}.
Definition flags_gm : flags := {| global := true; multiline := true; dotAll := false |}.
Definition flags_s : flags := {| global := false; multiline := false; dotAll := true |}.

End Regex.


(** ** The host: JSON values, errors, responses and [fetch] *)

Module Host.

(** What [JSON.parse] produces.  Numbers are kept as integers; fractions and
    exponents are outside the embedding. *)
#[warnings="-register-all"]
Inductive json : Type :=
| JNull
| JBool (b : bool)
| JNum (n : Z)
| JStr (s : jsstring)
| JArr (items : list json)
| JObj (members : list (jsstring * json)).

Record error := { name : jsstring; message : jsstring }.

(** [new Error(message)] *)
Definition Error (msg : jsstring) : error := {| name := "Error"; message := msg |}.

Fixpoint lookupLast (key : jsstring) (members : list (jsstring * json))
    (found : option json) : option json :=
  match members with
  | [] => found
  | (k, v) :: members' =>
      lookupLast key members' (if bool_decide (k = key) then Some v else found)
  end.

(** [v.key] for a parsed value [v] and a key that is not an array index or
    a built-in property: [None] is [undefined]; reading a property of
    [null] throws. *)
Definition getProperty (key : jsstring) (v : json) : error + option json :=
  match v with
  | JNull =>
      inl {| name := "TypeError";
             message := "Cannot read properties of null (reading '" ++ key ++ "')" |}
  | JObj members => inr (lookupLast key members None)
  | _ => inr None
  end.

(** ToBoolean *)
Definition truthy (v : option json) : bool :=
  match v with
  | None => false
  | Some JNull => false
  | Some (JBool b) => b
  | Some (JNum n) => negb (n =? 0)%Z
  | Some (JStr s) => negb (bool_decide (s = []))
  | Some (JArr _) => true
  | Some (JObj _) => true
  end.

Definition numberToString (n : Z) : jsstring :=
  match n with
  | Zneg p => "-" ++ JS.decimal (Npos p)
  | _ => JS.decimal (Z.to_N n)
  end.

(** ToString *)
Fixpoint toString (v : json) : jsstring :=
  match v with
  | JNull => "null"
  | JBool true => "true"
  | JBool false => "false"
  | JNum n => numberToString n
  | JStr s => s
  | JArr items =>
      JS.join ","
        ((fix each (l : list json) : list jsstring :=
            match l with
            | [] => []
            | JNull :: l' => [] :: each l'
            | x :: l' => toString x :: each l'
            end) items)
  | JObj _ => "[object Object]"
  end.

(** The body of a response, seen through [response.json()]. *)
Inductive body :=
| Parsed (v : json)
| Unparseable (why : jsstring).

Record response := { status : N; statusText : jsstring; content : body }.

Definition ok (r : response) : bool :=
  (200 <=? status r)%N && (status r <=? 299)%N.

(** [response.json()]: the parsed body, or a [SyntaxError]. *)
Definition json_ (r : response) : json + error :=
  match content r with
  | Parsed v => inl v
  | Unparseable why => inr {| name := "SyntaxError"; message := why |}
  end.

(** An object literal [{}] *)
Definition emptyObject : json := JObj [].

(** The options object handed to [fetch].  [fetch] reads [method],
    [headers], [body] and [signal]; it has no [timeout] member and passes
    over any key it does not know.  A signal is given by the time, in
    milliseconds from the call, at which it aborts. *)
Record init := {
  timeout : option N;
  method : option jsstring;
  headers : option (list (jsstring * jsstring));
  payload : option jsstring;
  signal : option N
}.

Definition noOptions : init :=
  {| timeout := None; method := None; headers := None; payload := None;
     signal := None |}.

Record request := {
  req_url : jsstring;
  req_method : jsstring;
  req_headers : list (jsstring * jsstring);
  req_payload : option jsstring
}.

(** What the network does with a request: it answers after some
    milliseconds, with a response or a transport failure, or it stays
    silent. *)
Inductive reply :=
| Answer (r : response)
| Failure (why : jsstring).

Inductive behaviour :=
| After (ms : N) (r : reply)
| Silent.

Definition network := request -> behaviour.

(** A promise: settled at some time with a value or an error, or never. *)
Inductive promise (A : Type) : Type :=
| Settled (at_ms : N) (r : A + error)
| Pending.
Arguments Settled {A} at_ms r.
Arguments Pending {A}.

Definition abortError : error :=
  {| name := "AbortError"; message := "signal is aborted without reason" |}.

Definition fetch (net : network) (url : jsstring) (cfg : init) : promise response :=
  let req := {| req_url := url;
                req_method := default "GET" (method cfg);
                req_headers := default [] (headers cfg);
                req_payload := payload cfg |} in
  let answered (ms : N) (r : reply) :=
    match r with
    | Answer resp => Settled ms (inl resp)
    | Failure why => Settled ms (inr {| name := "TypeError"; message := why |})
    end in
  match net req, signal cfg with
  | After ms r, Some abort_at =>
      if (abort_at <=? ms)%N then Settled abort_at (inr abortError)
      else answered ms r
  | After ms r, None => answered ms r
  | Silent, Some abort_at => Settled abort_at (inr abortError)
  | Silent, None => Pending
  end.

(** [JSON.stringify] of a string: the quote and the backslash are escaped,
    the control characters are written with their short escape or as
    [\u00XX] in lower-case hexadecimal, every other unit is copied. *)
Definition hexDigit (n : N) : ascii :=
  ascii_of_N (if (n <? 10)%N then 48 + n else 87 + n).

Definition quoteUnit (c : ascii) : jsstring :=
  let n := JS.code c in
  if (n =? 8)%N then "\b"
  else if (n =? 9)%N then "\t"
  else if (n =? 10)%N then "\n"
  else if (n =? 12)%N then "\f"
  else if (n =? 13)%N then "\r"
  else if (n =? 34)%N then ["\"%char; JS.QUOTE]
  else if (n =? 92)%N then "\\"
  else if (n <? 32)%N then "\u00" ++ [hexDigit (n / 16); hexDigit (n mod 16)]
  else [c].

Definition quote (s : jsstring) : jsstring :=
  [JS.QUOTE] ++ flat_map quoteUnit s ++ [JS.QUOTE].

(** [JSON.stringify] of a value written as a literal: the members of an
    object come in the order of the literal, whose keys are distinct and
    none an array index. *)
Fixpoint stringify (v : json) : jsstring :=
  match v with
  | JNull => "null"
  | JBool true => "true"
  | JBool false => "false"
  | JNum n => numberToString n
  | JStr s => quote s
  | JArr items => "[" ++ JS.join "," (map stringify items) ++ "]"
  | JObj members =>
      "{" ++ JS.join ","
               (map (fun member => quote member.1 ++ ":" ++ stringify member.2) members)
      ++ "}"
  end.

(** [encodeURIComponent]: letters, digits and [- _ . ! ~ * ' ( )] are
    copied; every other unit is written as the bytes of its UTF-8 form,
    each as [%XX] in upper-case hexadecimal. *)
Definition isUnreserved (c : ascii) : bool :=
  JS.inRange "A" "Z" c || JS.inRange "a" "z" c || JS.inRange "0" "9" c
  || existsb (Ascii.eqb c) "-_.!~*'()".

Definition upperHexDigit (n : N) : ascii :=
  ascii_of_N (if (n <? 10)%N then 48 + n else 55 + n).

Definition percent (byte : N) : jsstring :=
  "%" ++ [upperHexDigit (byte / 16); upperHexDigit (byte mod 16)].

Definition encodeUnit (c : ascii) : jsstring :=
  let n := JS.code c in
  if isUnreserved c then [c]
  else if (n <? 128)%N then percent n
  else percent (192 + n / 64) ++ percent (128 + n mod 64).

Definition encodeURIComponent (s : jsstring) : jsstring := flat_map encodeUnit s.

(** What a [catch] clause, or [formatError], may be handed: a string, or
    an error object. *)
Inductive thrown :=
| ThrownString (s : jsstring)
| ThrownError (e : error).

End Host.

(** The part of [makeRequest] the two clients share word for word: what
    happens inside [try] once [fetch] has produced a response. *)
Definition interpretResponse (r : Host.response) : Host.json + Host.error :=
  if negb (Host.ok r) then
    let errorData :=
      match Host.json_ r with
      | inl v => v
      | inr _ => Host.emptyObject
      end in
    match Host.getProperty "error" errorData with
    | inl e => inr e
    | inr field =>
        inr (Host.Error
               (if Host.truthy field then Host.toString (default Host.JNull field)
                else "HTTP " ++ JS.decimal (Host.status r) ++ ": " ++ Host.statusText r))
    end
  else Host.json_ r.

(** The options [{method: 'POST', body: JSON.stringify(value)}] every
    request with a body is made with, in both clients. *)
Definition post (value : Host.json) : Host.init :=
  {| Host.timeout := None;
     Host.method := Some "POST";
     Host.headers := None;
     Host.payload := Some (Host.stringify value);
     Host.signal := None |}.

Definition unexpected : jsstring := "An unexpected error occurred. Please try again.".

(** [/^[A-Z]{1,5}$/] *)
Definition symbolPattern : Regex.regex :=
  Regex.Seq [Regex.Bol; Regex.Rep 1 (Some 5) true (Regex.Range "A" "Z"); Regex.Eol].

Record validation := { valid : bool; error : option jsstring }.

(** ** First client: the API Communication Module *)

Module CommModule.

Definition baseURL : jsstring := "http://127.0.0.1:5000/api".

Definition makeRequest (net : Host.network) (endpoint : jsstring)
    (options : Host.init) : Host.promise Host.json :=
  let url := baseURL ++ endpoint in
  let defaultHeaders := [("Content-Type", "application/json")] in
  let finalOptions :=
    {| Host.timeout := Host.timeout options;
       Host.method := Host.method options;
       Host.headers := Some (default defaultHeaders (Host.headers options));
       Host.payload := Host.payload options;
       Host.signal := Host.signal options |} in
  match Host.fetch net url finalOptions with
  | Host.Settled t (inl response) =>
      match interpretResponse response with
      | inl v => Host.Settled t (inl v)
      | inr error => Host.Settled t (inr error)
      end
  | Host.Settled t (inr error) => Host.Settled t (inr error)
  | Host.Pending => Host.Pending
  end.

Definition validationFailed : Host.json :=
  Host.JObj [("valid", Host.JBool false); ("reason", Host.JStr "Validation failed")].

Definition validateSymbol (net : Host.network) (symbol : jsstring)
  : Host.promise Host.json :=
  match makeRequest net ("/validate/symbol/" ++ JS.toUpperCase symbol) Host.noOptions with
  | Host.Settled t (inl v) => Host.Settled t (inl v)
  | Host.Settled t (inr _) => Host.Settled t (inl validationFailed)
  | Host.Pending => Host.Pending
  end.

Definition isValidSymbol (symbol : jsstring) : bool :=
  Regex.test Regex.noFlags symbolPattern (JS.toUpperCase symbol).

Definition parseSymbolList (input : jsstring) : list jsstring :=
  filter (fun s => negb (bool_decide (s = [])) && isValidSymbol s = true)
    (map (fun s => JS.toUpperCase (JS.trim s)) (JS.split "," input)).

Definition validateSymbolList (symbols : list jsstring) : validation :=
  if length symbols <? 2 then
    {| valid := false; error := Some "Please enter at least 2 symbols" |}
  else if 5 <? length symbols then
    {| valid := false; error := Some "Maximum 5 symbols allowed" |}
  else
    let invalidSymbols := filter (fun s => negb (isValidSymbol s) = true) symbols in
    if 0 <? length invalidSymbols then
      {| valid := false;
         error := Some ("Invalid symbols: " ++ JS.join ", " invalidSymbols) |}
    else {| valid := true; error := None |}.

Definition checkHealth (net : Host.network) : Host.promise Host.json :=
  makeRequest net "/system/info" Host.noOptions.

(** [analysisType] is [None] when the argument is left out. *)
Definition analyzeStock (net : Host.network) (symbol : jsstring)
    (analysisType : option jsstring) : Host.promise Host.json :=
  let analysisType := default "quick" analysisType in
  makeRequest net "/analyze/stock"
    (post (Host.JObj [("symbol", Host.JStr (JS.toUpperCase symbol));
                      ("type", Host.JStr analysisType)])).

Definition compareStocks (net : Host.network) (symbols : list jsstring)
  : Host.promise Host.json :=
  let cleanSymbols :=
    filter (fun s => s <> []) (map (fun s => JS.toUpperCase (JS.trim s)) symbols) in
  makeRequest net "/analyze/comparison"
    (post (Host.JObj [("symbols", Host.JArr (map Host.JStr cleanSymbols))])).

Definition marketResearch (net : Host.network) (topic : jsstring)
  : Host.promise Host.json :=
  makeRequest net "/analyze/research"
    (post (Host.JObj [("topic", Host.JStr (JS.trim topic))])).

Definition customQuery (net : Host.network) (query : jsstring)
  : Host.promise Host.json :=
  makeRequest net "/analyze/query"
    (post (Host.JObj [("query", Host.JStr (JS.trim query))])).

(** A string has no [message], so it gets the general text. *)
Definition formatError (error : Host.thrown) : jsstring :=
  match error with
  | Host.ThrownError e =>
      if negb (bool_decide (Host.message e = [])) then Host.message e else unexpected
  | Host.ThrownString _ => unexpected
  end.

End CommModule.

(** ** Second client: the IntelliMarket API Client *)

Module ApiClient.

Record client := { baseURL : jsstring; timeout : N }.

(** The constructor: [this.timeout = 300000]. *)
Definition new : client :=
  {| baseURL := "http://127.0.0.1:5000/api"; timeout := 300000 |}.

Definition timeoutMessage : jsstring :=
  "Request timeout - analysis is taking longer than expected".

Definition makeRequest (this : client) (net : Host.network) (endpoint : jsstring)
    (options : Host.init) : Host.promise Host.json :=
  let url := baseURL this ++ endpoint in
  let config :=
    {| Host.timeout := Some (default (timeout this) (Host.timeout options));
       Host.method := Host.method options;
       Host.headers :=
         Some (default [("Content-Type", "application/json")] (Host.headers options));
       Host.payload := Host.payload options;
       Host.signal := Host.signal options |} in
  let catch (t : N) (error : Host.error) : Host.promise Host.json :=
    if bool_decide (Host.name error = "AbortError")
    then Host.Settled t (inr (Host.Error timeoutMessage))
    else Host.Settled t (inr error) in
  match Host.fetch net url config with
  | Host.Settled t (inl response) =>
      match interpretResponse response with
      | inl v => Host.Settled t (inl v)
      | inr error => catch t error
      end
  | Host.Settled t (inr error) => catch t error
  | Host.Pending => Host.Pending
  end.

Definition isValidSymbol (symbol : jsstring) : bool :=
  Regex.test Regex.noFlags symbolPattern symbol.

Definition parseSymbolList (symbolsText : jsstring) : list jsstring :=
  filter (fun s => 0 < length s)
    (map (fun s => JS.toUpperCase (JS.trim s)) (JS.split "," symbolsText)).

Fixpoint firstInvalid (symbols : list jsstring) : validation :=
  match symbols with
  | [] => {| valid := true; error := None |}
  | symbol :: symbols' =>
      if negb (isValidSymbol symbol) then
        {| valid := false;
           error := Some ("Invalid symbol format: " ++ symbol ++ " (1-5 letters only)") |}
      else firstInvalid symbols'
  end.

Definition validateSymbolList (symbols : list jsstring) : validation :=
  if length symbols <? 2 then
    {| valid := false; error := Some "At least 2 symbols required for comparison" |}
  else if 5 <? length symbols then
    {| valid := false; error := Some "Maximum 5 symbols allowed for comparison" |}
  else firstInvalid symbols.

Definition analyzeStock (this : client) (net : Host.network) (symbol : jsstring)
    (analysisType : option jsstring) : Host.promise Host.json :=
  let analysisType := default "quick" analysisType in
  makeRequest this net "/analyze/stock"
    (post (Host.JObj [("symbol", Host.JStr symbol); ("type", Host.JStr analysisType)])).

Definition compareStocks (this : client) (net : Host.network) (symbols : list jsstring)
  : Host.promise Host.json :=
  makeRequest this net "/analyze/comparison"
    (post (Host.JObj [("symbols", Host.JArr (map Host.JStr symbols))])).

Definition marketResearch (this : client) (net : Host.network) (topic : jsstring)
  : Host.promise Host.json :=
  makeRequest this net "/analyze/research" (post (Host.JObj [("topic", Host.JStr topic)])).

Definition customQuery (this : client) (net : Host.network) (query : jsstring)
  : Host.promise Host.json :=
  makeRequest this net "/analyze/query" (post (Host.JObj [("query", Host.JStr query)])).

Definition validateSymbol (this : client) (net : Host.network) (symbol : jsstring)
  : Host.promise Host.json :=
  makeRequest this net ("/validate/symbol/" ++ Host.encodeURIComponent symbol)
    Host.noOptions.

Definition getSystemInfo (this : client) (net : Host.network) : Host.promise Host.json :=
  makeRequest this net "/system/info" Host.noOptions.

Definition formatError (error : Host.thrown) : jsstring :=
  match error with
  | Host.ThrownString s => s
  | Host.ThrownError e =>
      if negb (bool_decide (Host.message e = [])) then Host.message e else unexpected
  end.

End ApiClient.

(** ** The client, as the application sees it

    main.js reaches either client through [this.api] and uses these
    methods of it. *)

Module Client.

Record api := {
  isValidSymbol : jsstring -> bool;
  parseSymbolList : jsstring -> list jsstring;
  validateSymbolList : list jsstring -> validation;
  validateSymbol : Host.network -> jsstring -> Host.promise Host.json;
  analyzeStock : Host.network -> jsstring -> option jsstring -> Host.promise Host.json;
  compareStocks : Host.network -> list jsstring -> Host.promise Host.json;
  marketResearch : Host.network -> jsstring -> Host.promise Host.json;
  customQuery : Host.network -> jsstring -> Host.promise Host.json;
  formatError : Host.thrown -> jsstring
}.

Definition first : api :=
  {| isValidSymbol := CommModule.isValidSymbol;
     parseSymbolList := CommModule.parseSymbolList;
     validateSymbolList := CommModule.validateSymbolList;
     validateSymbol := CommModule.validateSymbol;
     analyzeStock := CommModule.analyzeStock;
     compareStocks := CommModule.compareStocks;
     marketResearch := CommModule.marketResearch;
     customQuery := CommModule.customQuery;
     formatError := CommModule.formatError |}.

Definition second : api :=
  {| isValidSymbol := ApiClient.isValidSymbol;
     parseSymbolList := ApiClient.parseSymbolList;
     validateSymbolList := ApiClient.validateSymbolList;
     validateSymbol := ApiClient.validateSymbol ApiClient.new;
     analyzeStock := ApiClient.analyzeStock ApiClient.new;
     compareStocks := ApiClient.compareStocks ApiClient.new;
     marketResearch := ApiClient.marketResearch ApiClient.new;
     customQuery := ApiClient.customQuery ApiClient.new;
     formatError := ApiClient.formatError |}.

End Client.

(** ** The application object of main.js *)

Module App.

(** *** The table parser *)

(** [div.textContent = text; return div.innerHTML]: the serialisation of a
    text node. *)
Definition escapeUnit (c : ascii) : jsstring :=
  if Ascii.eqb c "&" then "&amp;"
  else if Ascii.eqb c "<" then "&lt;"
  else if Ascii.eqb c ">" then "&gt;"
  else if Ascii.eqb c JS.NBSP then "&nbsp;"
  else [c].

Definition escapeHtml (text : jsstring) : jsstring := flat_map escapeUnit text.

(** [line.split('|').map(cell => cell.trim()).filter(cell => cell !== '')] *)
Definition splitCells (line : jsstring) : list jsstring :=
  filter (fun cell => cell <> []) (map JS.trim (JS.split "|" line)).

Record table := { html : jsstring; nextIndex : nat }.

(** The [while (currentIndex < lines.length)] loop of [parseTable]. *)
Fixpoint collectRows (fuel : nat) (lines : list jsstring) (currentIndex : nat)
    (dataRows : list (list jsstring)) : list (list jsstring) * nat :=
  match fuel with
  | 0 => (dataRows, currentIndex)
  | S fuel' =>
      match lines !! currentIndex with
      | None => (dataRows, currentIndex)
      | Some line =>
          if negb (JS.includes "|" line)
             || negb (JS.startsWith "|" (JS.trim line))
             || negb (JS.endsWith "|" (JS.trim line))
          then (dataRows, currentIndex)
          else
            let cells := splitCells line in
            let dataRows' :=
              if 0 <? length cells then dataRows ++ [cells] else dataRows in
            collectRows fuel' lines (currentIndex + 1) dataRows'
      end
  end.

Definition tableOpen : jsstring :=
  "<table class=" ++ [JS.QUOTE] ++ "markdown-table" ++ [JS.QUOTE] ++ ">" ++ [JS.LF].

(** [row.forEach((cell, index) => ...)] *)
Fixpoint emitCells (headerCount : nat) (index : nat) (row : list jsstring)
    (tableHtml : jsstring) : jsstring :=
  match row with
  | [] => tableHtml
  | cell :: row' =>
      emitCells headerCount (index + 1) row'
        (if index <? headerCount
         then tableHtml ++ "      <td>" ++ escapeHtml cell ++ "</td>" ++ [JS.LF]
         else tableHtml)
  end.

(** [separatorLine] is read by the source and never used. *)
Definition parseTable (lines : list jsstring) (startIndex : nat) : table :=
  let headerLine := default [] (lines !! startIndex) in
  let headers := splitCells headerLine in
  let '(dataRows, currentIndex) :=
    collectRows (length lines) lines (startIndex + 2) [] in
  let tableHtml := tableOpen in
  let tableHtml :=
    if 0 <? length headers then
      let tableHtml := tableHtml ++ "  <thead>" ++ [JS.LF] ++ "    <tr>" ++ [JS.LF] in
      let tableHtml :=
        foldl (fun tableHtml header =>
                 tableHtml ++ "      <th>" ++ escapeHtml header ++ "</th>" ++ [JS.LF])
              tableHtml headers in
      tableHtml ++ "    </tr>" ++ [JS.LF] ++ "  </thead>" ++ [JS.LF]
    else tableHtml in
  let tableHtml :=
    if 0 <? length dataRows then
      let tableHtml := tableHtml ++ "  <tbody>" ++ [JS.LF] in
      let tableHtml :=
        foldl (fun tableHtml row =>
                 let tableHtml := tableHtml ++ "    <tr>" ++ [JS.LF] in
                 let tableHtml := emitCells (length headers) 0 row tableHtml in
                 tableHtml ++ "    </tr>" ++ [JS.LF])
              tableHtml dataRows in
      tableHtml ++ "  </tbody>" ++ [JS.LF]
    else tableHtml in
  let tableHtml := tableHtml ++ "</table>" in
  {| html := tableHtml; nextIndex := currentIndex |}.

(** The [while (i < lines.length)] loop of [parseMarkdownTables]. *)
Fixpoint scanLines (fuel : nat) (lines : list jsstring) (i : nat)
    (result : list jsstring) : list jsstring :=
  match fuel with
  | 0 => result
  | S fuel' =>
      match lines !! i with
      | None => result
      | Some line =>
          if JS.includes "|" line && JS.startsWith "|" (JS.trim line)
             && JS.endsWith "|" (JS.trim line)
          then
            let isTableStart :=
              match lines !! (i + 1) with
              | None => false
              | Some nextLine =>
                  negb (bool_decide (nextLine = []))
                  && JS.includes "-" nextLine && JS.includes "|" nextLine
              end in
            if isTableStart then
              let tableHtml := parseTable lines i in
              scanLines fuel' lines (nextIndex tableHtml) (result ++ [html tableHtml])
            else scanLines fuel' lines (i + 1) (result ++ [line])
          else scanLines fuel' lines (i + 1) (result ++ [line])
      end
  end.

Definition parseMarkdownTables (text : jsstring) : jsstring :=
  let lines := JS.split JS.LF text in
  JS.join [JS.LF] (scanLines (length lines) lines 0 []).

(** *** The markdown substitutions *)

Import Regex.

(** [/^# (.*$)/gm], ['<h1>$1</h1>'] *)
Definition h1 : regex * list piece :=
  (Seq [Bol; Lit "# "; Grp (Seq [Star Any; Eol])], [Text "<h1>"; Cap1; Text "</h1>"]).
(** [/^## (.*$)/gm], ['<h2>$1</h2>'] *)
Definition h2 : regex * list piece :=
  (Seq [Bol; Lit "## "; Grp (Seq [Star Any; Eol])], [Text "<h2>"; Cap1; Text "</h2>"]).
(** [/^### (.*$)/gm], ['<h3>$1</h3>'] *)
Definition h3 : regex * list piece :=
  (Seq [Bol; Lit "### "; Grp (Seq [Star Any; Eol])], [Text "<h3>"; Cap1; Text "</h3>"]).
(** [/^#### (.*$)/gm], ['<h4>$1</h4>'] *)
Definition h4 : regex * list piece :=
  (Seq [Bol; Lit "#### "; Grp (Seq [Star Any; Eol])], [Text "<h4>"; Cap1; Text "</h4>"]).
(** [/\*\*(.*?)\*\*/g], ['<strong>$1</strong>'] *)
Definition bold : regex * list piece :=
  (Seq [Lit "**"; Grp (LazyStar Any); Lit "**"],
   [Text "<strong>"; Cap1; Text "</strong>"]).
(** [/\*(.*?)\*/g], ['<em>$1</em>'] *)
Definition italic : regex * list piece :=
  (Seq [Lit "*"; Grp (LazyStar Any); Lit "*"], [Text "<em>"; Cap1; Text "</em>"]).
(** [/^- (.*$)/gm], ['<li>$1</li>'] *)
Definition listItem : regex * list piece :=
  (Seq [Bol; Lit "- "; Grp (Seq [Star Any; Eol])], [Text "<li>"; Cap1; Text "</li>"]).
(** [/(<li>.*<\/li>)/s], ['<ul>$1</ul>'] *)
Definition listWrap : regex * list piece :=
  (Grp (Seq [Lit "<li>"; Star Any; Lit "</li>"]), [Text "<ul>"; Cap1; Text "</ul>"]).
(** [/\n\n/g], ['</p><p>'] *)
Definition paragraphBreak : regex * list piece :=
  (Lit [JS.LF; JS.LF], [Text "</p><p>"]).
(** The pattern made of [^], the group [(.*] ... [)] and [$], with flags
    [gm]; template ['<p>$1</p>'] *)
Definition paragraph : regex * list piece :=
  (Seq [Bol; Grp (Star Any); Eol], [Text "<p>"; Cap1; Text "</p>"]).
(** [/<p><\/p>/g], [''] *)
Definition emptyParagraph : regex * list piece := (Lit "<p></p>", [Text ""]).
(** [/<p>(<h[1-6]>)/g], ['$1'] *)
Definition unwrapHeadingOpen : regex * list piece :=
  (Seq [Lit "<p>"; Grp (Seq [Lit "<h"; Range "1" "6"; Lit ">"])], [Cap1]).
(** [/(<\/h[1-6]>)<\/p>/g], ['$1'] *)
Definition unwrapHeadingClose : regex * list piece :=
  (Seq [Grp (Seq [Lit "</h"; Range "1" "6"; Lit ">"]); Lit "</p>"], [Cap1]).
(** [/<p>(<ul>)/g], ['$1'] *)
Definition unwrapListOpen : regex * list piece :=
  (Seq [Lit "<p>"; Grp (Lit "<ul>")], [Cap1]).
(** [/(<\/ul>)<\/p>/g], ['$1'] *)
Definition unwrapListClose : regex * list piece :=
  (Seq [Grp (Lit "</ul>"); Lit "</p>"], [Cap1]).
(** [/<p>(<table)/g], ['$1'] *)
Definition unwrapTableOpen : regex * list piece :=
  (Seq [Lit "<p>"; Grp (Lit "<table")], [Cap1]).
(** [/(<\/table>)<\/p>/g], ['$1'] *)
Definition unwrapTableClose : regex * list piece :=
  (Seq [Grp (Lit "</table>"); Lit "</p>"], [Cap1]).

Definition sub (fl : flags) (rule : regex * list piece) (text : jsstring) : jsstring :=
  replace fl rule.1 rule.2 text.

(** The chain of [.replace] calls, in the order of the source. *)
Definition substitutions (text : jsstring) : jsstring :=
  let text := sub flags_gm h1 text in
  let text := sub flags_gm h2 text in
  let text := sub flags_gm h3 text in
  let text := sub flags_gm h4 text in
  let text := sub flags_g bold text in
  let text := sub flags_g italic text in
  let text := sub flags_gm listItem text in
  let text := sub flags_s listWrap text in
  let text := sub flags_g paragraphBreak text in
  let text := sub flags_gm paragraph text in
  let text := sub flags_g emptyParagraph text in
  let text := sub flags_g unwrapHeadingOpen text in
  let text := sub flags_g unwrapHeadingClose text in
  let text := sub flags_g unwrapListOpen text in
  let text := sub flags_g unwrapListClose text in
  let text := sub flags_g unwrapTableOpen text in
  sub flags_g unwrapTableClose text.

(** [text] is [None] for [undefined] or [null]. *)
Definition formatMarkdown (text : option jsstring) : jsstring :=
  match text with
  | None => "<p>No content available</p>"
  | Some [] => "<p>No content available</p>"
  | Some text => substitutions (parseMarkdownTables text)
  end.

(** *** The recent analyses *)

Record analysis := {
  query : jsstring;
  type : jsstring;
  analysisType : option jsstring;
  timestamp : jsstring
}.

(** The fields of the application object the operation touches, and the
    value kept in local storage under ['intelligmarket_recent']. *)
Record app := {
  recentAnalyses : list analysis;
  stored : option (list analysis)
}.

(** [saveRecentAnalyses]: [setItem] may throw (a full or disabled store);
    the error is caught and logged, and the store keeps what it had. *)
Definition saveRecentAnalyses (writable : bool) (this : app) : app :=
  if writable
  then {| recentAnalyses := recentAnalyses this; stored := Some (recentAnalyses this) |}
  else this.

(** [now] is [new Date().toISOString()] at the time of the call.  The
    call of [renderRecentAnalyses] that ends the method only writes to the
    page and is left out. *)
Definition addToRecentAnalyses (writable : bool) (now : jsstring)
    (query type : jsstring) (analysisType : option jsstring) (this : app) : app :=
  let analysis :=
    {| query := query; type := type; analysisType := analysisType; timestamp := now |} in
  let unshifted := analysis :: recentAnalyses this in
  let this := {| recentAnalyses := take 10 unshifted; stored := stored this |} in
  saveRecentAnalyses writable this.

(** [loadRecentAnalyses]: the list kept in local storage, or the empty list
    when the key holds nothing.  The key is written by [saveRecentAnalyses]
    only, so what it holds parses back to the list that was saved. *)
Definition loadRecentAnalyses (this : app) : list analysis :=
  match stored this with
  | Some saved => saved
  | None => []
  end.

(** The constructor, as far as the recent analyses go: a page that opens
    on a store starts from the list read back from it. *)
Definition new (storage : option (list analysis)) : app :=
  let this := {| recentAnalyses := []; stored := storage |} in
  {| recentAnalyses := loadRecentAnalyses this; stored := storage |}.

(** *** The four handlers

    What a handler does to the page is recorded as the calls it makes, in
    order. *)

Inductive effect :=
| ShowError (message : jsstring)
| ProgressShow (title message : jsstring)
| ProgressComplete
| ProgressHide
| ShowResults (data : Host.json) (title : jsstring).

(** How a handler ends: it returns, it is left waiting for a request that
    never settles, or it throws. *)
Inductive ending :=
| Returned
| Waiting
| Uncaught (e : Host.error).

Record run := { effects : list effect; state : app; finished : ending }.

(** The surroundings of a handler: the client, the network, what
    [showResults] does with a result and a title ([Some e] when it throws
    [e]), whether local storage takes a write, and the time. *)
Record world := {
  api : Client.api;
  net : Host.network;
  showResults : Host.json -> jsstring -> option Host.error;
  writable : bool;
  now : jsstring
}.

(** The [try] block the four handlers share: the progress box is shown,
    the request awaited, then the result shown and the analysis recorded;
    an error thrown on the way is formatted and shown. *)
Definition attempt (w : world) (title message : jsstring)
    (request : Host.promise Host.json) (resultsTitle : jsstring)
    (query type : jsstring) (analysisType : option jsstring) (this : app) : run :=
  let failed (before : list effect) (error : Host.error) :=
    {| effects :=
         before ++ [ProgressHide;
                    ShowError (Client.formatError (api w) (Host.ThrownError error))];
       state := this;
       finished := Returned |} in
  match request with
  | Host.Pending =>
      {| effects := [ProgressShow title message]; state := this; finished := Waiting |}
  | Host.Settled _ (inr error) => failed [ProgressShow title message] error
  | Host.Settled _ (inl result) =>
      let before :=
        [ProgressShow title message; ProgressComplete; ShowResults result resultsTitle] in
      match showResults w result resultsTitle with
      | Some error => failed before error
      | None =>
          {| effects := before;
             state := addToRecentAnalyses (writable w) (now w) query type analysisType this;
             finished := Returned |}
      end
  end.

Definition refuse (message : jsstring) (this : app) : run :=
  {| effects := [ShowError message]; state := this; finished := Returned |}.

(** [value] is the text of the symbol field, [depth] the value of the
    checked depth button ([None] when none is checked). *)
Definition handleStockAnalysis (w : world) (value : jsstring) (depth : option jsstring)
    (this : app) : run :=
  let symbol := JS.toUpperCase (JS.trim value) in
  if bool_decide (symbol = []) then refuse "Please enter a stock symbol" this
  else if negb (Client.isValidSymbol (api w) symbol) then
    refuse "Please enter a valid stock symbol (1-5 letters)" this
  else
    match depth with
    | None =>
        {| effects := [];
           state := this;
           finished :=
             Uncaught {| Host.name := "TypeError";
                         Host.message := "Cannot read properties of null (reading 'value')" |} |}
    | Some analysisType =>
        attempt w ("Analyzing " ++ symbol)
          (if bool_decide (analysisType = "quick")
           then "Quick analysis in progress..."
           else "Comprehensive analysis in progress...")
          (Client.analyzeStock (api w) (net w) symbol (Some analysisType))
          (symbol ++ " Analysis")
          symbol "stock" (Some analysisType) this
    end.

(** A verdict without an [error] member would be shown as ["undefined"]. *)
Definition handleStockComparison (w : world) (value : jsstring) (this : app) : run :=
  let symbolsText := JS.trim value in
  if bool_decide (symbolsText = []) then
    refuse "Please enter stock symbols to compare" this
  else
    let symbols := Client.parseSymbolList (api w) symbolsText in
    let validation := Client.validateSymbolList (api w) symbols in
    if negb (valid validation) then refuse (default "undefined" (error validation)) this
    else
      attempt w ("Comparing " ++ JS.join ", " symbols)
        "Multi-stock comparison in progress..."
        (Client.compareStocks (api w) (net w) symbols)
        (JS.join " vs " symbols ++ " Comparison")
        (JS.join ", " symbols) "comparison" None this.

Definition handleMarketResearch (w : world) (value : jsstring) (this : app) : run :=
  let topic := JS.trim value in
  if bool_decide (topic = []) then refuse "Please enter a research topic" this
  else
    attempt w "Market Research"
      ("Researching " ++ [JS.QUOTE] ++ topic ++ [JS.QUOTE] ++ "...")
      (Client.marketResearch (api w) (net w) topic)
      ("Market Research: " ++ topic)
      topic "research" None this.

Definition handleCustomQuery (w : world) (value : jsstring) (this : app) : run :=
  let query := JS.trim value in
  if bool_decide (query = []) then refuse "Please enter your question" this
  else
    attempt w "Processing Query" "Analyzing your question..."
      (Client.customQuery (api w) (net w) query)
      "Custom Query Results"
      (take 50 query ++ "...") "query" None this.

(** *** Downloading the results *)








(** *** The symbol field

    [setupSymbolValidation].  The validation line has a text and a class.
    Three of its texts start with a mark from above the alphabet (U+2713,
    U+2717, U+26A0): such a text is given as the mark and what follows
    it. *)
Inductive mark := CheckMark | CrossMark | WarningSign.

Record validationLine := {
  startsWithMark : option mark;
  textContent : jsstring;
  className : jsstring
}.

Definition cleared : validationLine :=
  {| startsWithMark := None; textContent := ""; className := "symbol-validation" |}.

Definition invalidFormat : validationLine :=
  {| startsWithMark := None; textContent := "Invalid format (1-5 letters only)";
     className := "symbol-validation invalid" |}.

Definition validating : validationLine :=
  {| startsWithMark := None; textContent := "Validating...";
     className := "symbol-validation" |}.

Definition unable : validationLine :=
  {| startsWithMark := Some WarningSign; textContent := " Unable to validate";
     className := "symbol-validation invalid" |}.

(** [`${value || fallback}`] *)
Definition orText (value : option Host.json) (fallback : jsstring) : jsstring :=
  if Host.truthy value then Host.toString (default Host.JNull value) else fallback.

(** What the timer's callback writes once [validateSymbol] has settled;
    an error thrown inside [try], by the request or by reading a member of
    [null], ends in the [catch] clause. *)
Definition verdictLine (symbol : jsstring) (settled : Host.json + Host.error)
  : validationLine :=
  match settled with
  | inr _ => unable
  | inl result =>
      match Host.getProperty "valid" result with
      | inl _ => unable
      | inr isValid =>
          if Host.truthy isValid then
            match Host.getProperty "name" result with
            | inl _ => unable
            | inr name =>
                {| startsWithMark := Some CheckMark;
                   textContent := " " ++ orText name symbol;
                   className := "symbol-validation valid" |}
            end
          else
            match Host.getProperty "reason" result with
            | inl _ => unable
            | inr reason =>
                {| startsWithMark := Some CrossMark;
                   textContent := " " ++ orText reason "Symbol not found";
                   className := "symbol-validation invalid" |}
            end
      end
  end.

(** The field between two events: the validation line, the symbol the
    armed timer will validate (at most one timer is armed: the listener
    clears the one before), and the requests under way with what they will
    settle with. *)
Record symbolField := {
  validationDiv : validationLine;
  validationTimeout : option jsstring;
  underWay : list (jsstring * (Host.json + Host.error))
}.

Inductive fieldEvent :=
| Input (value : jsstring)
| TimerFires
| Settles (which : nat).

(** One event; [None] when the event cannot happen in the state.  The
    order of the events is left open: the timer fires 500 ms after it was
    armed if it was not cleared, and a request settles when the network
    answers. *)
Definition fieldStep (a : Client.api) (n : Host.network) (e : fieldEvent)
    (field : symbolField) : option symbolField :=
  match e with
  | Input value =>
      let symbol := JS.toUpperCase (JS.trim value) in
      if bool_decide (symbol = []) then
        Some {| validationDiv := cleared; validationTimeout := None;
                underWay := underWay field |}
      else if negb (Client.isValidSymbol a symbol) then
        Some {| validationDiv := invalidFormat; validationTimeout := None;
                underWay := underWay field |}
      else
        Some {| validationDiv := validationDiv field; validationTimeout := Some symbol;
                underWay := underWay field |}
  | TimerFires =>
      match validationTimeout field with
      | None => None
      | Some symbol =>
          Some {| validationDiv := validating;
                  validationTimeout := None;
                  underWay :=
                    underWay field
                    ++ match Client.validateSymbol a n symbol with
                       | Host.Settled _ settled => [(symbol, settled)]
                       | Host.Pending => []
                       end |}
      end
  | Settles which =>
      match underWay field !! which with
      | None => None
      | Some (symbol, settled) =>
          Some {| validationDiv := verdictLine symbol settled;
                  validationTimeout := validationTimeout field;
                  underWay := delete which (underWay field) |}
      end
  end.

(** *** The age of an entry

    [formatTime]: [current] and [date] are the two dates in milliseconds
    ([date] is [None] for a timestamp that does not parse, whose time value
    is NaN, so that every comparison fails); [localeDate] is what
    [date.toLocaleDateString()] gives. *)
Definition formatTime (current : Z) (date : option Z) (localeDate : jsstring)
  : jsstring :=
  match date with
  | None => localeDate
  | Some date =>
      let diffMs := (current - date)%Z in
      let diffMins := (diffMs / 60000)%Z in
      let diffHours := (diffMins / 60)%Z in
      let diffDays := (diffHours / 24)%Z in
      if (diffMins <? 1)%Z then "Just now"
      else if (diffMins <? 60)%Z then Host.numberToString diffMins ++ "m ago"
      else if (diffHours <? 24)%Z then Host.numberToString diffHours ++ "h ago"
      else if (diffDays <? 7)%Z then Host.numberToString diffDays ++ "d ago"
      else localeDate
  end.

End App.

(** A text given line by line. *)
Definition lines (l : list jsstring) : jsstring := JS.join [JS.LF] l.

(** ** Vocabulary of the statements *)

Section Vocabulary.
Import Host App.

Definition entry (now query type : jsstring) (analysisType : option jsstring)
  : analysis :=
  {| query := query; type := type; analysisType := analysisType; timestamp := now |}.

(** One call of [addToRecentAnalyses] per element, in order. *)
Definition addAll (calls : list (bool * analysis)) (this : app) : app :=
  foldl (fun this call =>
           addToRecentAnalyses call.1 (timestamp call.2) (query call.2)
             (type call.2) (analysisType call.2) this)
        this calls.

Definition emptyApp : app := {| recentAnalyses := []; stored := None |}.

Definition elevenCalls : list (bool * analysis) :=
  map (fun n => (true, entry (JS.decimal n) ("S" ++ JS.decimal n) "stock" (Some "quick")))
      [1; 2; 3; 4; 5; 6; 7; 8; 9; 10; 11]%N.



(** The unit before the position reached by reading [x] from a position
    whose previous unit is [p]. *)
Definition prevAfter (p : option ascii) (x : jsstring) : option ascii :=
  match last x with
  | Some c => Some c
  | None => p
  end.

(** The state a match is in once the literal [p] has been read. *)
Definition afterLit (p : jsstring) (st : Regex.mstate) : Regex.mstate :=
  {| Regex.prev := prevAfter (Regex.prev st) p;
     Regex.rest := drop (length p) (Regex.rest st);
     Regex.cap := Regex.cap st |}.

(** The quantifier over a one-character pattern, by recursion on the input
    instead of on fuel: [ok] tells which characters the pattern accepts. *)
Fixpoint repeatClass (ok : ascii -> bool) (min : nat) (max : option nat)
    (greedy : bool) (k : Regex.mstate -> option Regex.mstate) (n : nat)
    (cp : option jsstring) (p : option ascii) (s : jsstring) {struct s}
  : option Regex.mstate :=
  let st := {| Regex.prev := p; Regex.rest := s; Regex.cap := cp |} in
  let more (_ : unit) :=
    if Regex.belowMax max n then
      match s with
      | c :: s' =>
          if ok c then repeatClass ok min max greedy k (S n) cp (Some c) s' else None
      | [] => None
      end
    else None in
  if n <? min then more tt
  else if greedy then Regex.orElse (more tt) (fun _ => k st)
  else Regex.orElse (k st) more.

(** Upper-case Latin letters, and the strings made of one to five of them. *)
Definition isUpperLatin (c : ascii) : Prop := (65 <= JS.code c <= 90)%N.

Definition UpperSymbol (s : jsstring) : Prop :=
  1 <= length s <= 5 /\ Forall isUpperLatin s.

(** Latin letters of either case, strings of code units below 128, and the
    strings made of one to five letters. *)
Definition isLatinLetter (c : ascii) : Prop :=
  (65 <= JS.code c <= 90)%N \/ (97 <= JS.code c <= 122)%N.

Definition isAscii (s : jsstring) : Prop := Forall (fun c => (JS.code c < 128)%N) s.

Definition LetterSymbol (s : jsstring) : Prop :=
  1 <= length s <= 5 /\ Forall isLatinLetter s.

(** The normalisation both clients apply to a piece of a symbol list. *)
Definition normalise (s : jsstring) : jsstring := JS.toUpperCase (JS.trim s).

(** [p] occurs in [s]. *)
Definition Occurs (p s : jsstring) : Prop := exists a b, s = a ++ p ++ b.

(** *** Tables, as the description has them *)

Fixpoint takeWhile {A} (f : A -> bool) (l : list A) : list A :=
  match l with
  | x :: l' => if f x then x :: takeWhile f l' else []
  | [] => []
  end.

Fixpoint dropWhile {A} (f : A -> bool) (l : list A) : list A :=
  match l with
  | x :: l' => if f x then dropWhile f l' else l
  | [] => []
  end.

(** A line that, once trimmed, starts and ends with a bar. *)
Definition isRowLine (line : jsstring) : bool :=
  JS.startsWith "|" (JS.trim line) && JS.endsWith "|" (JS.trim line).

(** A separator line: it holds a bar and a dash. *)
Definition isSeparatorLine (line : jsstring) : bool :=
  JS.includes "|" line && JS.includes "-" line.

Definition headerCell (text : jsstring) : jsstring :=
  "      <th>" ++ App.escapeHtml text ++ "</th>" ++ [JS.LF].

Definition bodyCell (text : jsstring) : jsstring :=
  "      <td>" ++ App.escapeHtml text ++ "</td>" ++ [JS.LF].

Definition bodyRow (columns : nat) (cells : list jsstring) : jsstring :=
  "    <tr>" ++ [JS.LF] ++ concat (map bodyCell (take columns cells))
  ++ "    </tr>" ++ [JS.LF].

(** The table for given header cells and body rows: every cell escaped,
    the cells of a row past the header's count left out. *)
Definition renderTable (headers : list jsstring) (rows : list (list jsstring))
  : jsstring :=
  App.tableOpen
  ++ (match headers with
      | [] => []
      | _ => "  <thead>" ++ [JS.LF] ++ "    <tr>" ++ [JS.LF]
             ++ concat (map headerCell headers)
             ++ "    </tr>" ++ [JS.LF] ++ "  </thead>" ++ [JS.LF]
      end)
  ++ (match rows with
      | [] => []
      | _ => "  <tbody>" ++ [JS.LF]
             ++ concat (map (bodyRow (length headers)) rows)
             ++ "  </tbody>" ++ [JS.LF]
      end)
  ++ "</table>".

(** The rows of a table body: the cells of each line, the lines without a
    non-empty cell skipped. *)
Definition bodyRows (body : list jsstring) : list (list jsstring) :=
  filter (fun cells => cells <> []) (map App.splitCells body).

Definition tableBlock (header : jsstring) (body : list jsstring) : jsstring :=
  renderTable (App.splitCells header) (bodyRows body).

(** The lines of a text with every table block replaced by its table: a
    header is a row line followed at once by a separator line; its body is
    the longest run of row lines after the separator. *)
Equations? tableScan (text : list jsstring) : list jsstring by wf (length text) lt :=
  tableScan [] := [];
  tableScan [line] := [line];
  tableScan (line :: next :: rest) :=
    if isRowLine line && isSeparatorLine next
    then tableBlock line (takeWhile isRowLine rest) :: tableScan (dropWhile isRowLine rest)
    else line :: tableScan (next :: rest).
Proof.
  clear tableScan. cbn. induction rest as [|x rest IH]; cbn; [lia|].
  destruct (isRowLine x); cbn; lia.
Qed.

(** *** Reading a table back

    The sources hold no code that reads a generated table.  The reader
    below stands for the test that would: it goes through the HTML once,
    collects the text between [<th>] and [</th>] as header cells and the
    text between [<td>] and [</td>] as the cells of the current [<tr>] of
    the table body, and decodes the character references that [escapeHtml]
    produces. *)

Record reader := {
  headerCells : list jsstring;
  rowCells : list (list jsstring);
  inBody : bool;
  row : option (list jsstring);
  cell : option jsstring;
  tag : option jsstring;
  entity : option jsstring
}.

(** A reader between two tags, outside any cell. *)
Definition idle (hs : list jsstring) (rows : list (list jsstring)) (b : bool)
    (r : option (list jsstring)) : reader :=
  {| headerCells := hs; rowCells := rows; inBody := b; row := r;
     cell := None; tag := None; entity := None |}.

(** A reader inside a cell, with the text read so far. *)
Definition inCell (hs : list jsstring) (rows : list (list jsstring)) (b : bool)
    (r : option (list jsstring)) (text : jsstring) : reader :=
  {| headerCells := hs; rowCells := rows; inBody := b; row := r;
     cell := Some text; tag := None; entity := None |}.

Definition decodeEntity (name : jsstring) : jsstring :=
  if bool_decide (name = "amp") then "&"
  else if bool_decide (name = "lt") then "<"
  else if bool_decide (name = "gt") then ">"
  else if bool_decide (name = "nbsp") then [JS.NBSP]
  else "&" ++ name ++ ";".

Definition closeTag (name : jsstring) (r : reader) : reader :=
  let hs := headerCells r in
  let rows := rowCells r in
  let b := inBody r in
  if bool_decide (name = "th") || bool_decide (name = "td") then inCell hs rows b (row r) []
  else if bool_decide (name = "/th") then
    idle (hs ++ match cell r with Some text => [text] | None => [] end) rows b (row r)
  else if bool_decide (name = "/td") then
    idle hs rows b
      (match row r, cell r with
       | Some cells, Some text => Some (cells ++ [text])
       | other, _ => other
       end)
  else if bool_decide (name = "tbody") then idle hs rows true (row r)
  else if bool_decide (name = "tr") then idle hs rows b (Some [])
  else if bool_decide (name = "/tr") then
    idle hs
      (match row r with
       | Some cells => if b then rows ++ [cells] else rows
       | None => rows
       end) b None
  else {| headerCells := hs; rowCells := rows; inBody := b; row := row r;
          cell := cell r; tag := None; entity := None |}.

Definition readUnit (r : reader) (c : ascii) : reader :=
  let keep (cell' tag' entity' : option jsstring) :=
    {| headerCells := headerCells r; rowCells := rowCells r; inBody := inBody r;
       row := row r; cell := cell'; tag := tag'; entity := entity' |} in
  match tag r with
  | Some name =>
      if Ascii.eqb c ">" then closeTag name r
      else keep (cell r) (Some (name ++ [c])) (entity r)
  | None =>
      if Ascii.eqb c "<" then keep (cell r) (Some []) None
      else
        match cell r, entity r with
        | None, _ => r
        | Some text, Some name =>
            if Ascii.eqb c ";" then keep (Some (text ++ decodeEntity name)) None None
            else keep (cell r) None (Some (name ++ [c]))
        | Some text, None =>
            if Ascii.eqb c "&" then keep (cell r) None (Some [])
            else keep (Some (text ++ [c])) None None
        end
  end.

Definition read (r : reader) (html : jsstring) : reader := foldl readUnit r html.

Definition extractCells (html : jsstring) : list jsstring * list (list jsstring) :=
  let r := read (idle [] [] false None) html in
  (headerCells r, rowCells r).

(** *** Markdown rules, as the description has them *)

(** A string without line terminators. *)
Definition noLT (s : jsstring) : Prop :=
  Forall (fun c => JS.isLineTerminator c = false) s.

(** A position at the start of a line. *)
Definition lineStart (p : option ascii) : Prop :=
  match p with
  | None => True
  | Some c => JS.isLineTerminator c = true
  end.

(** What a line rule does to one line: a line that starts with [marker]
    has the marker removed and the rest put between [opening] and
    [closing]; any other line stays. *)
Definition lineRule (marker opening closing line : jsstring) : jsstring :=
  if JS.startsWith marker line
  then opening ++ drop (length marker) line ++ closing
  else line.

(** The pattern of a line rule, [^marker(.*$)], and of an emphasis rule,
    [delimiter(.*?)delimiter]. *)
Definition linePattern (marker : jsstring) : Regex.regex :=
  Regex.Seq [Regex.Bol; Regex.Lit marker;
             Regex.Grp (Regex.Seq [Regex.Star Regex.Any; Regex.Eol])].

Definition emphasisPattern (delimiter : jsstring) : Regex.regex :=
  Regex.Seq [Regex.Lit delimiter; Regex.Grp (Regex.LazyStar Regex.Any);
             Regex.Lit delimiter].

Definition wrapped (opening closing : jsstring) : list Regex.piece :=
  [Regex.Text opening; Regex.Cap1; Regex.Text closing].




(** *** Runs of the handlers *)

(** A run of a handler from the application state [this] is orderly when:
    an error shown means the state is as it was and the handler has
    returned; the state has changed only by one [addToRecentAnalyses]
    made after the results were shown without an error, the last thing on
    the page; and a progress box that was shown has been completed or
    hidden, unless the handler is still waiting. *)
Definition orderly (w : world) (this : app) (r : run) : Prop :=
  (forall m, ShowError m ∈ effects r -> state r = this /\ finished r = Returned)
  /\ (state r = this
      \/ exists query type analysisType data title,
           state r
           = addToRecentAnalyses (writable w) (now w) query type analysisType this
           /\ last (effects r) = Some (ShowResults data title)
           /\ showResults w data title = None
           /\ finished r = Returned)
  /\ (forall title message,
        ProgressShow title message ∈ effects r ->
        finished r = Waiting \/ ProgressComplete ∈ effects r
        \/ ProgressHide ∈ effects r)
  /\ (finished r = Waiting -> exists title message, effects r = [ProgressShow title message]).

(** *** Reading an encoded component back

    The unit an encoded text starts with: a [%XX] group below 128 stands
    for itself, two groups for a unit from 128 up, any other unit for
    itself. *)
Definition hexValue (c : ascii) : N :=
  let n := JS.code c in
  if (n <? 58)%N then n - 48 else n - 55.

Definition decodeHead (s : jsstring) : option ascii :=
  match s with
  | [] => None
  | c :: s' =>
      if Ascii.eqb c "%" then
        match s' with
        | h1 :: h2 :: s'' =>
            let byte := (16 * hexValue h1 + hexValue h2)%N in
            if (byte <? 128)%N then Some (ascii_of_N byte)
            else match s'' with
                 | _ :: h3 :: h4 :: _ =>
                     Some (ascii_of_N ((byte - 192) * 64
                                       + (16 * hexValue h3 + hexValue h4 - 128)))
                 | _ => None
                 end
        | _ => None
        end
      else Some c
  end.

(** *** Events at the symbol field *)

(** A sequence of events, one after the other; [None] when one of them
    cannot happen where it stands. *)
Fixpoint fieldRun (a : Client.api) (n : Host.network) (events : list fieldEvent)
    (field : symbolField) : option symbolField :=
  match events with
  | [] => Some field
  | e :: events' =>
      match fieldStep a n e field with
      | Some field' => fieldRun a n events' field'
      | None => None
      end
  end.

(** The number of timers armed: one or none. *)
Definition timersArmed (field : symbolField) : nat :=
  match validationTimeout field with
  | Some _ => 1
  | None => 0
  end.

Definition isFiring (e : fieldEvent) : bool :=
  match e with TimerFires => true | _ => false end.

(** An input that arms the timer: trimmed and upper-cased, its text is
    not empty and passes the client's symbol check. *)
Definition wellFormed (a : Client.api) (symbol : jsstring) : bool :=
  negb (bool_decide (symbol = [])) && Client.isValidSymbol a symbol.

Definition arming (a : Client.api) (e : fieldEvent) : bool :=
  match e with
  | Input value => wellFormed a (JS.toUpperCase (JS.trim value))
  | _ => false
  end.

(** The symbols the field is about to validate, or is validating, all
    passed the symbol check. *)
Definition checkedField (a : Client.api) (field : symbolField) : Prop :=
  (forall s, validationTimeout field = Some s -> Client.isValidSymbol a s = true)
  /\ Forall (fun request => Client.isValidSymbol a request.1 = true) (underWay field).


(** *** Patterns of fixed width

    A pattern made of single characters, ranges, concatenation and the
    group takes a fixed number of units; whether it matches at a position
    is read off the text there, and so is what the group holds. *)
Fixpoint fixed (r : Regex.regex) : bool :=
  match r with
  | Regex.Eps | Regex.Chr _ | Regex.Range _ _ => true
  | Regex.Cat r1 r2 => fixed r1 && fixed r2
  | Regex.Grp r' => fixed r'
  | _ => false
  end.

Fixpoint widthOf (r : Regex.regex) : nat :=
  match r with
  | Regex.Chr _ | Regex.Range _ _ => 1
  | Regex.Cat r1 r2 => widthOf r1 + widthOf r2
  | Regex.Grp r' => widthOf r'
  | _ => 0
  end.

Fixpoint fitsAt (r : Regex.regex) (s : jsstring) : bool :=
  match r with
  | Regex.Chr c => match s with x :: _ => Ascii.eqb c x | [] => false end
  | Regex.Range lo hi => match s with x :: _ => JS.inRange lo hi x | [] => false end
  | Regex.Cat r1 r2 => fitsAt r1 s && fitsAt r2 (drop (widthOf r1) s)
  | Regex.Grp r' => fitsAt r' s
  | _ => true
  end.

Fixpoint captured (r : Regex.regex) (s : jsstring) (c : option jsstring)
  : option jsstring :=
  match r with
  | Regex.Cat r1 r2 => captured r2 (drop (widthOf r1) s) (captured r1 s c)
  | Regex.Grp r' => Some (take (widthOf r') s)
  | _ => c
  end.

(** *** Prose, as [formatMarkdown] renders it

    A text of plain lines and heading lines, without empty lines, lists,
    tables, emphasis or markup of its own. *)
Inductive level := L1 | L2 | L3 | L4.

Definition digit (n : level) : ascii :=
  match n with L1 => "1" | L2 => "2" | L3 => "3" | L4 => "4" end%char.

Definition hashes (n : level) : jsstring :=
  match n with L1 => "#" | L2 => "##" | L3 => "###" | L4 => "####" end.

Inductive block :=
| Plain (x : jsstring)
| Heading (n : level) (x : jsstring).

Definition source (b : block) : jsstring :=
  match b with
  | Plain x => x
  | Heading n x => hashes n ++ " " ++ x
  end.

Definition rendered (b : block) : jsstring :=
  match b with
  | Plain x => "<p>" ++ x ++ "</p>"
  | Heading n x => "<h" ++ [digit n] ++ ">" ++ x ++ "</h" ++ [digit n] ++ ">"
  end.

Definition proseUnit (c : ascii) : Prop :=
  JS.isLineTerminator c = false /\ c <> "*"%char /\ c <> "<"%char.

Definition markers : list jsstring := ["# "; "## "; "### "; "#### "; "- "].

(** A plain line is not empty, is not a row of a table and starts with
    none of the markers; the text of a heading may be empty. *)
Definition prose (b : block) : Prop :=
  match b with
  | Plain x =>
      x <> [] /\ Forall proseUnit x /\ isRowLine x = false
      /\ Forall (fun marker => JS.startsWith marker x = false) markers
  | Heading _ x => Forall proseUnit x
  end.

(** The tags the rendering goes through, and a text cut into tags and
    single units. *)
Inductive htmlTag :=
| TagP
| TagEndP
| TagH (n : level)
| TagEndH (n : level).

Definition tagText (t : htmlTag) : jsstring :=
  match t with
  | TagP => "<p>"
  | TagEndP => "</p>"
  | TagH n => "<h" ++ [digit n] ++ ">"
  | TagEndH n => "</h" ++ [digit n] ++ ">"
  end.

Inductive token :=
| Ch (c : ascii)
| Tg (t : htmlTag).

Definition tokenText (tok : token) : jsstring :=
  match tok with
  | Ch c => [c]
  | Tg t => tagText t
  end.

Definition textOf (toks : list token) : jsstring := flat_map tokenText toks.

Definition okToken (tok : token) : Prop :=
  match tok with
  | Ch c => c <> "<"%char
  | Tg _ => True
  end.

(** A rule that replaces a tag and the token after it: [hit t next] is the
    replacement when the rule applies to [t] followed by [next]. *)
Fixpoint rewriteTokens (hit : htmlTag -> option token -> option jsstring)
    (toks : list token) : jsstring :=
  match toks with
  | [] => []
  | Ch c :: toks' => c :: rewriteTokens hit toks'
  | Tg t :: toks' =>
      match toks' with
      | [] =>
          match hit t None with
          | Some out => out
          | None => tagText t
          end
      | next :: rest =>
          match hit t (Some next) with
          | Some out => out ++ rewriteTokens hit rest
          | None => tagText t ++ rewriteTokens hit toks'
          end
      end
  end.

(** What the rules that work on tags do to a tag and the token after it:
    an empty paragraph goes, and a paragraph tag next to a heading tag
    goes. *)
Definition hit_empty (t : htmlTag) (next : option token) : option jsstring :=
  match t, next with
  | TagP, Some (Tg TagEndP) => Some []
  | _, _ => None
  end.

Definition hit_open (t : htmlTag) (next : option token) : option jsstring :=
  match t, next with
  | TagP, Some (Tg (TagH n)) => Some (tagText (TagH n))
  | _, _ => None
  end.

Definition hit_close (t : htmlTag) (next : option token) : option jsstring :=
  match t, next with
  | TagEndH n, Some (Tg TagEndP) => Some (tagText (TagEndH n))
  | _, _ => None
  end.

(** The lines of a text, each cut into tokens, put together again. *)
Fixpoint joinLines (l : list (list token)) : list token :=
  match l with
  | [] => []
  | [x] => x
  | x :: l' => x ++ Ch JS.LF :: joinLines l'
  end.

(** What may follow the tokens of a line: nothing, or a line feed. *)
Definition lineEnd (tail : list token) : Prop :=
  tail = [] \/ exists more, tail = Ch JS.LF :: more.

(** A block after the heading rules, between paragraph tags, and with
    the paragraph tags next to a heading tag taken away one after the
    other. *)
Definition inner (b : block) : list token :=
  match b with
  | Plain x => map Ch x
  | Heading n x => Tg (TagH n) :: map Ch x ++ [Tg (TagEndH n)]
  end.

Definition wrappedLine (b : block) : list token := Tg TagP :: inner b ++ [Tg TagEndP].

Definition openedLine (b : block) : list token :=
  match b with
  | Plain x => wrappedLine b
  | Heading n x => inner b ++ [Tg TagEndP]
  end.

Definition closedLine (b : block) : list token :=
  match b with
  | Plain x => wrappedLine b
  | Heading n x => inner b
  end.

End Vocabulary.

(* ===================================================================== *)
(** * Part II: properties                                                 *)
(* ===================================================================== *)

(** ** Strings *)

Section Strings.
Import JS.

Lemma eqb_refl (c : ascii) : Ascii.eqb c c = true.
Proof. by apply Ascii.eqb_eq. Qed.

Lemma startsWith_app p b : startsWith p (p ++ b) = true.
Proof. induction p as [|c p IH]; [done|]. cbn. by rewrite eqb_refl. Qed.

Lemma startsWith_spec p s : startsWith p s = true <-> exists b, s = p ++ b.
Proof.
  split.
  - revert s. induction p as [|c p IH]; intros s H; [by exists s|].
    destruct s as [|x s]; [done|]. cbn in H.
    apply andb_true_iff in H as [Hc Hp]. apply Ascii.eqb_eq in Hc as ->.
    destruct (IH _ Hp) as [b ->]. by exists b.
  - intros [b ->]. apply startsWith_app.
Qed.

Lemma includes_cons p c s : includes p s = true -> includes p (c :: s) = true.
Proof. intros H. cbn. rewrite H. apply orb_true_r. Qed.

Lemma includes_spec p s : includes p s = true <-> Occurs p s.
Proof.
  split.
  - induction s as [|c s IH]; cbn; intros H.
    + rewrite orb_false_r in H. apply startsWith_spec in H as [b Hb].
      by exists [], b.
    + apply orb_true_iff in H as [H|H].
      * apply startsWith_spec in H as [b Hb]. by exists [], b.
      * destruct (IH H) as (a & b & ->). by exists (c :: a), b.
  - intros (a & b & ->). induction a as [|c a IH].
    + cbn [app]. destruct (p ++ b) eqn:E; cbn; rewrite <- ?E, startsWith_app; done.
    + by apply includes_cons.
Qed.

Lemma includes_false_cons p c s :
  includes p (c :: s) = false -> startsWith p (c :: s) = false /\ includes p s = false.
Proof. cbn [includes]. by intros [? ?]%orb_false_iff. Qed.

Lemma join_cons sep x y l : join sep (x :: y :: l) = x ++ sep ++ join sep (y :: l).
Proof. reflexivity. Qed.

Lemma join_occurs sep (l : list jsstring) x : x ∈ l -> Occurs x (join sep l).
Proof.
  induction l as [|y l IH]; [by intros ?%elem_of_nil|].
  intros [->|Hin]%elem_of_cons.
  - destruct l as [|z l]; [exists [], []; cbn; by rewrite app_nil_r|].
    rewrite join_cons. by exists [], (sep ++ join sep (z :: l)).
  - destruct l as [|z l]; [by apply elem_of_nil in Hin|].
    destruct (IH Hin) as (a & b & E). rewrite join_cons, E.
    exists (y ++ sep ++ a), b. by rewrite <- !app_assoc.
Qed.

Lemma occurs_app_l p a s : Occurs p s -> Occurs p (a ++ s).
Proof. intros (u & v & ->). exists (a ++ u), v. by rewrite <- app_assoc. Qed.

Lemma prevAfter_cons p c x : prevAfter p (c :: x) = prevAfter (Some c) x.
Proof.
  unfold prevAfter. destruct x as [|c' x]; [done|]. cbn [last].
  destruct (last (c' :: x)) eqn:E; [done|]. by apply last_None in E.
Qed.

End Strings.

(** ** The matcher *)

Section Matcher.
Import Regex.

Lemma exec_Lit fl p st k :
  exec fl (Lit p) st k
  = if JS.startsWith p (rest st) then k (afterLit p st) else None.
Proof.
  revert st. induction p as [|c p IH]; intros st.
  - cbn. unfold afterLit, prevAfter. cbn. rewrite drop_0. by destruct st.
  - cbn [Lit exec]. unfold one. destruct (rest st) as [|x s] eqn:Hs; [done|].
    cbn [JS.startsWith]. destruct (Ascii.eqb c x) eqn:Hc; [|done].
    apply Ascii.eqb_eq in Hc as <-.
    rewrite IH. cbn [advance rest andb]. destruct (JS.startsWith p s); [|done].
    f_equal. unfold afterLit. cbn [advance rest prev cap]. rewrite Hs.
    cbn [length drop]. f_equal. by rewrite prevAfter_cons.
Qed.

Lemma iterate_class body ok min max greedy k :
  (forall st k', body st k' = one ok st k') ->
  forall fuel n st,
    length (rest st) < fuel ->
    iterate body min max greedy k fuel n st
    = repeatClass ok min max greedy k n (cap st) (prev st) (rest st).
Proof.
  intros Hbody fuel. induction fuel as [|fuel IH]; intros n st Hfuel; [lia|].
  destruct st as [p s cp]. cbn [rest prev cap] in *.
  destruct s as [|c s].
  - cbn [iterate repeatClass]. rewrite Hbody. unfold one. cbn [rest]. done.
  - cbn [iterate repeatClass]. rewrite Hbody. unfold one, orElse.
    cbn [rest advance]. cbn beta.
    assert ((length s =? length (c :: s)) = false) as ->.
    { apply Nat.eqb_neq. cbn. lia. }
    rewrite andb_false_r.
    rewrite IH by (cbn in *; lia). done.
Qed.

Lemma exec_Rep_class fl r ok min max greedy st k :
  (forall st k', exec fl r st k' = one ok st k') ->
  exec fl (Rep min max greedy r) st k
  = repeatClass ok min max greedy k 0 (cap st) (prev st) (rest st).
Proof.
  intros H. cbn [exec]. apply iterate_class; [done|lia].
Qed.

Lemma searchFrom_cons fl r p c s :
  searchFrom fl r p (c :: s)
  = match matchAt fl r p (c :: s) with
    | Some _ => true
    | None => searchFrom fl r (Some c) s
    end.
Proof. reflexivity. Qed.

Lemma exec_Star_Any fl st k :
  exec fl (Star Any) st k
  = repeatClass (fun c => dotAll fl || negb (JS.isLineTerminator c)) 0 None true k 0
      (cap st) (prev st) (rest st).
Proof. unfold Star. by apply exec_Rep_class. Qed.


End Matcher.

(** ** The symbol checks *)

Section Symbols.
Import Regex.

Lemma inRange_upper c : JS.inRange "A" "Z" c = true <-> isUpperLatin c.
Proof.
  unfold JS.inRange, isUpperLatin.
  change (JS.code "A") with 65%N. change (JS.code "Z") with 90%N.
  rewrite andb_true_iff, !N.leb_le. done.
Qed.

Lemma symbol_rounds n cp p s :
  n <= 5 ->
  is_Some (repeatClass (JS.inRange "A" "Z") 1 (Some 5) true
             (fun st => if atLineEnd noFlags st then Some st else None) n cp p s)
  <-> Forall isUpperLatin s /\ 1 <= n + length s <= 5.
Proof.
  revert n p. induction s as [|c s IH]; intros n p Hn.
  - cbn. destruct n as [|n]; cbn.
    + split; [by intros [? ?]|lia].
    + destruct (n <=? 3); cbn; (split; [intros _; split; [constructor|lia]|by eexists]).
  - cbn [repeatClass]. unfold orElse. cbn [atLineEnd rest multiline noFlags andb].
    assert (forall o : option mstate,
              (if n <? 1 then o else
                 match o with Some st => Some st | None => None end) = o) as ->.
    { intros [?|]; by destruct (n <? 1). }
    unfold belowMax. destruct (Nat.ltb_spec n 5) as [Hlt|Hge].
    + destruct (JS.inRange "A" "Z" c) eqn:Hc.
      * rewrite IH by lia. rewrite Forall_cons, <- inRange_upper. cbn [length].
        split; intros [? ?]; (split; [tauto || done|lia]).
      * split; [by intros [? ?]|]. rewrite Forall_cons, <- inRange_upper.
        intros [[? _] _]. congruence.
    + split; [by intros [? ?]|]. cbn [length]. lia.
Qed.

Lemma symbolPattern_at_start s :
  is_Some (matchAt noFlags symbolPattern None s) <-> UpperSymbol s.
Proof.
  unfold matchAt, symbolPattern, UpperSymbol.
  cbn [Seq foldr]. cbn [exec]. cbn [atLineStart start prev].
  rewrite (iterate_class _ (JS.inRange "A" "Z")) by (done || cbn; lia).
  cbn [start cap prev rest]. rewrite symbol_rounds by lia. cbn. tauto.
Qed.

Lemma symbolPattern_not_later c s : searchFrom noFlags symbolPattern (Some c) s = false.
Proof.
  revert c. induction s as [|x s IH]; intros c; cbn; [done|apply IH].
Qed.

Lemma symbolPattern_test s : test noFlags symbolPattern s = true <-> UpperSymbol s.
Proof.
  rewrite <- symbolPattern_at_start. unfold test.
  destruct s as [|c s].
  - cbn [searchFrom]. destruct (matchAt noFlags symbolPattern None []);
      split; (done || by intros [? ?] || by eexists).
  - rewrite searchFrom_cons, symbolPattern_not_later.
    destruct (matchAt noFlags symbolPattern None (c :: s));
      split; (done || by intros [? ?] || by eexists).
Qed.

End Symbols.

Section SymbolLists.

Lemma upperUnit_ascii c :
  (JS.code c < 128)%N ->
  exists c', JS.upperUnit c = [c'] /\ (isUpperLatin c' <-> isLatinLetter c).
Proof.
  intros Hc. unfold JS.upperUnit.
  destruct ((97 <=? JS.code c)%N && (JS.code c <=? 122)%N) eqn:Hlow.
  - cbn [orb]. eexists; split; [done|].
    apply andb_true_iff in Hlow as [H1%N.leb_le H2%N.leb_le].
    unfold isUpperLatin, isLatinLetter, JS.code in *.
    rewrite N_ascii_embedding by lia. lia.
  - cbn [orb].
    assert ((224 <=? JS.code c)%N = false) as -> by (apply N.leb_gt; lia).
    cbn [andb].
    assert ((JS.code c =? 223)%N = false) as -> by (apply N.eqb_neq; lia).
    eexists; split; [done|].
    apply andb_false_iff in Hlow.
    unfold isUpperLatin, isLatinLetter. rewrite !N.leb_gt in Hlow. lia.
Qed.

Lemma toUpperCase_ascii s :
  isAscii s ->
  length (JS.toUpperCase s) = length s
  /\ (Forall isUpperLatin (JS.toUpperCase s) <-> Forall isLatinLetter s).
Proof.
  unfold isAscii, JS.toUpperCase. induction 1 as [|c s Hc _ [IHl IHf]]; [done|].
  destruct (upperUnit_ascii c Hc) as (c' & Hu & Hiff).
  cbn [flat_map]. rewrite Hu. cbn [Datatypes.app length]. split; [lia|].
  rewrite !Forall_cons. tauto.
Qed.

(** C2 does not hold of the first client: ["aapl"] is made of lower-case
    letters and passes its check. *)
Lemma isValidSymbol_lowercase_counterexample :
  CommModule.isValidSymbol "aapl" = true /\ ~ UpperSymbol "aapl".
Proof.
  split; [by vm_compute|]. intros [_ H].
  apply Forall_cons in H as [H _]. unfold isUpperLatin in H. cbn in H. lia.
Qed.

(** C2, as the code has it.  In the second client [isValidSymbol(s)] holds
    exactly when [s] is made of one to five upper-case Latin letters.  The
    first client applies the same test to [s.toUpperCase()]: it holds
    exactly when the upper-cased string is made of one to five upper-case
    letters, so for a string of code units below 128 exactly when [s] is
    made of one to five Latin letters of either case. *)
Theorem isValidSymbol_spec :
  (forall s, ApiClient.isValidSymbol s = true <-> UpperSymbol s)
  /\ (forall s, CommModule.isValidSymbol s = true <-> UpperSymbol (JS.toUpperCase s))
  /\ (forall s, isAscii s -> CommModule.isValidSymbol s = true <-> LetterSymbol s).
Proof.
  split; [|split].
  - intros s. apply symbolPattern_test.
  - intros s. apply symbolPattern_test.
  - intros s Hs. unfold CommModule.isValidSymbol. rewrite symbolPattern_test.
    destruct (toUpperCase_ascii s Hs) as [Hl Hf].
    unfold UpperSymbol, LetterSymbol. rewrite Hl, Hf. done.
Qed.

Lemma isValidSymbol_spec_witness :
  CommModule.isValidSymbol "Msft" = true /\ ApiClient.isValidSymbol "MSFT" = true.
Proof.
  destruct isValidSymbol_spec as (H2 & _ & H1). split.
  - apply (H1 "Msft").
    + unfold isAscii. repeat constructor.
    + split; [cbn; lia|].
      repeat constructor; unfold isLatinLetter; cbn; lia.
  - apply (H2 "MSFT"). split; [cbn; lia|].
    repeat constructor; unfold isUpperLatin; cbn; lia.
Defined.

Lemma isValidSymbol_empty : CommModule.isValidSymbol [] = false.
Proof. reflexivity. Qed.

(** C3 does not hold of the second client: the piece ["XYZ123"] fails the
    symbol check and stays in the list. *)
Lemma parseSymbolList_counterexample :
  ApiClient.parseSymbolList "AAPL, msft , xyz123" = ["AAPL"; "MSFT"; "XYZ123"]
  /\ ApiClient.isValidSymbol "XYZ123" = false
  /\ ApiClient.parseSymbolList "AAPL, msft , xyz123" <> ["AAPL"; "MSFT"].
Proof. by vm_compute. Qed.

(** C3, as the code has it.  Both clients split the input on commas, trim
    and upper-case each piece.  The first client keeps exactly the pieces
    that pass its symbol check, so ["AAPL, msft , xyz123"] gives
    [["AAPL"; "MSFT"]]; the second client keeps every non-empty piece,
    valid or not, so the same input gives [["AAPL"; "MSFT"; "XYZ123"]]. *)
Theorem parseSymbolList_spec :
  (forall input,
     CommModule.parseSymbolList input
     = filter (fun s => CommModule.isValidSymbol s = true)
         (map normalise (JS.split "," input)))
  /\ CommModule.parseSymbolList "AAPL, msft , xyz123" = ["AAPL"; "MSFT"]
  /\ (forall input,
        ApiClient.parseSymbolList input
        = filter (fun s => s <> []) (map normalise (JS.split "," input)))
  /\ ApiClient.parseSymbolList "AAPL, msft , xyz123" = ["AAPL"; "MSFT"; "XYZ123"].
Proof.
  repeat split.
  - intros input. unfold CommModule.parseSymbolList. apply list_filter_iff.
    intros s. destruct (decide (s = [])) as [->|Hs].
    + rewrite isValidSymbol_empty. done.
    + rewrite bool_decide_eq_false_2 by done. done.
  - intros input. unfold ApiClient.parseSymbolList. apply list_filter_iff.
    intros [|c s]; cbn; split; (done || lia).
Qed.

(** C4 does not hold of the second client: ["A1"] and ["B2"] both fail the
    check and the message names the first only. *)
Lemma validateSymbolList_counterexample :
  ApiClient.validateSymbolList ["A1"; "B2"]
  = {| valid := false; error := Some "Invalid symbol format: A1 (1-5 letters only)" |}
  /\ ApiClient.isValidSymbol "B2" = false
  /\ ~ Occurs "B2" "Invalid symbol format: A1 (1-5 letters only)".
Proof.
  repeat split. by intros H%includes_spec.
Qed.

Lemma firstInvalid_valid symbols :
  Forall (fun s => ApiClient.isValidSymbol s = true) symbols ->
  ApiClient.firstInvalid symbols = {| valid := true; error := None |}.
Proof. induction 1 as [|s l Hs _ IH]; [done|]. cbn. by rewrite Hs. Qed.

Lemma firstInvalid_first pre s post :
  Forall (fun s => ApiClient.isValidSymbol s = true) pre ->
  ApiClient.isValidSymbol s = false ->
  ApiClient.firstInvalid (pre ++ s :: post)
  = {| valid := false;
       error := Some ("Invalid symbol format: " ++ s ++ " (1-5 letters only)") |}.
Proof.
  induction 1 as [|x l Hx _ IH]; intros Hs; cbn.
  - by rewrite Hs.
  - rewrite Hx. cbn. by apply IH.
Qed.

(** C4, as the code has it.  In both clients a list of fewer than two or
    more than five symbols is invalid, with a message about the count, and
    a list of two to five symbols is valid exactly when every member passes
    the client's own symbol check.  When some member fails it, the first
    client answers ["Invalid symbols: "] followed by all the failing
    members, comma-separated, so every failing member occurs in the
    message; the second client stops at the first failing member and names
    only that one. *)
Theorem validateSymbolList_spec (symbols : list jsstring) :
  (length symbols < 2 ->
     CommModule.validateSymbolList symbols
     = {| valid := false; error := Some "Please enter at least 2 symbols" |}
     /\ ApiClient.validateSymbolList symbols
        = {| valid := false; error := Some "At least 2 symbols required for comparison" |})
  /\ (5 < length symbols ->
        CommModule.validateSymbolList symbols
        = {| valid := false; error := Some "Maximum 5 symbols allowed" |}
        /\ ApiClient.validateSymbolList symbols
           = {| valid := false; error := Some "Maximum 5 symbols allowed for comparison" |})
  /\ (2 <= length symbols <= 5 ->
        (valid (CommModule.validateSymbolList symbols) = true
         <-> Forall (fun s => CommModule.isValidSymbol s = true) symbols)
        /\ (valid (ApiClient.validateSymbolList symbols) = true
            <-> Forall (fun s => ApiClient.isValidSymbol s = true) symbols)
        /\ (let failing := filter (fun s => CommModule.isValidSymbol s = false) symbols in
            failing <> [] ->
            CommModule.validateSymbolList symbols
            = {| valid := false;
                 error := Some ("Invalid symbols: " ++ JS.join ", " failing) |}
            /\ forall s, s ∈ symbols -> CommModule.isValidSymbol s = false ->
                         Occurs s ("Invalid symbols: " ++ JS.join ", " failing))
        /\ (forall pre s post,
              symbols = pre ++ s :: post ->
              Forall (fun s => ApiClient.isValidSymbol s = true) pre ->
              ApiClient.isValidSymbol s = false ->
              ApiClient.validateSymbolList symbols
              = {| valid := false;
                   error := Some ("Invalid symbol format: " ++ s ++ " (1-5 letters only)") |})).
Proof.
  unfold CommModule.validateSymbolList, ApiClient.validateSymbolList.
  split; [|split].
  - intros H. apply Nat.ltb_lt in H as ->. done.
  - intros H.
    destruct (Nat.ltb_spec (length symbols) 2); [lia|].
    apply Nat.ltb_lt in H as ->. done.
  - intros [H2 H5].
    destruct (Nat.ltb_spec (length symbols) 2); [lia|].
    destruct (Nat.ltb_spec 5 (length symbols)); [lia|].
    assert (filter (fun s => negb (CommModule.isValidSymbol s) = true) symbols
            = filter (fun s => CommModule.isValidSymbol s = false) symbols) as ->.
    { apply list_filter_iff. intros s. by destruct (CommModule.isValidSymbol s). }
    split; [|split; [|split]].
    + destruct (filter _ symbols) as [|bad rest] eqn:Hf; cbn.
      * split; [intros _|done]. apply Forall_forall. intros s Hs.
        destruct (CommModule.isValidSymbol s) eqn:Hv; [done|].
        exfalso. by eapply (filter_nil_not_elem_of _ _ s Hf).
      * split; [done|]. intros Hall.
        assert (bad ∈ filter (fun s => CommModule.isValidSymbol s = false) symbols)
          as [Hb Hin]%list_elem_of_filter by (rewrite Hf; left).
        rewrite Forall_forall in Hall. rewrite (Hall _ Hin) in Hb. done.
    + split.
      * intros Hv. apply Forall_forall. intros s Hs.
        destruct (ApiClient.isValidSymbol s) eqn:Hbad; [done|].
        apply list_elem_of_split in Hs as (l1 & l2 & ->).
        clear -Hv Hbad. exfalso. induction l1 as [|x l1 IH]; cbn in Hv.
        -- by rewrite Hbad in Hv.
        -- destruct (ApiClient.isValidSymbol x); cbn in Hv; [by apply IH|done].
      * intros Hall. by rewrite firstInvalid_valid.
    + intros Hne.
      destruct (filter _ symbols) as [|bad rest] eqn:Hf; [done|]. cbn [length Nat.ltb Nat.leb].
      split; [done|]. intros s Hs Hbad.
      apply occurs_app_l, join_occurs. rewrite <- Hf.
      by apply list_elem_of_filter.
    + intros pre s post -> Hpre Hs. by apply firstInvalid_first.
Qed.

Lemma validateSymbolList_spec_witness :
  CommModule.validateSymbolList ["A1"; "OK"; "B2"]
  = {| valid := false; error := Some "Invalid symbols: A1, B2" |}
  /\ ApiClient.validateSymbolList ["OK"; "A1"; "B2"]
     = {| valid := false; error := Some "Invalid symbol format: A1 (1-5 letters only)" |}
  /\ valid (ApiClient.validateSymbolList ["X"]) = false.
Proof.
  split; [|split].
  - destruct (validateSymbolList_spec ["A1"; "OK"; "B2"]) as (_ & _ & H).
    destruct H as (_ & _ & H & _); [cbn; lia|].
    apply H. by vm_compute.
  - destruct (validateSymbolList_spec ["OK"; "A1"; "B2"]) as (_ & _ & H).
    destruct H as (_ & _ & _ & H); [cbn; lia|].
    apply (H ["OK"] "A1" ["B2"]); [reflexivity| |reflexivity].
    repeat constructor.
  - destruct (validateSymbolList_spec ["X"]) as (H & _).
    destruct H as [_ ->]; [cbn; lia|]. reflexivity.
Defined.

End SymbolLists.

(** ** The table parser *)

Section Tables.
Import App.

Lemma trimStart_suffix s : exists a, s = a ++ JS.trimStart s.
Proof.
  induction s as [|c s [a IH]]; [by exists []|]. cbn.
  destruct (JS.isWhiteSpace c); [|by exists []].
  exists (c :: a). cbn. by f_equal.
Qed.

Lemma trimEnd_prefix s : exists b, s = JS.trimEnd s ++ b.
Proof.
  unfold JS.trimEnd. destruct (trimStart_suffix (rev s)) as [a Ha].
  exists (rev a). rewrite <- rev_app_distr, <- Ha. by rewrite rev_involutive.
Qed.

Lemma trim_inside s : exists a b, s = a ++ JS.trim s ++ b.
Proof.
  unfold JS.trim. destruct (trimStart_suffix s) as [a Ha].
  destruct (trimEnd_prefix (JS.trimStart s)) as [b Hb].
  exists a, b. by rewrite <- Hb.
Qed.

Lemma startsWith_trim_includes p s :
  JS.startsWith p (JS.trim s) = true -> JS.includes p s = true.
Proof.
  intros [t Ht]%startsWith_spec. apply includes_spec.
  destruct (trim_inside s) as (a & b & Hs).
  exists a, (t ++ b). rewrite Hs at 1. rewrite Ht. by rewrite <- !app_assoc.
Qed.

(** The test of the two loops is the row test of the description. *)
Lemma row_test line :
  JS.includes "|" line && JS.startsWith "|" (JS.trim line)
  && JS.endsWith "|" (JS.trim line) = isRowLine line.
Proof.
  unfold isRowLine.
  destruct (JS.startsWith "|" (JS.trim line)) eqn:Hs.
  - by rewrite (startsWith_trim_includes _ _ Hs).
  - by rewrite andb_false_r.
Qed.

Lemma break_test line :
  negb (JS.includes "|" line) || negb (JS.startsWith "|" (JS.trim line))
  || negb (JS.endsWith "|" (JS.trim line)) = negb (isRowLine line).
Proof.
  rewrite <- row_test.
  by destruct (JS.includes "|" line), (JS.startsWith "|" (JS.trim line)),
    (JS.endsWith "|" (JS.trim line)).
Qed.

Lemma separator_test next :
  negb (bool_decide (next = [])) && JS.includes "-" next && JS.includes "|" next
  = isSeparatorLine next.
Proof.
  unfold isSeparatorLine. destruct next as [|c next]; [done|].
  rewrite bool_decide_eq_false_2 by done. cbn [negb andb]. apply andb_comm.
Qed.

Lemma drop_takeWhile {A} (f : A -> bool) l :
  drop (length (takeWhile f l)) l = dropWhile f l.
Proof.
  induction l as [|x l IH]; [done|]. cbn. by destruct (f x).
Qed.

Lemma bodyRows_cons line body :
  bodyRows (line :: body)
  = if 0 <? length (splitCells line) then splitCells line :: bodyRows body
    else bodyRows body.
Proof.
  unfold bodyRows. cbn [map]. rewrite filter_cons.
  destruct (splitCells line); cbn [length Nat.ltb Nat.leb]; by case_decide.
Qed.

Lemma collectRows_spec lines fuel i dataRows :
  length lines <= fuel + i ->
  collectRows fuel lines i dataRows
  = (dataRows ++ bodyRows (takeWhile isRowLine (drop i lines)),
     i + length (takeWhile isRowLine (drop i lines))).
Proof.
  revert i dataRows. induction fuel as [|fuel IH]; intros i dataRows Hlen.
  - rewrite drop_ge by lia. cbn. by rewrite app_nil_r, Nat.add_0_r.
  - cbn [collectRows]. destruct (lines !! i) as [line|] eqn:Hi.
    + rewrite (drop_S _ _ _ Hi). cbn [takeWhile]. rewrite break_test.
      destruct (isRowLine line); cbn [negb].
      * rewrite IH by lia. rewrite bodyRows_cons. cbn [length].
        replace (i + 1) with (S i) by lia.
        destruct (0 <? length (splitCells line)).
        -- rewrite <- app_assoc. f_equal. lia.
        -- f_equal. lia.
      * cbn. by rewrite app_nil_r, Nat.add_0_r.
    + apply lookup_ge_None in Hi. rewrite drop_ge by lia. cbn.
      by rewrite app_nil_r, Nat.add_0_r.
Qed.

Lemma headers_loop headers tableHtml :
  foldl (fun tableHtml header =>
           tableHtml ++ "      <th>" ++ escapeHtml header ++ "</th>" ++ [JS.LF])
        tableHtml headers
  = tableHtml ++ concat (map headerCell headers).
Proof.
  revert tableHtml. induction headers as [|h headers IH]; intros acc; cbn [foldl map concat].
  - by rewrite app_nil_r.
  - rewrite IH. unfold headerCell. by rewrite <- !app_assoc.
Qed.

Lemma emitCells_spec headerCount index row tableHtml :
  emitCells headerCount index row tableHtml
  = tableHtml ++ concat (map bodyCell (take (headerCount - index) row)).
Proof.
  revert index tableHtml. induction row as [|cell row IH]; intros index acc.
  - cbn. rewrite take_nil. cbn. by rewrite app_nil_r.
  - cbn [emitCells]. rewrite IH.
    destruct (Nat.ltb_spec index headerCount) as [Hlt|Hge].
    + replace (headerCount - index) with (S (headerCount - (index + 1))) by lia.
      cbn [take map concat]. unfold bodyCell at 2. by rewrite <- !app_assoc.
    + replace (headerCount - (index + 1)) with 0 by lia.
      replace (headerCount - index) with 0 by lia. done.
Qed.

Lemma rows_loop columns rows tableHtml :
  foldl (fun tableHtml row =>
           let tableHtml := tableHtml ++ "    <tr>" ++ [JS.LF] in
           let tableHtml := emitCells columns 0 row tableHtml in
           tableHtml ++ "    </tr>" ++ [JS.LF])
        tableHtml rows
  = tableHtml ++ concat (map (bodyRow columns) rows).
Proof.
  revert tableHtml. induction rows as [|row rows IH]; intros acc; cbn [foldl map concat].
  - by rewrite app_nil_r.
  - cbn zeta. rewrite IH, emitCells_spec, Nat.sub_0_r. unfold bodyRow.
    by rewrite <- !app_assoc.
Qed.

Lemma parseTable_spec lines i header :
  lines !! i = Some header ->
  let body := takeWhile isRowLine (drop (i + 2) lines) in
  parseTable lines i
  = {| html := tableBlock header body; nextIndex := i + 2 + length body |}.
Proof.
  intros Hi body. unfold parseTable.
  rewrite collectRows_spec by lia. cbv beta iota. rewrite app_nil_l. fold body.
  rewrite Hi. change (default [] (Some header)) with header.
  f_equal. unfold tableBlock, renderTable.
  rewrite headers_loop, rows_loop.
  destruct (splitCells header) as [|h hs]; destruct (bodyRows body) as [|r rs];
    cbn [length Nat.ltb Nat.leb]; rewrite <- ?app_assoc, ?app_nil_l; reflexivity.
Qed.

Lemma scanLines_spec lines fuel i result :
  length lines <= fuel + i ->
  scanLines fuel lines i result = result ++ tableScan (drop i lines).
Proof.
  revert i result. induction fuel as [|fuel IH]; intros i result Hlen.
  - rewrite drop_ge by lia. simp tableScan. by rewrite app_nil_r.
  - cbn [scanLines]. destruct (lines !! i) as [line|] eqn:Hi.
    2:{ apply lookup_ge_None in Hi. rewrite drop_ge by lia. simp tableScan.
        by rewrite app_nil_r. }
    rewrite (drop_S _ _ _ Hi), row_test.
    destruct (lines !! (i + 1)) as [next|] eqn:Hn.
    + replace (i + 1) with (S i) in Hn by lia.
      rewrite (drop_S _ _ _ Hn). simp tableScan. rewrite separator_test.
      destruct (isRowLine line); cbn [andb].
      * destruct (isSeparatorLine next).
        -- rewrite (parseTable_spec _ _ _ Hi). cbn [html nextIndex].
           rewrite IH by lia. replace (S (S i)) with (i + 2) by lia.
           rewrite <- drop_takeWhile, drop_drop, <- app_assoc. reflexivity.
        -- rewrite IH by lia. rewrite <- app_assoc. cbn [Datatypes.app].
           replace (i + 1) with (S i) by lia.
           by rewrite (drop_S _ _ _ Hn).
      * rewrite IH by lia. rewrite <- app_assoc. cbn [Datatypes.app].
        replace (i + 1) with (S i) by lia.
        by rewrite (drop_S _ _ _ Hn).
    + apply lookup_ge_None in Hn. rewrite (drop_ge _ (S i)) by lia.
      simp tableScan.
      assert (scanLines fuel lines (i + 1) (result ++ [line]) = result ++ [line]) as E.
      { rewrite IH by lia. rewrite drop_ge by lia. simp tableScan.
        by rewrite app_nil_r. }
      destruct (isRowLine line); exact E.
Qed.

(** C5.  [parseMarkdownTables] replaces the lines of each table block by
    its table and leaves the other lines as they are, where: a header is a
    line whose trimmed form starts and ends with a bar and whose next line
    holds a bar and a dash; the header cells are the trimmed non-empty
    segments of the header split on bars; the body is the longest run of
    such row lines after the separator; a row's cells past the header's
    count are left out; rows without a non-empty cell are skipped; every
    cell is escaped, so that ["<b>"] becomes ["&lt;b&gt;"]. *)
Theorem parseMarkdownTables_spec :
  (forall text,
     parseMarkdownTables text
     = JS.join [JS.LF] (tableScan (JS.split JS.LF text)))
  /\ (forall line next rest,
        tableScan (line :: next :: rest)
        = if isRowLine line && isSeparatorLine next
          then tableBlock line (takeWhile isRowLine rest)
               :: tableScan (dropWhile isRowLine rest)
          else line :: tableScan (next :: rest))
  /\ (forall line, tableScan [line] = [line])
  /\ (forall header body,
        tableBlock header body
        = renderTable
            (filter (fun cell => cell <> []) (map JS.trim (JS.split "|" header)))
            (filter (fun cells => cells <> [])
               (map (fun line =>
                       filter (fun cell => cell <> []) (map JS.trim (JS.split "|" line)))
                    body)))
  /\ parseMarkdownTables (lines ["| A | B |"; "|---|---|"; "| 1 | <b> | 3 |"; "|  |"; "after"])
     = renderTable ["A"; "B"] [["1"; "<b>"; "3"]] ++ [JS.LF] ++ "after"
  /\ renderTable ["A"; "B"] [["1"; "<b>"; "3"]]
     = lines ["<table class=" ++ [JS.QUOTE] ++ "markdown-table" ++ [JS.QUOTE] ++ ">";
              "  <thead>"; "    <tr>"; "      <th>A</th>"; "      <th>B</th>";
              "    </tr>"; "  </thead>"; "  <tbody>"; "    <tr>";
              "      <td>1</td>"; "      <td>&lt;b&gt;</td>"; "    </tr>";
              "  </tbody>"; "</table>"].
Proof.
  split; [|split; [|split; [|split; [|split]]]].
  - intros text. unfold parseMarkdownTables. rewrite scanLines_spec by lia.
    by rewrite drop_0.
  - intros. by simp tableScan.
  - intros. by simp tableScan.
  - reflexivity.
  - by vm_compute.
  - by vm_compute.
Qed.

End Tables.

(** ** Reading a table back *)

Section RoundTrip.
Import App.

Lemma read_app r a b : read r (a ++ b) = read (read r a) b.
Proof. apply foldl_app. Qed.

Lemma read_escaped hs rows b rw text t :
  read (inCell hs rows b rw t) (escapeHtml text) = inCell hs rows b rw (t ++ text).
Proof.
  revert t. induction text as [|c text IH]; intros t.
  - cbn. by rewrite app_nil_r.
  - change (escapeHtml (c :: text)) with (escapeUnit c ++ escapeHtml text).
    rewrite read_app.
    assert (read (inCell hs rows b rw t) (escapeUnit c) = inCell hs rows b rw (t ++ [c])) as ->.
    { unfold escapeUnit.
      destruct (Ascii.eqb c "&") eqn:E1; [apply Ascii.eqb_eq in E1 as ->; reflexivity|].
      destruct (Ascii.eqb c "<") eqn:E2; [apply Ascii.eqb_eq in E2 as ->; reflexivity|].
      destruct (Ascii.eqb c ">") eqn:E3; [apply Ascii.eqb_eq in E3 as ->; reflexivity|].
      destruct (Ascii.eqb c JS.NBSP) eqn:E4; [apply Ascii.eqb_eq in E4 as ->; reflexivity|].
      unfold read, inCell. cbn [foldl readUnit tag cell entity].
      by rewrite E2, E1. }
    rewrite IH. by rewrite <- app_assoc.
Qed.

Lemma read_headerCell hs rows b rw text :
  read (idle hs rows b rw) (headerCell text) = idle (hs ++ [text]) rows b rw.
Proof.
  unfold headerCell. rewrite !read_app.
  change (read (idle hs rows b rw) "      <th>") with (inCell hs rows b rw []).
  rewrite read_escaped. reflexivity.
Qed.

Lemma read_bodyCell hs rows b cells text :
  read (idle hs rows b (Some cells)) (bodyCell text)
  = idle hs rows b (Some (cells ++ [text])).
Proof.
  unfold bodyCell. rewrite !read_app.
  change (read (idle hs rows b (Some cells)) "      <td>")
    with (inCell hs rows b (Some cells) []).
  rewrite read_escaped. reflexivity.
Qed.

Lemma read_headerCells hs rows b rw texts :
  read (idle hs rows b rw) (concat (map headerCell texts)) = idle (hs ++ texts) rows b rw.
Proof.
  revert hs. induction texts as [|t texts IH]; intros hs; cbn [map concat].
  - by rewrite app_nil_r.
  - rewrite read_app, read_headerCell, IH. by rewrite <- app_assoc.
Qed.

Lemma read_bodyCells hs rows b cells texts :
  read (idle hs rows b (Some cells)) (concat (map bodyCell texts))
  = idle hs rows b (Some (cells ++ texts)).
Proof.
  revert cells. induction texts as [|t texts IH]; intros cells; cbn [map concat].
  - by rewrite app_nil_r.
  - rewrite read_app, read_bodyCell, IH. by rewrite <- app_assoc.
Qed.

Lemma read_bodyRow hs rows columns cells :
  read (idle hs rows true None) (bodyRow columns cells)
  = idle hs (rows ++ [take columns cells]) true None.
Proof.
  unfold bodyRow. rewrite !read_app.
  change (read (read (idle hs rows true None) "    <tr>") [JS.LF])
    with (idle hs rows true (Some [])).
  rewrite read_bodyCells. reflexivity.
Qed.

Lemma read_bodyRows hs rows columns body :
  read (idle hs rows true None) (concat (map (bodyRow columns) body))
  = idle hs (rows ++ map (take columns) body) true None.
Proof.
  revert rows. induction body as [|cells body IH]; intros rows; cbn [map concat].
  - by rewrite app_nil_r.
  - rewrite read_app, read_bodyRow, IH. by rewrite <- app_assoc.
Qed.

Lemma extractCells_renderTable headers rows :
  extractCells (renderTable headers rows) = (headers, map (take (length headers)) rows).
Proof.
  unfold extractCells, renderTable. rewrite !read_app.
  change (read (idle [] [] false None) tableOpen) with (idle [] [] false None).
  assert (read (idle [] [] false None)
            match headers with
            | [] => []
            | _ :: _ => "  <thead>" ++ [JS.LF] ++ "    <tr>" ++ [JS.LF]
                        ++ concat (map headerCell headers)
                        ++ "    </tr>" ++ [JS.LF] ++ "  </thead>" ++ [JS.LF]
            end = idle headers [] false None) as ->.
  { destruct headers as [|h hs]; [done|]. rewrite !read_app.
    change (read (read (read (read (idle [] [] false None) "  <thead>") [JS.LF])
                    "    <tr>") [JS.LF])
      with (idle [] [] false (Some [])).
    rewrite read_headerCells. reflexivity. }
  destruct rows as [|r rs]; [done|]. rewrite !read_app.
  change (read (read (idle headers [] false None) "  <tbody>") [JS.LF])
    with (idle headers [] true None).
  rewrite read_bodyRows. reflexivity.
Qed.

Lemma take_all_rows {A} n (rows : list (list A)) :
  Forall (fun r => length r <= n) rows -> map (take n) rows = rows.
Proof.
  induction 1 as [|r rows Hr _ IH]; [done|]. cbn. by rewrite take_ge, IH.
Qed.

(** C8 does not hold of a row that is longer than the header: the cell
    ["2"] of the block is not read back. *)
Lemma round_trip_counterexample :
  let text := lines ["| A |"; "|---|"; "| 1 | 2 |"] in
  splitCells "| A |" = ["A"]
  /\ bodyRows ["| 1 | 2 |"] = [["1"; "2"]]
  /\ extractCells (parseMarkdownTables text) = (["A"], [["1"]]).
Proof. by vm_compute. Qed.

(** C8, as the code has it.  For a table block at line [i] (its header at
    [i], its separator next, its body the row lines that follow), reading
    the header and body cells back from the generated table gives the
    header's cell texts and, for each body row with a non-empty cell, its
    cell texts up to the header's column count: cells past that count are
    not in the table.  When no row has more cells than the header, the
    cell texts read back are exactly those of the block. *)
Theorem table_round_trip (rows_of_text : list jsstring) (i : nat) (header : jsstring) :
  rows_of_text !! i = Some header ->
  let headers := splitCells header in
  let rows := bodyRows (takeWhile isRowLine (drop (i + 2) rows_of_text)) in
  extractCells (html (parseTable rows_of_text i))
  = (headers, map (take (length headers)) rows)
  /\ (Forall (fun cells => length cells <= length headers) rows ->
      extractCells (html (parseTable rows_of_text i)) = (headers, rows)).
Proof.
  intros Hi headers rows. rewrite (parseTable_spec _ _ _ Hi). cbn [html].
  unfold tableBlock. fold headers rows. rewrite extractCells_renderTable.
  split; [done|]. intros Hall. by rewrite take_all_rows.
Qed.

Lemma table_round_trip_witness :
  extractCells (html (parseTable ["| A | B |"; "|---|---|"; "| 1 | <b> |"; "| x&y | 4 |"; ""] 0))
  = (["A"; "B"], [["1"; "<b>"]; ["x&y"; "4"]]).
Proof.
  apply (table_round_trip ["| A | B |"; "|---|---|"; "| 1 | <b> |"; "| x&y | 4 |"; ""]
           0 "| A | B |" eq_refl).
  vm_compute. repeat constructor.
Defined.

End RoundTrip.

(** ** Replacement *)

Section Replacement.
Import Regex.

Context (fl : flags) (r : regex) (tpl : list piece).

Lemma replaceAll_skip a b p :
  replaceAll fl r tpl (length a) p (a ++ b) = replaceAll fl r tpl 0 (prevAfter p a) b.
Proof.
  revert p. induction a as [|c a IH]; intros p; [done|].
  cbn [length Datatypes.app replaceAll]. by rewrite IH, prevAfter_cons.
Qed.

Lemma replaceAll_match p m st' :
  m <> [] ->
  matchAt fl r p (m ++ rest st') = Some st' ->
  replaceAll fl r tpl 0 p (m ++ rest st')
  = expand tpl (cap st') ++ replaceAll fl r tpl 0 (prevAfter p m) (rest st').
Proof.
  intros Hm Hmatch. destruct m as [|c m]; [done|].
  cbn [Datatypes.app replaceAll]. cbn [Datatypes.app] in Hmatch. rewrite Hmatch.
  f_equal.
  replace (length (c :: m ++ rest st') - length (rest st')) with (S (length m))
    by (cbn [length]; rewrite length_app; lia).
  by rewrite replaceAll_skip, prevAfter_cons.
Qed.

Lemma replaceAll_nomatch p c s :
  matchAt fl r p (c :: s) = None ->
  replaceAll fl r tpl 0 p (c :: s) = c :: replaceAll fl r tpl 0 (Some c) s.
Proof. intros H. cbn [replaceAll]. by rewrite H. Qed.

Lemma replaceAll_end p :
  matchAt fl r p [] = None -> replaceAll fl r tpl 0 p [] = [].
Proof. intros H. cbn [replaceAll]. by rewrite H. Qed.

Lemma replaceAll_prev :
  (forall p p' s, matchAt fl r p s = matchAt fl r p' s) ->
  forall s n p p', replaceAll fl r tpl n p s = replaceAll fl r tpl n p' s.
Proof.
  intros Hany s. induction s as [|c s IH]; intros n p p'.
  - destruct n; cbn [replaceAll]; [|done]. by rewrite (Hany p p').
  - destruct n; cbn [replaceAll]; [|done]. by rewrite (Hany p p').
Qed.

Lemma replaceFirst_nomatch p c s :
  matchAt fl r p (c :: s) = None ->
  replaceFirst fl r tpl p (c :: s) = c :: replaceFirst fl r tpl (Some c) s.
Proof. intros H. cbn [replaceFirst]. by rewrite H. Qed.

End Replacement.

(** ** Quantifiers over one character *)

Section Quantifiers.
Import Regex.

Context (ok : ascii -> bool) (k : mstate -> option mstate) (cp : option (list ascii)).

(** A greedy star reads on to the end of the run of accepted characters
    when the rest of the pattern matches there. *)
Lemma greedy_to_end x tail n p st :
  Forall (fun c => ok c = true) x ->
  match tail with [] => True | c :: _ => ok c = false end ->
  k {| prev := prevAfter p x; rest := tail; cap := cp |} = Some st ->
  repeatClass ok 0 None true k n cp p (x ++ tail) = Some st.
Proof.
  intros Hx Htail Hk. revert n p Hk. induction Hx as [|c x Hc _ IH]; intros n p Hk.
  - cbn [Datatypes.app]. destruct tail as [|c tail]; cbn [repeatClass belowMax Nat.ltb Nat.leb orElse].
    + exact Hk.
    + rewrite Htail. exact Hk.
  - cbn [Datatypes.app repeatClass belowMax Nat.ltb Nat.leb]. rewrite Hc.
    rewrite (IH (S n) (Some c)); [done|]. by rewrite <- (prevAfter_cons p).
Qed.




End Quantifiers.

(** ** Line rules *)

(** A string without line terminators does not reach past the end of a
    line. *)
Lemma startsWith_within m l tail :
  noLT m ->
  match tail with [] => True | c :: _ => JS.isLineTerminator c = true end ->
  JS.startsWith m (l ++ tail) = JS.startsWith m l.
Proof.
  intros Hm Htail. revert l. induction Hm as [|c m Hc _ IH]; intros l; [done|].
  destruct l as [|d l]; cbn [Datatypes.app JS.startsWith].
  - destruct tail as [|d tail]; [done|]. cbn [JS.startsWith].
    destruct (Ascii.eqb c d) eqn:E; [|done].
    apply Ascii.eqb_eq in E as ->. congruence.
  - by rewrite IH.
Qed.

Section LineRules.
Import Regex.

Context (marker opening closing : list ascii).
Hypothesis marker_nonempty : marker <> [].
Hypothesis marker_noLT : noLT marker.

Lemma atLineStart_lineStart p s :
  lineStart p -> atLineStart flags_gm (start p s) = true.
Proof. destruct p as [c|]; cbn; [intros ->|]; done. Qed.

Lemma line_match p x tail :
  lineStart p -> noLT x ->
  match tail with [] => True | c :: _ => JS.isLineTerminator c = true end ->
  matchAt flags_gm (linePattern marker) p (marker ++ x ++ tail)
  = Some {| prev := prevAfter (prevAfter p marker) x; rest := tail; cap := Some x |}.
Proof.
  intros Hp Hx Htail. unfold matchAt, linePattern. cbn [Seq foldr].
  cbn [exec]. rewrite atLineStart_lineStart by done.
  rewrite exec_Lit. cbn [start rest]. rewrite startsWith_app.
  rewrite exec_Star_Any. unfold afterLit. cbn [start rest prev cap].
  rewrite drop_app_length.
  apply greedy_to_end.
  - eapply Forall_impl; [exact Hx|]. cbn. by intros c ->.
  - destruct tail as [|c tail]; [done|]. cbn. by rewrite Htail.
  - cbn [rest prev].
    assert (atLineEnd flags_gm
              {| prev := prevAfter (prevAfter p marker) x; rest := tail; cap := None |}
            = true) as ->.
    { unfold atLineEnd. cbn [rest]. destruct tail as [|c tail]; [done|].
      cbn. by rewrite Htail. }
    do 3 f_equal. rewrite length_app.
    replace (length x + length tail - length tail) with (length x) by lia.
    by rewrite take_app_length.
Qed.

Lemma line_nomatch p s :
  JS.startsWith marker s = false -> matchAt flags_gm (linePattern marker) p s = None.
Proof.
  intros H. unfold matchAt, linePattern. cbn [Seq foldr]. cbn [exec].
  destruct (atLineStart flags_gm (start p s)); [|done].
  rewrite exec_Lit. cbn [start rest]. by rewrite H.
Qed.

Lemma line_inside c s :
  JS.isLineTerminator c = false -> matchAt flags_gm (linePattern marker) (Some c) s = None.
Proof.
  intros H. unfold matchAt, linePattern. cbn [Seq foldr]. cbn [exec].
  cbn [atLineStart start prev]. by rewrite H, andb_false_r.
Qed.

Lemma marker_within l tail :
  match tail with [] => True | c :: _ => JS.isLineTerminator c = true end ->
  JS.startsWith marker (l ++ tail) = JS.startsWith marker l.
Proof. by apply startsWith_within. Qed.

Lemma marker_not_at_break tail : JS.startsWith marker (JS.LF :: tail) = false.
Proof.
  change (JS.LF :: tail) with ([] ++ JS.LF :: tail).
  rewrite marker_within by done. by destruct marker.
Qed.

Let rule := replaceAll flags_gm (linePattern marker) (wrapped opening closing) 0.

Lemma rule_inside c x tail :
  JS.isLineTerminator c = false -> noLT x ->
  rule (Some c) (x ++ tail) = x ++ rule (prevAfter (Some c) x) tail.
Proof.
  intros Hc Hx. revert c Hc. induction Hx as [|d x Hd _ IH]; intros c Hc; [done|].
  cbn [Datatypes.app]. unfold rule. rewrite replaceAll_nomatch by by apply line_inside.
  f_equal. rewrite prevAfter_cons. by apply IH.
Qed.

Lemma rule_line p l tail :
  lineStart p -> noLT l ->
  match tail with [] => True | c :: _ => JS.isLineTerminator c = true end ->
  rule p (l ++ tail) = lineRule marker opening closing l ++ rule (prevAfter p l) tail.
Proof.
  intros Hp Hl Htail. unfold lineRule.
  destruct (JS.startsWith marker l) eqn:Hm.
  - apply startsWith_spec in Hm as [x ->]. rewrite drop_app_length.
    apply Forall_app in Hl as [_ Hx].
    rewrite <- !app_assoc. unfold rule.
    pose proof (line_match p x tail Hp Hx Htail) as Hmatch.
    pose proof (replaceAll_match flags_gm (linePattern marker) (wrapped opening closing)
                  p (marker ++ x)
                  {| prev := prevAfter (prevAfter p marker) x; rest := tail; cap := Some x |})
      as Hrep.
    cbn [rest cap] in Hrep. rewrite <- !app_assoc in Hrep.
    rewrite Hrep; [|by destruct marker|exact Hmatch].
    cbn [wrapped expand flat_map default].
    by rewrite app_nil_r, <- !app_assoc.
  - destruct l as [|c l]; [done|]. cbn [Datatypes.app]. unfold rule.
    rewrite replaceAll_nomatch.
    2:{ apply line_nomatch. change (c :: l ++ tail) with ((c :: l) ++ tail).
        by rewrite marker_within. }
    f_equal. apply Forall_cons in Hl as [Hc Hl]. rewrite prevAfter_cons.
    by apply rule_inside.
Qed.

Lemma rule_lines p ls :
  lineStart p -> Forall noLT ls ->
  rule p (lines ls) = lines (map (lineRule marker opening closing) ls).
Proof.
  intros Hp Hls. revert p Hp. induction Hls as [|l ls Hl _ IH]; intros p Hp.
  - change (lines []) with (@nil ascii). unfold rule.
    rewrite replaceAll_end; [done|]. apply line_nomatch. by destruct marker.
  - destruct ls as [|l2 ls].
    + cbn [lines JS.join map]. rewrite <- (app_nil_r l) at 1.
      rewrite rule_line by done. unfold rule. rewrite replaceAll_end.
      * by rewrite app_nil_r.
      * apply line_nomatch. by destruct marker.
    + change (lines (l :: l2 :: ls)) with (l ++ [JS.LF] ++ lines (l2 :: ls)).
      change (lines (map (lineRule marker opening closing) (l :: l2 :: ls)))
        with (lineRule marker opening closing l ++ [JS.LF]
              ++ lines (map (lineRule marker opening closing) (l2 :: ls))).
      rewrite rule_line by done. f_equal. cbn [Datatypes.app]. unfold rule.
      rewrite replaceAll_nomatch by apply line_nomatch, marker_not_at_break.
      f_equal. by apply IH.
Qed.

Lemma line_rule_spec ls :
  Forall noLT ls ->
  App.sub flags_gm (linePattern marker, wrapped opening closing) (lines ls)
  = lines (map (lineRule marker opening closing) ls).
Proof. intros Hls. by apply rule_lines. Qed.

End LineRules.

(** ** Emphasis rules *)

Section Emphasis.
Import Regex.

Context (d : list ascii) (d0 : ascii) (d' : list ascii) (opening closing : list ascii).
Hypothesis delimiter : d = d0 :: d'.

Lemma emphasis_nomatch p s :
  JS.startsWith d s = false -> matchAt flags_g (emphasisPattern d) p s = None.
Proof.
  intros H. unfold matchAt, emphasisPattern. cbn [Seq foldr]. cbn [exec].
  rewrite exec_Lit. cbn [start rest]. by rewrite H.
Qed.

Lemma emphasis_prev p p' s :
  matchAt flags_g (emphasisPattern d) p s = matchAt flags_g (emphasisPattern d) p' s.
Proof.
  unfold matchAt, emphasisPattern. cbn [Seq foldr]. cbn [exec].
  rewrite !exec_Lit. cbn [start rest].
  replace (afterLit d (start p s)) with (afterLit d (start p' s)); [done|].
  unfold afterLit. cbn [start prev rest cap]. f_equal.
  rewrite delimiter. by rewrite !prevAfter_cons.
Qed.

Lemma not_delimiter c s : c <> d0 -> JS.startsWith d (c :: s) = false.
Proof.
  intros Hc. rewrite delimiter. cbn [JS.startsWith].
  destruct (Ascii.eqb d0 c) eqn:E; [|done]. apply Ascii.eqb_eq in E. congruence.
Qed.


Let rule := replaceAll flags_g (emphasisPattern d) (wrapped opening closing) 0.

Lemma emphasis_rule_prev p p' s : rule p s = rule p' s.
Proof. unfold rule. apply replaceAll_prev. apply emphasis_prev. Qed.

Lemma emphasis_copy pre tail p :
  Forall (fun c => c <> d0) pre -> rule p (pre ++ tail) = pre ++ rule None tail.
Proof.
  intros Hpre. revert p. induction Hpre as [|c pre Hc _ IH]; intros p.
  - apply emphasis_rule_prev.
  - cbn [Datatypes.app]. unfold rule.
    rewrite replaceAll_nomatch by by apply emphasis_nomatch, not_delimiter.
    f_equal. apply IH.
Qed.


End Emphasis.

(** ** The list wrapper *)

Section ListWrap.
Import Regex.

Lemma take_front {A} (u b : list A) : take (length (u ++ b) - length b) (u ++ b) = u.
Proof.
  rewrite length_app. replace (length u + length b - length b) with (length u) by lia.
  apply take_app_length.
Qed.



Lemma listWrap_unfold p s :
  matchAt flags_s App.listWrap.1 p s
  = exec flags_s (Lit "<li>") (start p s) (fun st1 =>
      exec flags_s (Star Any) st1 (fun st2 =>
        exec flags_s (Lit "</li>") st2 (fun st3 =>
          Some {| prev := prev st3; rest := rest st3;
                  cap := Some (take (length s - length (rest st3)) s) |}))).
Proof. reflexivity. Qed.

Lemma listWrap_nomatch p s :
  JS.startsWith "<li>" s = false -> matchAt flags_s App.listWrap.1 p s = None.
Proof. intros H. rewrite listWrap_unfold, exec_Lit. cbn [start rest]. by rewrite H. Qed.




Lemma listWrap_absent p t :
  JS.includes "<li>" t = false ->
  replaceFirst flags_s App.listWrap.1 App.listWrap.2 p t = t.
Proof.
  revert p. induction t as [|c t IH]; intros p Ht.
  - cbn [replaceFirst]. by rewrite listWrap_nomatch.
  - apply includes_false_cons in Ht as [Hhere Ht].
    rewrite replaceFirst_nomatch by by apply listWrap_nomatch.
    f_equal. by apply IH.
Qed.

End ListWrap.

(** ** One run of list lines *)

Section OneRun.
Import Regex.

Lemma lines_cons x y l : lines (x :: y :: l) = x ++ [JS.LF] ++ lines (y :: l).
Proof. reflexivity. Qed.






Lemma includes_no_tag p a tail :
  Forall (fun c => c <> "<"%char) a ->
  JS.includes ("<"%char :: p) (a ++ tail) = JS.includes ("<"%char :: p) tail.
Proof.
  induction 1 as [|c a Hc _ IH]; [done|].
  cbn [Datatypes.app JS.includes JS.startsWith].
  destruct (Ascii.eqb "<" c) eqn:E; [apply Ascii.eqb_eq in E; congruence|].
  cbn [andb orb]. exact IH.
Qed.






End OneRun.

(** ** The markdown substitutions *)

Section Markdown.
Import Regex.




End Markdown.

(** ** The recent analyses *)

Section Recent.
Import App.

Lemma analysis_eta (a : analysis) :
  {| query := query a; type := type a; analysisType := analysisType a;
     timestamp := timestamp a |} = a.
Proof. by destruct a. Qed.

Lemma addToRecentAnalyses_list writable now q t a this :
  recentAnalyses (addToRecentAnalyses writable now q t a this)
  = take 10 (entry now q t a :: recentAnalyses this).
Proof. unfold addToRecentAnalyses, saveRecentAnalyses. by destruct writable. Qed.

Lemma take_app_take {A} (n : nat) (l k : list A) :
  take n (l ++ take n k) = take n (l ++ k).
Proof.
  rewrite !take_app, take_take. do 2 f_equal. lia.
Qed.

Lemma addAll_cons w a calls this :
  addAll ((w, a) :: calls) this
  = addAll calls
      (addToRecentAnalyses w (timestamp a) (query a) (type a) (analysisType a) this).
Proof. reflexivity. Qed.

Lemma addAll_list calls this :
  length (recentAnalyses this) <= 10 ->
  recentAnalyses (addAll calls this)
  = take 10 (rev (map snd calls) ++ recentAnalyses this).
Proof.
  revert this. induction calls as [|[w a] calls IH]; intros this Hlen.
  - cbn. by rewrite take_ge.
  - rewrite addAll_cons, IH.
    + rewrite addToRecentAnalyses_list. cbn [fst snd map rev].
      unfold entry. rewrite analysis_eta, <- app_assoc.
      apply (take_app_take 10 (rev (map snd calls)) (a :: recentAnalyses this)).
    + rewrite addToRecentAnalyses_list, length_take. lia.
Qed.

(** C6.  After every [addToRecentAnalyses] the list holds at most ten
    entries, the new entry is its first one, and the list is the first ten
    of the new entry followed by the previous list; a successful write
    leaves the same list in local storage, a failed one leaves the store as
    it was.  Eleven calls starting from the
    empty list leave exactly ten entries, the most recent first: the ten
    last ones in reverse order of insertion. *)
Theorem recent_analyses_bounded :
  (forall writable now q t a this,
     let this' := addToRecentAnalyses writable now q t a this in
     length (recentAnalyses this') <= 10
     /\ head (recentAnalyses this') = Some (entry now q t a)
     /\ recentAnalyses this' = take 10 (entry now q t a :: recentAnalyses this)
     /\ stored this' = if writable then Some (recentAnalyses this') else stored this)
  /\ (forall calls,
        length calls = 11 ->
        recentAnalyses (addAll calls emptyApp) = take 10 (rev (map snd calls))
        /\ length (recentAnalyses (addAll calls emptyApp)) = 10).
Proof.
  split.
  - intros writable now q t a this this'. subst this'.
    rewrite addToRecentAnalyses_list. repeat split.
    + rewrite length_take. lia.
    + unfold addToRecentAnalyses, saveRecentAnalyses. by destruct writable.
  - intros calls Hlen.
    assert (recentAnalyses (addAll calls emptyApp) = take 10 (rev (map snd calls))) as ->.
    { rewrite addAll_list by (cbn; lia). cbn [emptyApp recentAnalyses]. by rewrite app_nil_r. }
    split; [done|].
    rewrite length_take, length_rev, length_map. lia.
Qed.

Lemma recent_analyses_bounded_witness :
  map query (recentAnalyses (addAll elevenCalls emptyApp))
  = ["S11"; "S10"; "S9"; "S8"; "S7"; "S6"; "S5"; "S4"; "S3"; "S2"]
  /\ length (recentAnalyses (addAll elevenCalls emptyApp)) = 10.
Proof.
  destruct recent_analyses_bounded as [_ H].
  destruct (H elevenCalls eq_refl) as [-> H10].
  split; [reflexivity | exact H10].
Defined.

End Recent.

(** ** Requests *)

Section Requests.
Import Host.









(** C1, where the code falls short.  The second client stores a timeout of
    300000 ms and hands it to [fetch] under the key [timeout], which
    [fetch] does not read; no abort signal is ever attached.  So a reply
    that takes 300001 ms is delivered as if no timeout were set, a request
    that is never answered never settles, and the outcome of a request
    does not depend on the configured timeout at all. *)
Theorem timeout_not_enforced :
  let payload := JObj [("result", JStr "report")] in
  let late := fun _ : request =>
    After 300001 (Answer {| status := 200; statusText := "OK"; content := Parsed payload |}) in
  ApiClient.timeout ApiClient.new = 300000%N
  /\ ApiClient.makeRequest ApiClient.new late "/analyze/stock" noOptions
     = Settled 300001 (inl payload)
  /\ ApiClient.makeRequest ApiClient.new (fun _ => Silent) "/analyze/stock" noOptions
     = Pending
  /\ (forall url t1 t2 net endpoint options,
        ApiClient.makeRequest {| ApiClient.baseURL := url; ApiClient.timeout := t1 |}
          net endpoint options
        = ApiClient.makeRequest {| ApiClient.baseURL := url; ApiClient.timeout := t2 |}
            net endpoint options).
Proof.
  repeat split.
Qed.

End Requests.

(* ===================================================================== *)
(** * Part III: further properties of the code                            *)
(* ===================================================================== *)

(** ** Texts without tables *)

Section Untouched.
Import App.

Lemma split_nonempty sep s : JS.split sep s <> [].
Proof.
  destruct s as [|c s]; [done|]. cbn.
  destruct (Ascii.eqb c sep); [done|]. by destruct (JS.split sep s).
Qed.

(** Splitting on a separator and joining with it gives the text back. *)
Lemma split_join sep s : JS.join [sep] (JS.split sep s) = s.
Proof.
  induction s as [|c s IH]; [done|]. cbn [JS.split].
  destruct (Ascii.eqb c sep) eqn:E.
  - apply Ascii.eqb_eq in E as ->.
    pose proof (split_nonempty sep s) as Hne.
    destruct (JS.split sep s) as [|piece pieces]; [done|].
    rewrite join_cons, IH. reflexivity.
  - destruct (JS.split sep s) as [|piece pieces]; [by rewrite <- IH|].
    destruct pieces as [|piece' pieces].
    + cbn in IH |- *. by rewrite IH.
    + rewrite <- IH. reflexivity.
Qed.

Lemma split_pieces_free sep s :
  Forall (fun piece => Forall (fun c => c <> sep) piece) (JS.split sep s).
Proof.
  induction s as [|c s IH]; [by repeat constructor|]. cbn [JS.split].
  destruct (Ascii.eqb c sep) eqn:E; [by constructor|].
  apply Ascii.eqb_neq in E.
  destruct (JS.split sep s) as [|piece pieces]; [by repeat constructor|].
  apply Forall_cons in IH as [Hp Hps]. constructor; [by constructor|done].
Qed.

Lemma split_pieces_keep sep (P : ascii -> Prop) s :
  Forall P s -> Forall (Forall P) (JS.split sep s).
Proof.
  induction 1 as [|c s Hc _ IH]; [by repeat constructor|]. cbn [JS.split].
  destruct (Ascii.eqb c sep); [by constructor|].
  destruct (JS.split sep s) as [|piece pieces]; [by repeat constructor|].
  apply Forall_cons in IH as [Hp Hps]. constructor; [by constructor|done].
Qed.

Lemma tableScan_rowless ls :
  Forall (fun l => isRowLine l = false) ls -> tableScan ls = ls.
Proof.
  induction 1 as [|l ls Hl Hls IH]; [by simp tableScan|].
  destruct ls as [|next rest]; simp tableScan; [done|].
  by rewrite Hl, IH.
Qed.

Lemma barless_not_row l : Forall (fun c => c <> "|"%char) l -> isRowLine l = false.
Proof.
  intros Hl. unfold isRowLine.
  destruct (JS.startsWith "|" (JS.trim l)) eqn:E; [|done].
  apply startsWith_trim_includes, includes_spec in E as (a & b & ->).
  apply Forall_app in Hl as [_ Hl]. by apply Forall_cons in Hl as [? _].
Qed.

Lemma parseMarkdownTables_rowless text :
  Forall (fun l => isRowLine l = false) (JS.split JS.LF text) ->
  parseMarkdownTables text = text.
Proof.
  intros H. unfold parseMarkdownTables. rewrite scanLines_spec by lia.
  rewrite drop_0, tableScan_rowless by done. apply split_join.
Qed.

(** X1.  A text none of whose lines is a row line (trimmed, it starts and
    ends with a bar) comes out of [parseMarkdownTables] as it went in; so
    does, in particular, every text without a bar. *)
Theorem tables_untouched (text : list ascii) :
  (Forall (fun l => isRowLine l = false) (JS.split JS.LF text) ->
   parseMarkdownTables text = text)
  /\ (Forall (fun c => c <> "|"%char) text -> parseMarkdownTables text = text).
Proof.
  split; [apply parseMarkdownTables_rowless|].
  intros Hbar. apply parseMarkdownTables_rowless.
  eapply Forall_impl; [by apply split_pieces_keep|]. apply barless_not_row.
Qed.

Lemma tables_untouched_witness :
  parseMarkdownTables (lines ["Revenue grew 4%"; "a | b"; "- margin"])
  = lines ["Revenue grew 4%"; "a | b"; "- margin"]
  /\ parseMarkdownTables "no bars here" = "no bars here".
Proof.
  split.
  - apply (proj1 (tables_untouched _)).
    assert (JS.split JS.LF (lines ["Revenue grew 4%"; "a | b"; "- margin"])
            = ["Revenue grew 4%"; "a | b"; "- margin"]) as -> by reflexivity.
    repeat constructor.
  - apply (proj2 (tables_untouched _)). repeat constructor; done.
Defined.

End Untouched.

(** ** Escaping and cells *)

Section Cells.
Import App.

Lemma escapeUnit_safe c :
  Forall (fun x => x <> "<"%char /\ x <> ">"%char /\ x <> JS.NBSP) (escapeUnit c).
Proof.
  unfold escapeUnit.
  destruct (Ascii.eqb c "&") eqn:E1; [by repeat constructor|].
  destruct (Ascii.eqb c "<") eqn:E2; [by repeat constructor|].
  destruct (Ascii.eqb c ">") eqn:E3; [by repeat constructor|].
  destruct (Ascii.eqb c JS.NBSP) eqn:E4; [by repeat constructor|].
  apply Ascii.eqb_neq in E2, E3, E4. by repeat constructor.
Qed.

Lemma escapeUnit_plain c :
  c <> "&"%char -> c <> "<"%char -> c <> ">"%char -> c <> JS.NBSP ->
  escapeUnit c = [c].
Proof.
  intros H1 H2 H3 H4. unfold escapeUnit.
  by rewrite (proj2 (Ascii.eqb_neq _ _) H1), (proj2 (Ascii.eqb_neq _ _) H2),
    (proj2 (Ascii.eqb_neq _ _) H3), (proj2 (Ascii.eqb_neq _ _) H4).
Qed.

(** X2.  The text [escapeHtml] returns never holds ["<"], [">"] or a
    no-break space, so it cannot open or close a tag; two different texts
    never escape to the same text; and a text without ["&"], ["<"], [">"]
    and no-break space is returned as it is. *)
Theorem escapeHtml_safe :
  (forall text,
     Forall (fun c => c <> "<"%char /\ c <> ">"%char /\ c <> JS.NBSP) (escapeHtml text))
  /\ (forall a b, escapeHtml a = escapeHtml b -> a = b)
  /\ (forall text,
        Forall (fun c => c <> "&"%char /\ c <> "<"%char /\ c <> ">"%char /\ c <> JS.NBSP)
          text ->
        escapeHtml text = text).
Proof.
  split; [|split].
  - intros text. unfold escapeHtml. induction text as [|c text IH]; [constructor|].
    cbn [flat_map]. apply Forall_app. split; [apply escapeUnit_safe|done].
  - intros a b Hab.
    pose proof (read_escaped [] [] false None a []) as Ha.
    pose proof (read_escaped [] [] false None b []) as Hb.
    rewrite Hab, Hb in Ha. cbn [Datatypes.app] in Ha. by injection Ha.
  - intros text. unfold escapeHtml. induction 1 as [|c text (H1 & H2 & H3 & H4) _ IH]; [done|].
    cbn [flat_map]. by rewrite escapeUnit_plain, IH.
Qed.

Lemma escapeHtml_safe_witness :
  "AT&T" = "AT&T" /\ escapeHtml "P/E 12.5" = "P/E 12.5".
Proof.
  destruct escapeHtml_safe as (_ & Hinj & Hplain). split.
  - apply (Hinj "AT&T" "AT&T"). reflexivity.
  - apply (Hplain "P/E 12.5"). repeat constructor; done.
Defined.

Lemma trimStart_head s :
  match JS.trimStart s with [] => True | c :: _ => JS.isWhiteSpace c = false end.
Proof.
  induction s as [|c s IH]; [done|]. cbn [JS.trimStart].
  by destruct (JS.isWhiteSpace c) eqn:E.
Qed.

Lemma trimStart_fixed s :
  match s with [] => True | c :: _ => JS.isWhiteSpace c = false end ->
  JS.trimStart s = s.
Proof. destruct s as [|c s]; [done|]. cbn. by intros ->. Qed.

Lemma trimStart_keeps_last s c :
  JS.isWhiteSpace c = false -> exists u, JS.trimStart (s ++ [c]) = u ++ [c].
Proof.
  intros Hc. induction s as [|x s [u IH]].
  - exists []. cbn. by rewrite Hc.
  - cbn [Datatypes.app JS.trimStart]. destruct (JS.isWhiteSpace x).
    + by exists u.
    + by exists (x :: s).
Qed.

Lemma trimStart_sub (P : ascii -> Prop) s : Forall P s -> Forall P (JS.trimStart s).
Proof.
  induction 1 as [|c s Hc Hs IH]; [done|]. cbn.
  destruct (JS.isWhiteSpace c); [done|by constructor].
Qed.

Lemma trim_sub (P : ascii -> Prop) s : Forall P s -> Forall P (JS.trim s).
Proof.
  intros H. unfold JS.trim, JS.trimEnd.
  apply Forall_rev, trimStart_sub, Forall_rev. by apply trimStart_sub.
Qed.

(** Trimming a trimmed text changes nothing. *)
Lemma trim_trim s : JS.trim (JS.trim s) = JS.trim s.
Proof.
  unfold JS.trim. pose proof (trimStart_head s) as Hh.
  set (t := JS.trimStart s) in *. clearbody t.
  assert (JS.trimStart (JS.trimEnd t) = JS.trimEnd t) as ->.
  { apply trimStart_fixed. destruct t as [|c t]; [done|].
    unfold JS.trimEnd. cbn [rev].
    destruct (trimStart_keeps_last (rev t) c Hh) as [u ->].
    rewrite rev_app_distr. cbn. done. }
  unfold JS.trimEnd. rewrite rev_involutive.
  f_equal. apply trimStart_fixed, trimStart_head.
Qed.

(** X3.  Every cell [parseTable] takes from a line is non-empty, holds no
    bar, and has no white space at either end (trimming it again changes
    nothing). *)
Theorem splitCells_cells (line cell : list ascii) :
  cell ∈ splitCells line ->
  cell <> [] /\ Forall (fun c => c <> "|"%char) cell /\ JS.trim cell = cell.
Proof.
  unfold splitCells. intros [Hne Hin]%list_elem_of_filter.
  apply list_elem_of_fmap in Hin as (piece & -> & Hpiece).
  split; [done|]. split; [|apply trim_trim].
  apply trim_sub. pose proof (split_pieces_free "|" line) as Hfree.
  rewrite Forall_forall in Hfree. by apply Hfree.
Qed.

Lemma splitCells_cells_witness :
  "P/E" <> [] /\ Forall (fun c => c <> "|"%char) "P/E" /\ JS.trim "P/E" = "P/E".
Proof.
  apply (splitCells_cells "|  P/E |  | 12 |" "P/E"). by vm_compute; repeat constructor.
Defined.

End Cells.

(** ** The table loop *)

Section TableLoop.
Import App.

Lemma takeWhile_all {A} (f : A -> bool) l : Forall (fun x => f x = true) (takeWhile f l).
Proof.
  induction l as [|x l IH]; [constructor|]. cbn.
  destruct (f x) eqn:E; [by constructor|constructor].
Qed.

Lemma takeWhile_prefix {A} (f : A -> bool) l :
  l = takeWhile f l ++ dropWhile f l.
Proof. induction l as [|x l IH]; [done|]. cbn. destruct (f x); cbn; congruence. Qed.

Lemma dropWhile_head {A} (f : A -> bool) l x :
  head (dropWhile f l) = Some x -> f x = false.
Proof.
  induction l as [|y l IH]; [done|]. cbn. destruct (f y) eqn:E; [done|].
  cbn. by intros [= <-].
Qed.

(** X4.  A call of [parseTable] on a header at line [i] always moves past
    the header and the line after it; the lines it takes after those are
    all row lines, and it stops at the end of the text or at the first line
    that is not a row line, which it leaves for the caller. *)
Theorem parseTable_consumes (rows_of_text : list (list ascii)) (i : nat)
    (header : list ascii) :
  rows_of_text !! i = Some header ->
  let next := nextIndex (parseTable rows_of_text i) in
  i + 2 <= next
  /\ next <= Nat.max (i + 2) (length rows_of_text)
  /\ (forall j, i + 2 <= j < next ->
        exists l, rows_of_text !! j = Some l /\ isRowLine l = true)
  /\ (forall l, rows_of_text !! next = Some l -> isRowLine l = false).
Proof.
  intros Hi next. subst next. rewrite (parseTable_spec _ _ _ Hi). cbn [nextIndex].
  set (rest := drop (i + 2) rows_of_text).
  pose proof (takeWhile_all isRowLine rest) as Hall.
  pose proof (takeWhile_prefix isRowLine rest) as Hsplit.
  set (body := takeWhile isRowLine rest) in *.
  assert (length body <= length rest) as Hlen.
  { pose proof (f_equal length Hsplit) as Hl. rewrite length_app in Hl. lia. }
  assert (length rest = length rows_of_text - (i + 2)) as Hrest
    by apply length_drop.
  split; [lia|]. split; [lia|]. split.
  - intros j Hj.
    destruct (lookup_lt_is_Some_2 body (j - (i + 2)) ltac:(lia)) as [l Hl].
    exists l. split.
    + assert (rest !! (j - (i + 2)) = Some l) as Hr.
      { rewrite Hsplit. by apply lookup_app_l_Some. }
      unfold rest in Hr. rewrite lookup_drop in Hr.
      by replace (i + 2 + (j - (i + 2))) with j in Hr by lia.
    + rewrite Forall_forall in Hall. apply Hall.
      by eapply list_elem_of_lookup_2.
  - intros l Hl. apply (dropWhile_head isRowLine rest).
    assert (rest !! length body = Some l) as Hr.
    { unfold rest. by rewrite lookup_drop. }
    rewrite Hsplit, lookup_app_r, Nat.sub_diag in Hr by lia.
    by destruct (dropWhile isRowLine rest).
Qed.

Lemma parseTable_consumes_witness :
  let text := ["| a |"; "|---|"; "| 1 |"; "| 2 |"; "total"] in
  nextIndex (parseTable text 0) = 4 /\ isRowLine "total" = false.
Proof.
  intros text.
  destruct (parseTable_consumes text 0 "| a |" eq_refl) as (_ & _ & _ & Hstop).
  split; [reflexivity|]. apply Hstop. reflexivity.
Defined.

End TableLoop.

(** ** Symbol lists, as the application uses them *)

Section ParsedLists.

Lemma upperUnit_upper c : isUpperLatin c -> JS.upperUnit c = [c].
Proof.
  unfold isUpperLatin, JS.upperUnit. intros Hc. cbv zeta.
  replace ((97 <=? JS.code c)%N) with false by (symmetry; apply N.leb_gt; lia).
  replace ((224 <=? JS.code c)%N) with false by (symmetry; apply N.leb_gt; lia).
  replace ((JS.code c =? 223)%N) with false by (symmetry; apply N.eqb_neq; lia).
  reflexivity.
Qed.

Lemma toUpperCase_upper s : Forall isUpperLatin s -> JS.toUpperCase s = s.
Proof.
  unfold JS.toUpperCase. induction 1 as [|c s Hc _ IH]; [done|].
  cbn [flat_map]. by rewrite upperUnit_upper, IH.
Qed.

Lemma upperUnit_twice c : JS.toUpperCase (JS.upperUnit c) = JS.upperUnit c.
Proof.
  destruct c as [[] [] [] [] [] [] [] []]; vm_compute; reflexivity.
Qed.

(** Upper-casing an upper-cased text changes nothing. *)
Lemma toUpperCase_twice s : JS.toUpperCase (JS.toUpperCase s) = JS.toUpperCase s.
Proof.
  unfold JS.toUpperCase. induction s as [|c s IH]; [done|].
  cbn [flat_map]. rewrite flat_map_app, IH. f_equal. apply upperUnit_twice.
Qed.

Lemma trimStart_plain s :
  Forall (fun c => JS.isWhiteSpace c = false) s -> JS.trimStart s = s.
Proof. destruct 1 as [|c s Hc _]; [done|]. cbn. by rewrite Hc. Qed.

Lemma trim_plain s : Forall (fun c => JS.isWhiteSpace c = false) s -> JS.trim s = s.
Proof.
  intros H. unfold JS.trim, JS.trimEnd. rewrite (trimStart_plain s H).
  rewrite trimStart_plain by by apply Forall_rev. apply rev_involutive.
Qed.

Lemma upper_not_space c : isUpperLatin c -> JS.isWhiteSpace c = false.
Proof.
  unfold isUpperLatin, JS.isWhiteSpace, JS.inRange. intros Hc.
  repeat match goal with
         | |- context [(?a <=? ?b)%N] => destruct (N.leb_spec a b)
         | |- context [(?a =? ?b)%N] => destruct (N.eqb_spec a b)
         end; cbn in *; try done; lia.
Qed.

(** X5.  The two clients give the same verdict on every upper-cased text,
    which is all the application ever hands to [isValidSymbol]; and a
    symbol the second client accepts is left as it is by the trimming and
    upper-casing both clients and the application apply, so the first
    client accepts it as well. *)
Theorem isValidSymbol_normalised :
  (forall s, JS.toUpperCase (JS.toUpperCase s) = JS.toUpperCase s)
  /\ (forall s, CommModule.isValidSymbol (JS.toUpperCase s)
                = ApiClient.isValidSymbol (JS.toUpperCase s))
  /\ (forall s, ApiClient.isValidSymbol s = true ->
                JS.trim s = s /\ JS.toUpperCase s = s
                /\ CommModule.isValidSymbol s = true).
Proof.
  split; [apply toUpperCase_twice|]. split.
  - intros s. unfold CommModule.isValidSymbol, ApiClient.isValidSymbol.
    by rewrite toUpperCase_twice.
  - intros s Hv. pose proof (proj1 (symbolPattern_test s) Hv) as [_ Hs].
    assert (JS.toUpperCase s = s) as Hup by by apply toUpperCase_upper.
    split; [|split; [done|]].
    + apply trim_plain. eapply Forall_impl; [done|]. apply upper_not_space.
    + unfold CommModule.isValidSymbol. by rewrite Hup.
Qed.

Lemma isValidSymbol_normalised_witness :
  JS.trim "MSFT" = "MSFT" /\ JS.toUpperCase "MSFT" = "MSFT"
  /\ CommModule.isValidSymbol "MSFT" = true.
Proof.
  destruct isValidSymbol_normalised as (_ & _ & H). apply (H "MSFT"). reflexivity.
Defined.

Lemma filter_none {A} (P : A -> Prop) `{!forall x, Decision (P x)} (l : list A) :
  Forall (fun x => ~ P x) l -> filter P l = [].
Proof.
  induction 1 as [|x l Hx _ IH]; [done|].
  rewrite filter_cons. by destruct (decide (P x)).
Qed.

(** X6.  In the first client a list that comes out of [parseSymbolList] is
    never turned down for an invalid symbol: [validateSymbolList] looks at
    its length only, since the pieces that fail the symbol check have
    already been dropped without a word. *)
Theorem parsed_list_validation (input : list ascii) :
  let symbols := CommModule.parseSymbolList input in
  Forall (fun s => CommModule.isValidSymbol s = true) symbols
  /\ CommModule.validateSymbolList symbols
     = if length symbols <? 2
       then {| valid := false; error := Some "Please enter at least 2 symbols" |}
       else if 5 <? length symbols
       then {| valid := false; error := Some "Maximum 5 symbols allowed" |}
       else {| valid := true; error := None |}.
Proof.
  intros symbols.
  assert (Forall (fun s => CommModule.isValidSymbol s = true) symbols) as Hall.
  { apply Forall_forall. intros s Hs. unfold symbols, CommModule.parseSymbolList in Hs.
    apply list_elem_of_filter in Hs as [Hs _].
    by apply andb_true_iff in Hs as [_ Hv]. }
  split; [done|]. unfold CommModule.validateSymbolList.
  destruct (length symbols <? 2); [done|]. destruct (5 <? length symbols); [done|].
  cbv zeta. rewrite filter_none; [done|].
  eapply Forall_impl; [exact Hall|]. cbn. intros s ->. done.
Qed.

End ParsedLists.

(** ** What a reload finds *)

Section Reload.
Import App.

Lemma addToRecentAnalyses_stored writable now q t a this :
  stored (addToRecentAnalyses writable now q t a this)
  = if writable then Some (take 10 (entry now q t a :: recentAnalyses this))
    else stored this.
Proof. unfold addToRecentAnalyses, saveRecentAnalyses. by destruct writable. Qed.

Lemma addAll_app calls calls' this :
  addAll (calls ++ calls') this = addAll calls' (addAll calls this).
Proof. unfold addAll. apply foldl_app. Qed.

Lemma addAll_failed calls this :
  Forall (fun call => call.1 = false) calls ->
  stored (addAll calls this) = stored this.
Proof.
  intros H. revert this. induction H as [|[w a] calls Hw _ IH]; intros this; [done|].
  cbn in Hw. subst w. rewrite addAll_cons, IH. apply addToRecentAnalyses_stored.
Qed.

(** X7.  What a reload of the page finds after a run of
    [addToRecentAnalyses] calls is the list as it was after the last call
    whose write succeeded: the entries added since, under writes that
    failed, are lost without notice.  If no write succeeded the reload
    finds what the store held before. *)
Theorem reload_after_failed_writes (before after : list (bool * analysis))
    (a : analysis) (this : app) :
  length (recentAnalyses this) <= 10 ->
  Forall (fun call => call.1 = false) after ->
  recentAnalyses (new (stored (addAll (before ++ (true, a) :: after) this)))
  = take 10 (a :: rev (map snd before) ++ recentAnalyses this)
  /\ recentAnalyses (new (stored (addAll after this)))
     = recentAnalyses (new (stored this)).
Proof.
  intros Hlen Hafter. split; [|by rewrite addAll_failed].
  change (before ++ (true, a) :: after) with (before ++ [(true, a)] ++ after).
  rewrite app_assoc, addAll_app, addAll_failed by done.
  rewrite addAll_app. unfold addAll at 1. cbn [foldl fst snd].
  rewrite addToRecentAnalyses_stored. unfold new, loadRecentAnalyses. cbn.
  rewrite addAll_list by done. unfold entry. rewrite analysis_eta.
  apply (take_app_take 10 [a]).
Qed.

Lemma reload_after_failed_writes_witness :
  let first := entry "2024-05-01T10:00:00.000Z" "AAPL" "stock" (Some "quick") in
  let second := entry "2024-05-01T10:05:00.000Z" "MSFT" "stock" (Some "quick") in
  recentAnalyses (new (stored (addAll [(true, first); (false, second)] emptyApp)))
  = [first].
Proof.
  intros first second.
  apply (reload_after_failed_writes [] [(false, second)] first emptyApp).
  - cbn. lia.
  - by repeat constructor.
Defined.

End Reload.

(** ** The age of an entry *)

Section Ages.
Import Host App.

Lemma div_ltb a b q : (0 < b)%Z -> (a / b <? q)%Z = (a <? b * q)%Z.
Proof.
  intros Hb. destruct (Z.ltb_spec a (b * q)) as [H|H].
  - apply Z.ltb_lt. by apply Z.div_lt_upper_bound.
  - apply Z.ltb_ge. by apply Z.div_le_lower_bound.
Qed.

(** X8.  [formatTime] tells the age of a timestamp by whole minutes below
    an hour, whole hours below a day and whole days below a week, each
    rounded down; an age below one minute, a timestamp in the future
    included, reads ["Just now"], and an age of a week or more, or a
    timestamp that does not parse, gives the date in the locale's form. *)
Theorem formatTime_buckets (current date : Z) (localeDate : list ascii) :
  let age := (current - date)%Z in
  formatTime current (Some date) localeDate
  = (if (age <? 60000)%Z then "Just now"
     else if (age <? 3600000)%Z then numberToString (age / 60000) ++ "m ago"
     else if (age <? 86400000)%Z then numberToString (age / 3600000) ++ "h ago"
     else if (age <? 604800000)%Z then numberToString (age / 86400000) ++ "d ago"
     else localeDate)
  /\ formatTime current None localeDate = localeDate.
Proof.
  intros age. split; [|done]. unfold formatTime. fold age. cbv zeta.
  rewrite !Z.div_div by lia. rewrite !div_ltb by lia.
  reflexivity.
Qed.

End Ages.

(** ** Requests, as the two clients make them *)

Section Wrappers.
Import Host.

Lemma interpretResponse_name r e :
  interpretResponse r = inr e -> name e <> "AbortError".
Proof.
  unfold interpretResponse, json_.
  destruct (negb (ok r)).
  - destruct (getProperty "error" _) as [e'|field] eqn:E.
    + intros [= <-]. destruct (content r) as [[]|]; cbn in E; try done.
      by injection E as <-.
    + by intros [= <-].
  - destruct (content r); [done|]. by intros [= <-].
Qed.

Lemma makeRequest_same net endpoint options :
  signal options = None ->
  CommModule.makeRequest net endpoint options
  = ApiClient.makeRequest ApiClient.new net endpoint options.
Proof.
  intros Hs. unfold CommModule.makeRequest, ApiClient.makeRequest, fetch.
  cbn [timeout method headers payload signal ApiClient.baseURL ApiClient.new
       ApiClient.timeout default].
  rewrite Hs.
  change CommModule.baseURL with "http://127.0.0.1:5000/api".
  destruct (net _) as [ms [r|why]|]; [| |done].
  - destruct (interpretResponse r) as [v|e] eqn:E; [done|].
    apply interpretResponse_name in E.
    by rewrite bool_decide_eq_false_2.
  - by rewrite bool_decide_eq_false_2.
Qed.

Lemma post_signal value : signal (post value) = None.
Proof. reflexivity. Qed.

Lemma wrappers_normalise (net : network) :
  (forall symbol analysisType,
     CommModule.analyzeStock net symbol analysisType
     = ApiClient.analyzeStock ApiClient.new net (JS.toUpperCase symbol) analysisType)
  /\ (forall symbols,
        CommModule.compareStocks net symbols
        = ApiClient.compareStocks ApiClient.new net
            (filter (fun s => s <> []) (map normalise symbols)))
  /\ (forall topic,
        CommModule.marketResearch net topic
        = ApiClient.marketResearch ApiClient.new net (JS.trim topic))
  /\ (forall query,
        CommModule.customQuery net query
        = ApiClient.customQuery ApiClient.new net (JS.trim query)).
Proof.
  repeat split; intros;
    unfold CommModule.analyzeStock, ApiClient.analyzeStock,
      CommModule.compareStocks, ApiClient.compareStocks,
      CommModule.marketResearch, ApiClient.marketResearch,
      CommModule.customQuery, ApiClient.customQuery;
    by rewrite makeRequest_same.
Qed.

(** X9.  What the first client sends is what the second sends for the
    same arguments once they are put in form: the symbol upper-cased, the
    symbols of a comparison trimmed, upper-cased and the empty ones left
    out, the topic and the question trimmed.  The second client sends its
    arguments as they are. *)
Theorem first_client_normalises (net : network) :
  (forall symbol analysisType,
     CommModule.analyzeStock net symbol analysisType
     = ApiClient.analyzeStock ApiClient.new net (JS.toUpperCase symbol) analysisType)
  /\ (forall symbols,
        CommModule.compareStocks net symbols
        = ApiClient.compareStocks ApiClient.new net
            (filter (fun s => s <> []) (map normalise symbols)))
  /\ (forall topic,
        CommModule.marketResearch net topic
        = ApiClient.marketResearch ApiClient.new net (JS.trim topic))
  /\ (forall query,
        CommModule.customQuery net query
        = ApiClient.customQuery ApiClient.new net (JS.trim query)).
Proof. apply wrappers_normalise. Qed.

(** The request the network sees for an endpoint and options. *)
Lemma makeRequest_fetch net endpoint options :
  signal options = None ->
  CommModule.makeRequest net endpoint options
  = match net {| req_url := CommModule.baseURL ++ endpoint;
                 req_method := default "GET" (method options);
                 req_headers :=
                   default [("Content-Type", "application/json")] (headers options);
                 req_payload := payload options |} with
    | After t (Answer r) =>
        match interpretResponse r with
        | inl v => Settled t (inl v)
        | inr e => Settled t (inr e)
        end
    | After t (Failure why) => Settled t (inr {| name := "TypeError"; message := why |})
    | Silent => Pending
    end.
Proof.
  intros Hs. unfold CommModule.makeRequest, fetch.
  cbn [timeout method headers payload signal default]. rewrite Hs.
  by destruct (net _) as [ms [r|why]|].
Qed.

Lemma interpretResponse_value r v :
  interpretResponse r = inl v <-> ok r = true /\ content r = Parsed v.
Proof.
  unfold interpretResponse, json_. destruct (ok r); cbn [negb].
  - destruct (content r); split; (by intros [= ->] || by intros [_ [= ->]] || done).
  - split; [|by intros [? _]]. by destruct (getProperty _ _).
Qed.

(** X10.  Without an abort signal, [makeRequest] resolves, in either
    client, exactly when the network answers the request with a status
    from 200 to 299 and a body that parses; it then resolves with the
    parsed body, at the time of the answer.  So a 2xx reply whose body does
    not parse, an empty one included, is a rejection. *)
Theorem makeRequest_resolves (net : network) (endpoint : list ascii) (options : init)
    (t : N) (v : json) :
  signal options = None ->
  let request :=
    {| req_url := "http://127.0.0.1:5000/api" ++ endpoint;
       req_method := default "GET" (method options);
       req_headers := default [("Content-Type", "application/json")] (headers options);
       req_payload := payload options |} in
  (CommModule.makeRequest net endpoint options = Settled t (inl v)
   <-> exists r, net request = After t (Answer r) /\ ok r = true /\ content r = Parsed v)
  /\ (ApiClient.makeRequest ApiClient.new net endpoint options = Settled t (inl v)
      <-> exists r, net request = After t (Answer r) /\ ok r = true
                    /\ content r = Parsed v).
Proof.
  intros Hs request. rewrite <- makeRequest_same by done.
  assert (CommModule.makeRequest net endpoint options = Settled t (inl v)
          <-> exists r, net request = After t (Answer r) /\ ok r = true
                        /\ content r = Parsed v) as H; [|done].
  rewrite makeRequest_fetch by done.
  change (CommModule.baseURL ++ endpoint) with ("http://127.0.0.1:5000/api" ++ endpoint).
  fold request. destruct (net request) as [ms [r|why]|].
  - destruct (interpretResponse r) as [v'|e] eqn:E.
    + apply interpretResponse_value in E as [Hok Hc]. split.
      * intros [= -> ->]. by exists r.
      * intros (r' & [= -> ->] & _ & Hc'). rewrite Hc in Hc'. by injection Hc' as ->.
    + split; [done|]. intros (r' & [= -> ->] & Hok & Hc).
      assert (interpretResponse r' = inl v) as E' by by apply interpretResponse_value.
      congruence.
  - split; [done|]. by intros (r & ? & _).
  - split; [done|]. by intros (r & ? & _).
Qed.

Lemma makeRequest_resolves_witness :
  let reply := {| status := 200; statusText := "OK";
                  content := Parsed (JObj [("result", JStr "report")]) |} in
  CommModule.makeRequest (fun _ => After 40 (Answer reply)) "/system/info" noOptions
  = Settled 40 (inl (JObj [("result", JStr "report")])).
Proof.
  intros reply.
  apply (makeRequest_resolves (fun _ => After 40 (Answer reply)) "/system/info"
           noOptions 40 (JObj [("result", JStr "report")]) eq_refl).
  exists reply. repeat split.
Defined.

End Wrappers.

(** ** The four handlers *)

Section Handlers.
Import App.


Local Ltac message_given := eexists; split; [|reflexivity]; done.

Lemma firstInvalid_cases symbols :
  (Forall (fun s => ApiClient.isValidSymbol s = true) symbols
   /\ ApiClient.firstInvalid symbols = {| valid := true; error := None |})
  \/ (exists s, s ∈ symbols /\ ApiClient.isValidSymbol s = false
      /\ ApiClient.firstInvalid symbols
         = {| valid := false;
              error := Some ("Invalid symbol format: " ++ s ++ " (1-5 letters only)") |}).
Proof.
  induction symbols as [|s symbols [[Hall IH]|(x & Hin & Hx & IH)]].
  - left. by split.
  - cbn. destruct (ApiClient.isValidSymbol s) eqn:Hs; cbn.
    + left. split; [by constructor|done].
    + right. exists s. split; [by left|done].
  - cbn. destruct (ApiClient.isValidSymbol s) eqn:Hs; cbn.
    + right. exists x. split; [by right|done].
    + right. exists s. split; [by left|done].
Qed.

Lemma second_verdict symbols :
  (2 <= length symbols <= 5 /\ Forall UpperSymbol symbols
   /\ ApiClient.validateSymbolList symbols = {| valid := true; error := None |})
  \/ (~ (2 <= length symbols <= 5 /\ Forall UpperSymbol symbols)
      /\ exists m, m <> []
         /\ ApiClient.validateSymbolList symbols = {| valid := false; error := Some m |}).
Proof.
  unfold ApiClient.validateSymbolList.
  destruct (Nat.ltb_spec (length symbols) 2) as [H2|H2].
  { right. split; [intros H; lia|]. message_given. }
  destruct (Nat.ltb_spec 5 (length symbols)) as [H5|H5].
  { right. split; [intros H; lia|]. message_given. }
  destruct (firstInvalid_cases symbols) as [[Hall ->]|(s & Hin & Hs & ->)].
  - left. split; [lia|]. split; [|done].
    eapply Forall_impl; [exact Hall|]. intros s. apply symbolPattern_test.
  - right. split; [|message_given].
    intros [_ Hall]. rewrite Forall_forall in Hall.
    apply Hall, symbolPattern_test in Hin.
    unfold ApiClient.isValidSymbol in Hs. congruence.
Qed.


Lemma first_verdict symbols :
  Forall UpperSymbol symbols ->
  (2 <= length symbols <= 5
   /\ CommModule.validateSymbolList symbols = {| valid := true; error := None |})
  \/ (~ 2 <= length symbols <= 5
      /\ exists m, m <> []
         /\ CommModule.validateSymbolList symbols = {| valid := false; error := Some m |}).
Proof.
  intros Hall. unfold CommModule.validateSymbolList.
  destruct (Nat.ltb_spec (length symbols) 2) as [H2|H2].
  { right. split; [intros H; lia|]. message_given. }
  destruct (Nat.ltb_spec 5 (length symbols)) as [H5|H5].
  { right. split; [intros H; lia|]. message_given. }
  left. split; [lia|]. cbv zeta. rewrite filter_none; [done|].
  eapply Forall_impl; [exact Hall|]. cbn. intros s Hs.
  unfold CommModule.isValidSymbol. rewrite toUpperCase_upper by apply Hs.
  apply symbolPattern_test in Hs. by rewrite Hs.
Qed.




Local Ltac in_list := repeat first [apply list_elem_of_here | apply list_elem_of_further].
Local Ltac among H :=
  repeat (apply elem_of_cons in H as [H|H]; [try done|]); try by apply elem_of_nil in H.

Lemma attempt_orderly w title message request resultsTitle query type analysisType this :
  orderly w this
    (attempt w title message request resultsTitle query type analysisType this).
Proof.
  unfold orderly, attempt.
  destruct request as [t [result|e]|];
    [destruct (showResults w result resultsTitle) eqn:Hshow|..];
    cbn [effects state finished Datatypes.app].
  - split; [done|]. split; [by left|]. split; [|done].
    intros t' m' _. right. left. in_list.
  - split; [intros m H; among H|]. split; [|split; [|done]].
    + right. by exists query, type, analysisType, result, resultsTitle.
    + intros t' m' _. right. left. in_list.
  - split; [done|]. split; [by left|]. split; [|done].
    intros t' m' _. right. right. in_list.
  - split; [intros m H; among H|]. split; [by left|]. split; [by left|].
    intros _. by do 2 eexists.
Qed.

Lemma refuse_orderly w m this : orderly w this (refuse m this).
Proof.
  unfold orderly, refuse. cbn. split; [done|]. split; [by left|]. split; [|done].
  intros t' m' H. among H.
Qed.

(** X12.  Whatever the client, the network and the page do, a handler
    that shows an error leaves the list of recent analyses and the store
    untouched and returns; it records an analysis only after the results
    were shown without an error, and then as the last thing it does; and
    the progress box, once shown, is completed or hidden, unless the
    request never settles, in which case the handler shows nothing more. *)
Theorem handlers_orderly (w : world) (value : list ascii)
    (depth : option (list ascii)) (this : app) :
  orderly w this (handleStockAnalysis w value depth this)
  /\ orderly w this (handleStockComparison w value this)
  /\ orderly w this (handleMarketResearch w value this)
  /\ orderly w this (handleCustomQuery w value this).
Proof.
  unfold handleStockAnalysis, handleStockComparison, handleMarketResearch,
    handleCustomQuery.
  split; [|split; [|split]];
    repeat match goal with
           | |- orderly _ _ (if ?b then _ else _) => destruct b
           | |- orderly _ _ (match ?d with Some _ => _ | None => _ end) => destruct d
           | |- orderly _ _ (let x := _ in _) => cbv zeta
           end;
    try apply attempt_orderly; try apply refuse_orderly.
  unfold orderly. cbn. split; [intros m H; among H|]. split; [by left|]. split; [|done].
  intros t m H. among H.
Qed.




Lemma attempt_client n sr wr nw title message request resultsTitle query type
    analysisType this :
  attempt {| api := Client.first; net := n; showResults := sr; writable := wr; now := nw |}
    title message request resultsTitle query type analysisType this
  = attempt {| api := Client.second; net := n; showResults := sr; writable := wr;
               now := nw |}
      title message request resultsTitle query type analysisType this.
Proof. reflexivity. Qed.

Lemma filter_narrow {A} (P Q : A -> Prop) `{!forall x, Decision (P x)}
    `{!forall x, Decision (Q x)} (l : list A) :
  (forall x, P x -> Q x) -> Forall P (filter Q l) -> filter P l = filter Q l.
Proof.
  intros HPQ. induction l as [|x l IH]; [done|].
  rewrite !filter_cons. destruct (decide (Q x)) as [Hq|Hq].
  - intros [Hp Hall]%Forall_cons. rewrite decide_True by done. by rewrite IH.
  - intros Hall. rewrite decide_False by (intros Hp; by apply Hq, HPQ). by apply IH.
Qed.

Lemma upper_first_valid s : UpperSymbol s -> CommModule.isValidSymbol s = true.
Proof.
  intros Hs. unfold CommModule.isValidSymbol. rewrite toUpperCase_upper by apply Hs.
  by apply symbolPattern_test.
Qed.

Lemma upper_normalised s : UpperSymbol s -> s <> [] /\ normalise s = s.
Proof.
  intros [Hl Hs]. split; [by destruct s; cbn in Hl; [lia|]|].
  unfold normalise. rewrite trim_plain; [by apply toUpperCase_upper|].
  eapply Forall_impl; [exact Hs|]. apply upper_not_space.
Qed.

Lemma second_parsed_valid text :
  valid (ApiClient.validateSymbolList (ApiClient.parseSymbolList text)) = true ->
  CommModule.parseSymbolList text = ApiClient.parseSymbolList text
  /\ Forall UpperSymbol (ApiClient.parseSymbolList text)
  /\ 2 <= length (ApiClient.parseSymbolList text) <= 5.
Proof.
  intros Hv.
  destruct (second_verdict (ApiClient.parseSymbolList text))
    as [(Hl & Hall & _)|(_ & m & _ & Hm)]; [|by rewrite Hm in Hv].
  split; [|done].
  unfold CommModule.parseSymbolList, ApiClient.parseSymbolList in *.
  apply filter_narrow.
  - intros s [Hs _]%andb_true_iff. destruct s; [done|cbn; lia].
  - eapply Forall_impl; [exact Hall|]. cbn. intros s Hs.
    apply andb_true_iff. split; [|by apply upper_first_valid].
    apply upper_normalised in Hs as [Hs _]. by rewrite bool_decide_eq_false_2.
Qed.

Lemma clean_parsed symbols :
  Forall UpperSymbol symbols ->
  filter (fun s => s <> []) (map normalise symbols) = symbols.
Proof.
  induction 1 as [|s l Hs _ IH]; [done|].
  apply upper_normalised in Hs as [Hne Hn].
  cbn [map]. rewrite filter_cons, Hn, decide_True by done. by rewrite IH.
Qed.

(** X14.  The application behaves the same with either client when it
    analyses a stock, researches a topic or answers a question: for every
    input, network and page the two runs are equal.  For a comparison the
    two runs are equal whenever the second client accepts the list, that
    is, when it holds two to five symbols and every piece is one. *)
Theorem clients_interchangeable (n : Host.network)
    (sr : Host.json -> list ascii -> option Host.error) (wr : bool) (nw : list ascii)
    (value : list ascii) (depth : option (list ascii)) (this : app) :
  let w1 := {| api := Client.first; net := n; showResults := sr; writable := wr;
               now := nw |} in
  let w2 := {| api := Client.second; net := n; showResults := sr; writable := wr;
               now := nw |} in
  handleStockAnalysis w1 value depth this = handleStockAnalysis w2 value depth this
  /\ handleMarketResearch w1 value this = handleMarketResearch w2 value this
  /\ handleCustomQuery w1 value this = handleCustomQuery w2 value this
  /\ (valid (ApiClient.validateSymbolList (ApiClient.parseSymbolList (JS.trim value)))
      = true ->
      handleStockComparison w1 value this = handleStockComparison w2 value this).
Proof.
  intros w1 w2. subst w1 w2.
  destruct (wrappers_normalise n) as (Hs & Hc & Hr & Hq).
  split; [|split; [|split]].
  - unfold handleStockAnalysis. cbn [api net Client.isValidSymbol Client.first
      Client.second Client.analyzeStock].
    unfold CommModule.isValidSymbol, ApiClient.isValidSymbol.
    destruct depth as [analysisType|]; rewrite ?Hs, !toUpperCase_twice; reflexivity.
  - unfold handleMarketResearch. cbn [api net Client.marketResearch Client.first
      Client.second]. rewrite Hr, trim_trim. reflexivity.
  - unfold handleCustomQuery. cbn [api net Client.customQuery Client.first
      Client.second]. rewrite Hq, trim_trim. reflexivity.
  - intros Hv. unfold handleStockComparison.
    cbn [api net Client.parseSymbolList Client.validateSymbolList Client.compareStocks
         Client.first Client.second].
    destruct (second_parsed_valid _ Hv) as (-> & Hall & Hl).
    rewrite Hv.
    destruct (first_verdict _ Hall) as [[_ ->]|[H _]]; [|lia].
    rewrite Hc, clean_parsed by done. reflexivity.
Qed.

Lemma clients_interchangeable_witness :
  let answer := fun _ : Host.request =>
    Host.After 900 (Host.Answer
      {| Host.status := 200; Host.statusText := "OK";
         Host.content := Host.Parsed (Host.JObj [("comparison_report", Host.JStr "...")]) |}) in
  let w a := {| api := a; net := answer; showResults := fun _ _ => None;
                writable := true; now := "2024-05-01T10:00:00.000Z" |} in
  handleStockComparison (w Client.first) "aapl, msft" emptyApp
  = handleStockComparison (w Client.second) "aapl, msft" emptyApp.
Proof.
  intros answer w.
  apply (clients_interchangeable answer (fun _ _ => None) true
           "2024-05-01T10:00:00.000Z" "aapl, msft" None emptyApp).
  reflexivity.
Defined.

End Handlers.

(** ** Symbols in a path *)

Section Encoding.
Import Host.

Lemma flat_map_code {A B} (f : A -> list B) (head : list B -> option A) :
  head [] = None ->
  (forall a x, head (f a ++ x) = Some a) ->
  forall l l', flat_map f l = flat_map f l' -> l = l'.
Proof.
  intros Hnil Hhead.
  assert (forall a x, f a ++ x <> []) as Hne.
  { intros a x E. pose proof (Hhead a x) as H. rewrite E in H. congruence. }
  induction l as [|a l IH]; intros [|b l'] H; cbn in H.
  - done.
  - symmetry in H. by apply Hne in H.
  - by apply Hne in H.
  - assert (a = b) as <-.
    { pose proof (Hhead a (flat_map f l)) as Ha. rewrite H, Hhead in Ha. congruence. }
    f_equal. apply IH. by apply app_inv_head in H.
Qed.

Lemma decodeHead_encodeUnit c x : decodeHead (encodeUnit c ++ x) = Some c.
Proof. destruct c as [[] [] [] [] [] [] [] []]; reflexivity. Qed.

Lemma encodeUnit_alphabet c :
  forallb (fun u => isUnreserved u || Ascii.eqb u "%") (encodeUnit c) = true.
Proof. destruct c as [[] [] [] [] [] [] [] []]; reflexivity. Qed.

Lemma upper_unreserved c : isUpperLatin c -> isUnreserved c = true.
Proof.
  unfold isUpperLatin, isUnreserved, JS.inRange. intros Hc.
  change (JS.code "A") with 65%N. change (JS.code "Z") with 90%N.
  by rewrite (proj2 (N.leb_le _ _) (proj1 Hc)), (proj2 (N.leb_le _ _) (proj2 Hc)).
Qed.

(** X15.  [encodeURIComponent] gives a text made of unreserved units
    and ["%"] only, so that no ["/"], ["?"] or ["#"] of a symbol reaches the
    path the second client asks for; different texts are encoded
    differently; a text of unreserved units is left as it is, so for a
    symbol that passes the symbol check the second client asks for
    [/validate/symbol/] followed by the symbol itself. *)
Theorem encodeURIComponent_segment :
  (forall s, Forall (fun u => isUnreserved u = true \/ u = "%"%char)
               (encodeURIComponent s))
  /\ (forall a b, encodeURIComponent a = encodeURIComponent b -> a = b)
  /\ (forall s, Forall (fun u => isUnreserved u = true) s -> encodeURIComponent s = s)
  /\ (forall net s,
        ApiClient.isValidSymbol s = true ->
        ApiClient.validateSymbol ApiClient.new net s
        = ApiClient.makeRequest ApiClient.new net ("/validate/symbol/" ++ s) noOptions).
Proof.
  assert (forall s, Forall (fun u => isUnreserved u = true) s -> encodeURIComponent s = s)
    as Hplain.
  { unfold encodeURIComponent. induction 1 as [|c s Hc _ IH]; [done|].
    cbn [flat_map]. unfold encodeUnit at 1. by rewrite Hc, IH. }
  split; [|split; [|split; [done|]]].
  - intros s. unfold encodeURIComponent. induction s as [|c s IH]; [constructor|].
    cbn [flat_map]. apply Forall_app. split; [|done].
    pose proof (encodeUnit_alphabet c) as Hc. rewrite forallb_forall in Hc.
    apply Forall_forall. intros u Hu. apply list_elem_of_In, Hc in Hu.
    apply orb_true_iff in Hu as [Hu|Hu]; [by left|right]. by apply Ascii.eqb_eq.
  - apply (flat_map_code encodeUnit decodeHead); [done|apply decodeHead_encodeUnit].
  - intros net s Hs. unfold ApiClient.validateSymbol. rewrite Hplain; [done|].
    apply symbolPattern_test in Hs as [_ Hs].
    eapply Forall_impl; [exact Hs|]. apply upper_unreserved.
Qed.

Lemma encodeURIComponent_segment_witness :
  encodeURIComponent "BRK.B" = "BRK.B"
  /\ ApiClient.validateSymbol ApiClient.new (fun _ => Silent) "MSFT"
     = ApiClient.makeRequest ApiClient.new (fun _ => Silent) "/validate/symbol/MSFT"
         noOptions.
Proof.
  destruct encodeURIComponent_segment as (_ & _ & Hplain & Hvalid). split.
  - apply (Hplain "BRK.B"). by repeat constructor.
  - apply (Hvalid (fun _ => Silent) "MSFT"). reflexivity.
Defined.

End Encoding.

(** ** What a failed request looks like *)

Section Failures.
Import App.






End Failures.

(** ** The symbol field *)

Section SymbolField.
Import App.

Lemma validateSymbol_paths n s :
  UpperSymbol s ->
  CommModule.makeRequest n ("/validate/symbol/" ++ JS.toUpperCase s) Host.noOptions
  = ApiClient.validateSymbol ApiClient.new n s.
Proof.
  intros [_ Hs]. unfold ApiClient.validateSymbol.
  rewrite toUpperCase_upper by done.
  assert (Host.encodeURIComponent s = s) as ->.
  { unfold Host.encodeURIComponent. induction Hs as [|c s Hc _ IH]; [done|].
    cbn [flat_map]. unfold Host.encodeUnit at 1.
    by rewrite (upper_unreserved c Hc), IH. }
  by apply makeRequest_same.
Qed.

(** X17.  For a symbol that passes the symbol check the two clients ask
    the network the same thing, and when the request resolves the
    validation line reads the same with both.  When it is rejected the
    first client turns the rejection into a verdict, and the line reads
    the cross mark and ["Validation failed"]; the second client lets the
    rejection through, and the line reads the warning sign and ["Unable to
    validate"].  While it is not settled both wait. *)
Theorem validation_line_by_client (n : Host.network) (s : list ascii) :
  UpperSymbol s ->
  match ApiClient.validateSymbol ApiClient.new n s with
  | Host.Settled t (inl result) =>
      CommModule.validateSymbol n s = Host.Settled t (inl result)
  | Host.Settled t (inr e) =>
      CommModule.validateSymbol n s = Host.Settled t (inl CommModule.validationFailed)
      /\ verdictLine s (inl CommModule.validationFailed)
         = {| startsWithMark := Some CrossMark; textContent := " Validation failed";
              className := "symbol-validation invalid" |}
      /\ verdictLine s (inr e)
         = {| startsWithMark := Some WarningSign; textContent := " Unable to validate";
              className := "symbol-validation invalid" |}
  | Host.Pending => CommModule.validateSymbol n s = Host.Pending
  end.
Proof.
  intros Hs. unfold CommModule.validateSymbol. rewrite validateSymbol_paths by done.
  by destruct (ApiClient.validateSymbol ApiClient.new n s) as [t [v|e]|].
Qed.

Lemma validation_line_by_client_witness :
  CommModule.validateSymbol (fun _ => Host.After 3 (Host.Failure "Failed to fetch")) "MSFT"
  = Host.Settled 3 (inl CommModule.validationFailed)
  /\ verdictLine "MSFT" (inl CommModule.validationFailed)
     = {| startsWithMark := Some CrossMark; textContent := " Validation failed";
          className := "symbol-validation invalid" |}
  /\ verdictLine "MSFT" (inr {| Host.name := "TypeError"; Host.message := "Failed to fetch" |})
     = {| startsWithMark := Some WarningSign; textContent := " Unable to validate";
          className := "symbol-validation invalid" |}.
Proof.
  apply (validation_line_by_client
           (fun _ => Host.After 3 (Host.Failure "Failed to fetch")) "MSFT").
  apply symbolPattern_test. reflexivity.
Defined.

Lemma fieldStep_checked a n e field field' :
  checkedField a field -> fieldStep a n e field = Some field' -> checkedField a field'.
Proof.
  intros [Ht Hu] Hstep. destruct e as [value| |which]; cbn in Hstep.
  - case_bool_decide.
    { injection Hstep as <-. split; [done|exact Hu]. }
    destruct (Client.isValidSymbol a _) eqn:Hv; cbn in Hstep; injection Hstep as <-.
    + split; [|exact Hu]. cbn. by intros s [= <-].
    + split; [done|exact Hu].
  - destruct (validationTimeout field) as [s|] eqn:E; [|done].
    injection Hstep as <-. split; [done|]. cbn. apply Forall_app. split; [done|].
    destruct (Client.validateSymbol a n s) as [t settled|]; [|constructor].
    repeat constructor. cbn. by apply Ht.
  - destruct (underWay field !! which) as [[s settled]|] eqn:E; [|done].
    injection Hstep as <-. split; [done|]. cbn. by apply Forall_delete.
Qed.

Lemma fieldStep_count a n e field field' :
  fieldStep a n e field = Some field' ->
  (if isFiring e then 1 else 0) + timersArmed field'
  <= (if arming a e then 1 else 0) + timersArmed field.
Proof.
  unfold timersArmed.
  intros Hstep. destruct e as [value| |which]; cbn in Hstep |- *.
  - unfold wellFormed. case_bool_decide.
    { injection Hstep as <-. cbn. lia. }
    destruct (Client.isValidSymbol a _) eqn:Hv; cbn in Hstep; injection Hstep as <-;
      cbn; destruct (validationTimeout field); lia.
  - destruct (validationTimeout field) as [s|] eqn:E; [|done].
    injection Hstep as <-. cbn. lia.
  - destruct (underWay field !! which) as [[s settled]|] eqn:E; [|done].
    injection Hstep as <-. cbn. lia.
Qed.

Lemma fieldStep_under a n e field field' :
  fieldStep a n e field = Some field' ->
  length (underWay field') <= length (underWay field) + (if isFiring e then 1 else 0).
Proof.
  intros Hstep. destruct e as [value| |which]; cbn in Hstep |- *.
  - case_bool_decide; [injection Hstep as <-; cbn; lia|].
    destruct (negb _); injection Hstep as <-; cbn; lia.
  - destruct (validationTimeout field); [|done]. injection Hstep as <-. cbn.
    rewrite length_app. destruct (Client.validateSymbol _ _ _); cbn; lia.
  - destruct (underWay field !! which) as [[s settled]|] eqn:E; [|done].
    injection Hstep as <-. cbn. rewrite length_delete by by eexists. lia.
Qed.

Lemma fieldStep_input a n value field :
  exists field',
    fieldStep a n (Input value) field = Some field'
    /\ validationTimeout field'
       = if wellFormed a (normalise value) then Some (normalise value) else None.
Proof.
  cbn. unfold wellFormed, normalise. case_bool_decide; [by eexists|].
  destruct (Client.isValidSymbol a _); by eexists.
Qed.

Lemma fieldRun_app a n events events' field :
  fieldRun a n (events ++ events') field
  = match fieldRun a n events field with
    | Some mid => fieldRun a n events' mid
    | None => None
    end.
Proof.
  revert field. induction events as [|e events IH]; intros field; [done|].
  cbn. by destruct (fieldStep a n e field).
Qed.

(** X18.  However the events at the symbol field follow one another, a
    request goes out only when the timer fires, the timer fires at most
    once for each input that armed it, and the symbol it validates passed
    the symbol check: from a field with no timer armed and nothing under
    way, the timer has fired at most as many times as there were inputs
    with a well-formed symbol, there are at most as many requests under
    way as the timer fired, and each of them is for a symbol that the
    client's [isValidSymbol] accepts.  An input always clears the timer
    armed before it, and arms one exactly when its own symbol is well
    formed. *)
Theorem validation_debounced (a : Client.api) (n : Host.network)
    (events : list fieldEvent) (field field' : symbolField) :
  validationTimeout field = None -> underWay field = [] ->
  fieldRun a n events field = Some field' ->
  length (filter (fun e => isFiring e = true) events)
  + timersArmed field'
  <= length (filter (fun e => arming a e = true) events)
  /\ length (underWay field') <= length (filter (fun e => isFiring e = true) events)
  /\ checkedField a field'
  /\ (forall value before,
        events = before ++ [Input value] ->
        validationTimeout field'
        = if wellFormed a (normalise value) then Some (normalise value) else None).
Proof.
  intros Ht Hu Hrun.
  assert (checkedField a field) as Hc by (split; [by rewrite Ht|by rewrite Hu]).
  assert (length (underWay field) <= 0) as Hlen by (rewrite Hu; cbn; lia).
  assert (0 + timersArmed field <= 0) as Harm by (unfold timersArmed; by rewrite Ht).
  split; [|split; [|split]]; cycle 3.
  { intros value before ->. rewrite fieldRun_app in Hrun.
    destruct (fieldRun a n before field) as [mid|]; [|done].
    destruct (fieldStep_input a n value mid) as (last & Hstep & Hlast).
    cbn [fieldRun] in Hrun. rewrite Hstep in Hrun. by injection Hrun as <-. }
  all: clear Ht Hu; revert Hrun Hc Hlen Harm.
  all: enough (forall armed fired,
    fieldRun a n events field = Some field' -> checkedField a field ->
    length (underWay field) <= fired ->
    fired + timersArmed field <= armed ->
    (length (filter (fun e => isFiring e = true) events) + fired
     + timersArmed field'
     <= length (filter (fun e => arming a e = true) events) + armed
     /\ length (underWay field')
        <= length (filter (fun e => isFiring e = true) events) + fired)
    /\ checkedField a field') as H;
    [intros Hrun Hc Hlen Harm;
     destruct (H 0 0 Hrun Hc Hlen Harm) as ((H1 & H2) & H3); (done || lia)| ].
  all: clear; revert field; induction events as [|e events IH];
    intros field armed fired Hrun Hc Hlen Harm.
  all: try (injection Hrun as <-; cbn; repeat split; try apply Hc; lia).
  all: cbn [fieldRun] in Hrun;
    destruct (fieldStep a n e field) as [mid|] eqn:Hstep; [|done];
    pose proof (fieldStep_checked _ _ _ _ _ Hc Hstep) as Hc';
    pose proof (fieldStep_count _ _ _ _ _ Hstep) as Hcount;
    pose proof (fieldStep_under _ _ _ _ _ Hstep) as Hunder;
    destruct (IH mid (armed + if arming a e then 1 else 0)
                (fired + if isFiring e then 1 else 0) Hrun Hc')
      as ((H1 & H2) & H3); [lia|lia|];
    rewrite !filter_cons;
    (split; [|done]);
    destruct (decide (isFiring e = true)) as [Hf | Hf%not_true_is_false];
    destruct (decide (arming a e = true)) as [Ha | Ha%not_true_is_false];
    rewrite ?Hf, ?Ha in *; cbn [length]; lia.
Qed.

Lemma validation_debounced_witness :
  let field := {| validationDiv := cleared; validationTimeout := None; underWay := [] |} in
  let events := [Input "a"; Input "aa"; Input "aap"; Input "aapl"; TimerFires] in
  let field' := {| validationDiv := validating; validationTimeout := None;
                   underWay := [] |} in
  length (filter (fun e => isFiring e = true) events)
  + timersArmed field'
  <= length (filter (fun e => arming Client.second e = true) events)
  /\ length (underWay field') <= length (filter (fun e => isFiring e = true) events)
  /\ checkedField Client.second field'
  /\ (forall value before,
        events = before ++ [Input value] ->
        validationTimeout field'
        = if wellFormed Client.second (normalise value) then Some (normalise value)
          else None).
Proof.
  intros field events field'.
  apply (validation_debounced Client.second (fun _ => Host.Silent) events field field');
    reflexivity.
Defined.

End SymbolField.

(** ** The file a download gives *)

Section Download.
Import App.






End Download.

(** ** Prose, end to end *)

Section FixedPatterns.
Import Regex.

Lemma prevAfter_app p a b : prevAfter (prevAfter p a) b = prevAfter p (a ++ b).
Proof.
  unfold prevAfter. destruct b as [|c b] using rev_ind.
  - by rewrite app_nil_r.
  - rewrite app_assoc, !last_snoc. done.
Qed.

Lemma fitsAt_length r s : fixed r = true -> fitsAt r s = true -> widthOf r <= length s.
Proof.
  revert s. induction r; intros s Hf Hs; cbn in *; try done; try lia.
  - destruct s; [done|cbn; lia].
  - destruct s; [done|cbn; lia].
  - apply andb_true_iff in Hf as [Hf1 Hf2]. apply andb_true_iff in Hs as [Hs1 Hs2].
    pose proof (IHr1 _ Hf1 Hs1). pose proof (IHr2 _ Hf2 Hs2) as H2.
    rewrite length_drop in H2. lia.
  - by apply IHr.
Qed.

(** A pattern of fixed width matches at a position exactly when the text
    there fits it, and then moves on by its width. *)
Lemma exec_fixed fl r st k :
  fixed r = true ->
  exec fl r st k
  = if fitsAt r (rest st)
    then k {| prev := prevAfter (prev st) (take (widthOf r) (rest st));
              rest := drop (widthOf r) (rest st);
              cap := captured r (rest st) (cap st) |}
    else None.
Proof.
  revert st k. induction r; intros st k Hf; cbn in Hf; try done.
  - cbn. by destruct st.
  - cbn. unfold one. destruct st as [p0 [|x s] cp0]; cbn; [done|].
    by rewrite take_0.
  - cbn. unfold one. destruct st as [p0 [|x s] cp0]; cbn; [done|].
    by rewrite take_0.
  - apply andb_true_iff in Hf as [Hf1 Hf2]. cbn [exec fitsAt widthOf captured].
    rewrite IHr1 by done. destruct (fitsAt r1 (rest st)) eqn:E1; [|done].
    rewrite IHr2 by done. cbn [rest prev cap andb].
    destruct (fitsAt r2 (drop (widthOf r1) (rest st))); [|done].
    by rewrite prevAfter_app, take_take_drop, drop_drop.
  - cbn [exec fitsAt widthOf captured]. rewrite IHr by done.
    destruct (fitsAt r (rest st)) eqn:E; [|done]. cbn [rest prev].
    do 3 f_equal. pose proof (fitsAt_length _ _ Hf E) as Hlen.
    rewrite length_drop. f_equal. lia.
Qed.

Lemma matchAt_fixed fl r p s :
  fixed r = true ->
  matchAt fl r p s
  = if fitsAt r s
    then Some {| prev := prevAfter p (take (widthOf r) s);
                 rest := drop (widthOf r) s;
                 cap := captured r s None |}
    else None.
Proof. intros Hf. unfold matchAt. by rewrite exec_fixed. Qed.

Section Replacing.
Context (fl : flags) (r : regex) (tpl : list piece).
Hypothesis r_fixed : fixed r = true.
Hypothesis r_wide : 0 < widthOf r.

Lemma replaceAll_miss p c s :
  fitsAt r (c :: s) = false ->
  replaceAll fl r tpl 0 p (c :: s) = c :: replaceAll fl r tpl 0 (Some c) s.
Proof.
  intros H. apply replaceAll_nomatch. by rewrite matchAt_fixed, H.
Qed.

Lemma replaceAll_hit p m s :
  length m = widthOf r -> fitsAt r (m ++ s) = true ->
  replaceAll fl r tpl 0 p (m ++ s)
  = expand tpl (captured r (m ++ s) None) ++ replaceAll fl r tpl 0 (prevAfter p m) s.
Proof.
  intros Hm Hfit.
  pose proof (replaceAll_match fl r tpl p m
                {| prev := prevAfter p m; rest := s; cap := captured r (m ++ s) None |})
    as H.
  cbn [rest cap] in H. apply H.
  - destruct m; [cbn in Hm; lia|done].
  - rewrite matchAt_fixed, Hfit by done.
    by rewrite <- Hm, take_app_length, drop_app_length.
Qed.

Lemma replaceAll_fixed_prev s n p p' :
  replaceAll fl r tpl n p s = replaceAll fl r tpl n p' s.
Proof.
  apply replaceAll_prev. intros q q' t. rewrite !matchAt_fixed by done.
  destruct (fitsAt r t) eqn:E; [|done].
  pose proof (fitsAt_length _ _ r_fixed E) as Hlen.
  destruct (take (widthOf r) t) as [|c u] eqn:Et.
  - apply (f_equal length) in Et. rewrite length_take in Et. cbn in Et. lia.
  - by rewrite !prevAfter_cons.
Qed.

End Replacing.

End FixedPatterns.

Section TagRules.
Import Regex.

Lemma fitsAt_nil r : fixed r = true -> 0 < widthOf r -> fitsAt r [] = false.
Proof.
  intros Hf Hw. destruct (fitsAt r []) eqn:E; [|done].
  apply fitsAt_length in E; [cbn in E; lia|done].
Qed.

Lemma rewriteTokens_chars hit x toks :
  rewriteTokens hit (map Ch x ++ toks) = x ++ rewriteTokens hit toks.
Proof. induction x as [|c x IH]; [done|]. cbn. by rewrite IH. Qed.

Lemma rewriteTokens_tag hit t next rest :
  rewriteTokens hit (Tg t :: next :: rest)
  = match hit t (Some next) with
    | Some out => out ++ rewriteTokens hit rest
    | None => tagText t ++ rewriteTokens hit (next :: rest)
    end.
Proof. reflexivity. Qed.

Lemma rewriteTokens_none toks : rewriteTokens (fun _ _ => None) toks = textOf toks.
Proof.
  induction toks as [|[c|t] toks IH]; [done|by cbn; rewrite IH|].
  destruct toks as [|next rest]; [by cbn; rewrite app_nil_r|].
  rewrite rewriteTokens_tag, IH. reflexivity.
Qed.

Section OneRule.
Context (fl : flags) (r : regex) (tpl : list piece)
        (hit : htmlTag -> option token -> option (list ascii)).
Hypothesis r_fixed : fixed r = true.
Hypothesis r_wide : 0 < widthOf r.
Hypothesis at_unit : forall c s, c <> "<"%char -> fitsAt r (c :: s) = false.
Hypothesis at_last : forall t, hit t None = None /\ fitsAt r (tagText t) = false.
Hypothesis at_pair : forall t tok s,
  okToken tok ->
  match hit t (Some tok) with
  | Some out =>
      fitsAt r (tagText t ++ tokenText tok ++ s) = true
      /\ widthOf r = length (tagText t ++ tokenText tok)
      /\ expand tpl (captured r (tagText t ++ tokenText tok ++ s) None) = out
  | None => fitsAt r (tagText t ++ tokenText tok ++ s) = false
  end.

Lemma copy_tag p t s :
  fitsAt r (tagText t ++ s) = false ->
  exists p', replaceAll fl r tpl 0 p (tagText t ++ s)
             = tagText t ++ replaceAll fl r tpl 0 p' s.
Proof.
  intros H. eexists.
  destruct t as [| |[]|[]]; cbn [tagText digit Datatypes.app] in *;
    rewrite (replaceAll_miss fl r tpl r_fixed p _ _ H);
    repeat (rewrite replaceAll_miss by (done || by apply at_unit));
    reflexivity.
Qed.

(** A rule whose pattern has a fixed width and starts with ["<"] works tag
    by tag. *)
Lemma replaceAll_tokens toks p :
  Forall okToken toks ->
  replaceAll fl r tpl 0 p (textOf toks) = rewriteTokens hit toks.
Proof.
  remember (length toks) as n eqn:Hn. revert toks p Hn.
  induction n as [n IH] using lt_wf_ind. intros toks p Hn Hok.
  destruct toks as [|[c|t] toks].
  - cbn. apply replaceAll_end. by rewrite matchAt_fixed, fitsAt_nil.
  - apply Forall_cons in Hok as [Hc Hok]. cbn [textOf flat_map tokenText Datatypes.app].
    rewrite replaceAll_miss by (done || by apply at_unit).
    cbn [rewriteTokens]. f_equal. apply (IH (length toks)); [cbn in Hn; lia|done|done].
  - apply Forall_cons in Hok as [_ Hok]. destruct toks as [|tok rest].
    + cbn [textOf flat_map tokenText rewriteTokens]. destruct (at_last t) as [-> Hfit].
      rewrite app_nil_r in *. rewrite <- (app_nil_r (tagText t)) at 1.
      destruct (copy_tag p t []) as [p' ->]; [by rewrite app_nil_r|].
      rewrite replaceAll_end; [by rewrite app_nil_r|].
      by rewrite matchAt_fixed, fitsAt_nil.
    + apply Forall_cons in Hok as [Htok Hok].
      pose proof (at_pair t tok (textOf rest) Htok) as Hpair.
      rewrite rewriteTokens_tag.
      change (textOf (Tg t :: tok :: rest))
        with (tagText t ++ tokenText tok ++ textOf rest) in *.
      destruct (hit t (Some tok)) as [out|].
      * destruct Hpair as (Hfit & Hw & Hout).
        rewrite app_assoc in Hfit, Hout |- *.
        rewrite replaceAll_hit by done. rewrite Hout. f_equal.
        apply (IH (length rest)); [cbn in Hn; lia|done|done].
      * destruct (copy_tag p t _ Hpair) as [p' ->]. f_equal.
        change (tokenText tok ++ textOf rest) with (textOf (tok :: rest)).
        apply (IH (length (tok :: rest))); [cbn in Hn |- *; lia|done|by constructor].
Qed.

End OneRule.

(** The rules that work on the tags, and what they do to a tag and the
    token after it. *)
Lemma eqb_other c : c <> "<"%char -> Ascii.eqb "<" c = false.
Proof. intros H. apply Ascii.eqb_neq. congruence. Qed.

Local Ltac rule_cases :=
  let Hc := fresh "Hc" in
  intros t tok s Hc;
  destruct tok as [c|t2]; [apply eqb_other in Hc|];
  [destruct t as [| |[]|[]]|destruct t as [| |[]|[]], t2 as [| |[]|[]]];
  cbn -[Ascii.eqb]; rewrite ?Hc; try done.

Local Ltac tag_rule hit :=
  intros Hok; unfold App.sub, replace; cbn [global flags_g fst snd];
  apply (replaceAll_tokens flags_g _ _ hit);
  [reflexivity
  |cbn; lia
  |intros c s Hc; cbn -[Ascii.eqb]; by rewrite eqb_other
  |by intros [| |[]|[]]
  |rule_cases
  |exact Hok].

Lemma emptyParagraph_tokens toks :
  Forall okToken toks ->
  App.sub flags_g App.emptyParagraph (textOf toks) = rewriteTokens hit_empty toks.
Proof. tag_rule hit_empty. Qed.

Lemma unwrapHeadingOpen_tokens toks :
  Forall okToken toks ->
  App.sub flags_g App.unwrapHeadingOpen (textOf toks) = rewriteTokens hit_open toks.
Proof. tag_rule hit_open. Qed.

Lemma unwrapHeadingClose_tokens toks :
  Forall okToken toks ->
  App.sub flags_g App.unwrapHeadingClose (textOf toks) = rewriteTokens hit_close toks.
Proof. tag_rule hit_close. Qed.

Lemma other_rules_tokens toks :
  Forall okToken toks ->
  App.sub flags_g App.unwrapListOpen (textOf toks) = textOf toks
  /\ App.sub flags_g App.unwrapListClose (textOf toks) = textOf toks
  /\ App.sub flags_g App.unwrapTableOpen (textOf toks) = textOf toks
  /\ App.sub flags_g App.unwrapTableClose (textOf toks) = textOf toks.
Proof.
  intros Hok.
  repeat split; (etrans; [|apply rewriteTokens_none]); revert Hok;
    tag_rule (fun (_ : htmlTag) (_ : option token) => @None (list ascii)).
Qed.

End TagRules.

Section ProseRules.
Import Regex.

(** *** The paragraph rules on lines *)

Lemma noLT_not_LF c : JS.isLineTerminator c = false -> Ascii.eqb JS.LF c = false.
Proof.
  intros Hc. apply Ascii.eqb_neq. intros <-. by vm_compute in Hc.
Qed.

Lemma fitsAt_break c s :
  fitsAt App.paragraphBreak.1 (c :: s)
  = Ascii.eqb JS.LF c && match s with [] => false | d :: _ => Ascii.eqb JS.LF d end.
Proof. destruct s; cbn -[Ascii.eqb]; by rewrite ?andb_true_r. Qed.

Lemma break_inside p x tail :
  noLT x ->
  match tail with
  | [] => True
  | c :: tail' => match tail' with [] => True | d :: _ => JS.isLineTerminator d = false end
  end ->
  exists p',
    replaceAll flags_g App.paragraphBreak.1 App.paragraphBreak.2 0 p (x ++ tail)
    = x ++ match tail with
           | [] => []
           | c :: tail' =>
               c :: replaceAll flags_g App.paragraphBreak.1 App.paragraphBreak.2 0 p' tail'
           end.
Proof.
  intros Hx Htail. revert p. induction Hx as [|c x Hc _ IH]; intros p.
  - cbn [Datatypes.app]. destruct tail as [|c tail'].
    + exists None. by apply replaceAll_end.
    + exists (Some c). apply replaceAll_miss; [done|].
      rewrite fitsAt_break. destruct tail' as [|d tail'']; [by rewrite andb_false_r|].
      by rewrite (noLT_not_LF d Htail), andb_false_r.
  - destruct (IH (Some c)) as [p' IHp]. exists p'. cbn [Datatypes.app].
    rewrite replaceAll_miss; [by rewrite IHp|done|].
    rewrite fitsAt_break. by rewrite (noLT_not_LF c Hc).
Qed.

(** A text without an empty line has no paragraph break. *)
Lemma break_lines ls p :
  Forall (fun l => l <> [] /\ noLT l) ls ->
  replaceAll flags_g App.paragraphBreak.1 App.paragraphBreak.2 0 p (lines ls) = lines ls.
Proof.
  intros Hls. revert p. induction Hls as [|l ls [Hne Hl] Hls IH]; intros p.
  - by apply replaceAll_end.
  - destruct ls as [|l2 ls].
    + cbn [lines JS.join]. rewrite <- (app_nil_r l) at 1.
      destruct (break_inside p l [] Hl I) as [p' ->]. by rewrite app_nil_r.
    + rewrite lines_cons. cbn [Datatypes.app].
      apply Forall_cons in Hls as [[Hne2 Hl2] _].
      destruct (break_inside p l (JS.LF :: lines (l2 :: ls)) Hl) as [p' ->].
      * destruct ls as [|l3 ls]; cbn [lines JS.join].
        -- destruct l2 as [|d l2]; [done|]. by apply Forall_cons in Hl2 as [? _].
        -- destruct l2 as [|d l2]; [done|]. by apply Forall_cons in Hl2 as [? _].
      * by rewrite IH.
Qed.

Lemma paragraph_inside c s :
  JS.isLineTerminator c = false ->
  matchAt flags_gm App.paragraph.1 (Some c) s = None.
Proof.
  intros Hc. unfold matchAt. cbn [App.paragraph fst Seq foldr exec].
  cbn [atLineStart start prev flags_gm multiline]. by rewrite Hc.
Qed.

Lemma prevAfter_last p x c : prevAfter p (x ++ [c]) = Some c.
Proof. unfold prevAfter. by rewrite last_snoc. Qed.

Lemma paragraph_match p x tail :
  lineStart p -> noLT x ->
  match tail with [] => True | c :: _ => JS.isLineTerminator c = true end ->
  matchAt flags_gm App.paragraph.1 p (x ++ tail)
  = Some {| prev := prevAfter p x; rest := tail; cap := Some x |}.
Proof.
  intros Hp Hx Htail. unfold matchAt. cbn [App.paragraph fst Seq foldr].
  cbn [exec]. rewrite atLineStart_lineStart by done.
  rewrite exec_Star_Any. cbn [start rest prev cap].
  apply greedy_to_end.
  - eapply Forall_impl; [exact Hx|]. cbn. by intros c ->.
  - destruct tail as [|c tail]; [done|]. cbn. by rewrite Htail.
  - cbn [rest prev].
    assert (atLineEnd flags_gm
              {| prev := prevAfter p x; rest := tail;
                 cap := Some (take (length (x ++ tail) - length tail) (x ++ tail)) |}
            = true) as ->.
    { unfold atLineEnd. cbn [rest]. destruct tail as [|c tail]; [done|].
      cbn. by rewrite Htail. }
    by rewrite take_front.
Qed.

Lemma paragraph_line p l tail :
  lineStart p -> l <> [] -> noLT l ->
  match tail with [] => True | c :: _ => JS.isLineTerminator c = true end ->
  exists c,
    JS.isLineTerminator c = false
    /\ replaceAll flags_gm App.paragraph.1 App.paragraph.2 0 p (l ++ tail)
       = "<p>" ++ l ++ "</p>"
         ++ replaceAll flags_gm App.paragraph.1 App.paragraph.2 0 (Some c) tail.
Proof.
  intros Hp Hne Hl Htail.
  destruct l as [|c l] using rev_ind; [done|]. clear IHl.
  exists c. apply Forall_app in Hl as Hl'. destruct Hl' as [_ Hc].
  apply Forall_cons in Hc as [Hc _]. split; [done|].
  pose proof (replaceAll_match flags_gm App.paragraph.1 App.paragraph.2 p (l ++ [c])
                {| prev := prevAfter p (l ++ [c]); rest := tail; cap := Some (l ++ [c]) |})
    as Hrep.
  cbn [rest cap] in Hrep. rewrite Hrep.
  - rewrite prevAfter_last. cbn [App.paragraph snd expand flat_map default].
    unfold id. by rewrite app_nil_r, <- !app_assoc.
  - by destruct l.
  - by apply paragraph_match.
Qed.

(** On a text without an empty line the paragraph rule wraps each line. *)
Lemma paragraph_lines ls p :
  lineStart p -> Forall (fun l => l <> [] /\ noLT l) ls -> ls <> [] ->
  replaceAll flags_gm App.paragraph.1 App.paragraph.2 0 p (lines ls)
  = lines (map (fun l => "<p>" ++ l ++ "</p>") ls).
Proof.
  intros Hp Hls. revert p Hp. induction Hls as [|l ls [Hne Hl] Hls IH]; intros p Hp Hnil.
  - done.
  - destruct ls as [|l2 ls].
    + cbn [lines JS.join map]. rewrite <- (app_nil_r l) at 1.
      destruct (paragraph_line p l [] Hp Hne Hl I) as (c & Hc & ->).
      rewrite replaceAll_end by by apply paragraph_inside.
      by rewrite !app_nil_r.
    + rewrite lines_cons. cbn [map]. rewrite lines_cons.
      destruct (paragraph_line p l ([JS.LF] ++ lines (l2 :: ls)) Hp Hne Hl)
        as (c & Hc & ->); [done|].
      rewrite <- !app_assoc. do 3 f_equal. cbn [Datatypes.app].
      rewrite replaceAll_nomatch by by apply paragraph_inside.
      f_equal. by apply IH.
Qed.

End ProseRules.

Section Prose.
Import Regex.

(** *** Lines and tokens *)

Lemma textOf_app a b : textOf (a ++ b) = textOf a ++ textOf b.
Proof. apply flat_map_app. Qed.

Lemma textOf_chars x : textOf (map Ch x) = x.
Proof.
  induction x as [|c x IH]; [done|].
  change (textOf (map Ch (c :: x))) with (c :: textOf (map Ch x)). by rewrite IH.
Qed.

Lemma textOf_joinLines tl : textOf (joinLines tl) = lines (map textOf tl).
Proof.
  induction tl as [|l tl IH]; [done|]. destruct tl as [|l2 tl]; [done|].
  change (joinLines (l :: l2 :: tl)) with (l ++ Ch JS.LF :: joinLines (l2 :: tl)).
  rewrite textOf_app. change (textOf (Ch JS.LF :: ?t)) with (JS.LF :: textOf t).
  rewrite IH. reflexivity.
Qed.

Lemma okToken_joinLines tl :
  Forall (Forall okToken) tl -> Forall okToken (joinLines tl).
Proof.
  induction 1 as [|l tl Hl Htl IH]; [constructor|]. destruct tl as [|l2 tl]; [done|].
  change (joinLines (l :: l2 :: tl)) with (l ++ Ch JS.LF :: joinLines (l2 :: tl)).
  apply Forall_app. split; [done|]. by constructor.
Qed.

Lemma prose_chars x : Forall proseUnit x -> Forall okToken (map Ch x).
Proof.
  induction 1 as [|c x (_ & _ & Hc) _ IH]; [constructor|]. by constructor.
Qed.

Lemma prose_inner b : prose b -> Forall okToken (inner b).
Proof.
  destruct b as [x|n x]; cbn.
  - intros (_ & Hx & _). by apply prose_chars.
  - intros Hx. constructor; [done|]. apply Forall_app. split; [by apply prose_chars|].
    by repeat constructor.
Qed.

Lemma rewrite_lines hit (f g : block -> list token) ls :
  (forall b tail, prose b -> lineEnd tail ->
     rewriteTokens hit (f b ++ tail) = textOf (g b) ++ rewriteTokens hit tail) ->
  Forall prose ls ->
  rewriteTokens hit (joinLines (map f ls)) = textOf (joinLines (map g ls)).
Proof.
  intros Hline. induction 1 as [|b ls Hb Hls IH]; [done|].
  destruct ls as [|b2 ls].
  - cbn [map joinLines]. rewrite <- (app_nil_r (f b)), Hline; [|done|by left].
    cbn. by rewrite app_nil_r.
  - change (joinLines (map f (b :: b2 :: ls)))
      with (f b ++ Ch JS.LF :: joinLines (map f (b2 :: ls))).
    change (joinLines (map g (b :: b2 :: ls)))
      with (g b ++ Ch JS.LF :: joinLines (map g (b2 :: ls))).
    rewrite Hline; [|done|right; by eexists].
    rewrite textOf_app. f_equal. cbn [rewriteTokens]. rewrite IH. reflexivity.
Qed.

Local Ltac walk :=
  repeat first
    [ rewrite rewriteTokens_chars
    | rewrite rewriteTokens_tag
    | rewrite textOf_chars
    | rewrite textOf_app
    | rewrite <- app_assoc
    | progress cbn [hit_empty hit_open hit_close Datatypes.app map textOf flat_map
                    tokenText rewriteTokens] ].

Local Ltac line_rule :=
  intros b tail Hb Ht;
  destruct b as [x|n x];
  [destruct Hb as (Hne & _); destruct x as [|c x]; [done|]
  |destruct x as [|c x]];
  destruct Ht as [-> | [more ->]];
  unfold openedLine, closedLine; unfold wrappedLine, inner;
  walk; rewrite ?app_nil_r; try reflexivity.

Lemma empty_line b tail :
  prose b -> lineEnd tail ->
  rewriteTokens hit_empty (wrappedLine b ++ tail)
  = textOf (wrappedLine b) ++ rewriteTokens hit_empty tail.
Proof. revert b tail. line_rule. Qed.

Lemma open_line b tail :
  prose b -> lineEnd tail ->
  rewriteTokens hit_open (wrappedLine b ++ tail)
  = textOf (openedLine b) ++ rewriteTokens hit_open tail.
Proof. revert b tail. line_rule. Qed.

Lemma close_line b tail :
  prose b -> lineEnd tail ->
  rewriteTokens hit_close (openedLine b ++ tail)
  = textOf (closedLine b) ++ rewriteTokens hit_close tail.
Proof. revert b tail. line_rule. Qed.

End Prose.

Section ProseText.
Import Regex.

(** *** The first rules on prose *)

Lemma split_plain l : Forall (fun c => c <> JS.LF) l -> JS.split JS.LF l = [l].
Proof.
  induction 1 as [|c l Hc _ IH]; [done|]. cbn [JS.split].
  rewrite (proj2 (Ascii.eqb_neq _ _) Hc). by rewrite IH.
Qed.

Lemma split_line l t :
  Forall (fun c => c <> JS.LF) l ->
  JS.split JS.LF (l ++ JS.LF :: t) = l :: JS.split JS.LF t.
Proof.
  induction 1 as [|c l Hc _ IH]; cbn [Datatypes.app JS.split].
  - by rewrite eqb_refl.
  - rewrite (proj2 (Ascii.eqb_neq _ _) Hc). by rewrite IH.
Qed.

Lemma noLT_no_LF l : noLT l -> Forall (fun c => c <> JS.LF) l.
Proof.
  intros H. eapply Forall_impl; [exact H|]. cbn. intros c Hc ->. by vm_compute in Hc.
Qed.

Lemma split_lines ls : ls <> [] -> Forall noLT ls -> JS.split JS.LF (lines ls) = ls.
Proof.
  intros Hne Hls. induction Hls as [|l ls Hl Hls IH]; [done|].
  destruct ls as [|l2 ls].
  - by apply split_plain, noLT_no_LF.
  - rewrite lines_cons. cbn [Datatypes.app].
    rewrite split_line by by apply noLT_no_LF. by rewrite IH.
Qed.

Lemma trim_first c s :
  JS.isWhiteSpace c = false -> exists u, JS.trim (c :: s) = c :: u.
Proof.
  intros Hc. unfold JS.trim. cbn [JS.trimStart]. rewrite Hc.
  unfold JS.trimEnd. cbn [rev].
  destruct (trimStart_keeps_last (rev s) c Hc) as [u ->].
  exists (rev u). by rewrite rev_app_distr.
Qed.

Lemma heading_not_row n x : isRowLine (source (Heading n x)) = false.
Proof.
  unfold isRowLine.
  assert (exists s, source (Heading n x) = "#"%char :: s) as [s ->]
    by (destruct n; by eexists).
  destruct (trim_first "#" s eq_refl) as [u ->]. reflexivity.
Qed.

Lemma prose_not_row b : prose b -> isRowLine (source b) = false.
Proof. destruct b as [x|n x]; [by intros (_ & _ & H & _)|intros _; apply heading_not_row]. Qed.

Lemma proseUnit_noLT x : Forall proseUnit x -> noLT x.
Proof. intros H. eapply Forall_impl; [exact H|]. by intros c (? & _). Qed.

Lemma noLT_app a b : noLT a -> noLT b -> noLT (a ++ b).
Proof. intros. by apply Forall_app. Qed.

Lemma prose_noLT b : prose b -> noLT (source b) /\ noLT (textOf (inner b)).
Proof.
  destruct b as [x|n x]; cbn [prose source inner].
  - intros (_ & Hx%proseUnit_noLT & _). by rewrite textOf_chars.
  - intros Hx%proseUnit_noLT. split.
    + apply noLT_app; [destruct n; by repeat constructor|].
      apply noLT_app; [by repeat constructor|done].
    + change (textOf (Tg (TagH n) :: map Ch x ++ [Tg (TagEndH n)]))
        with (tagText (TagH n) ++ textOf (map Ch x ++ [Tg (TagEndH n)])).
      rewrite textOf_app, textOf_chars.
      apply noLT_app; [destruct n; by repeat constructor|].
      apply noLT_app; [done|destruct n; by repeat constructor].
Qed.

(** The four heading rules, one after the other, on one line. *)
Lemma heading_rules_line b :
  prose b ->
  let l1 := lineRule "# " "<h1>" "</h1>" (source b) in
  let l2 := lineRule "## " "<h2>" "</h2>" l1 in
  let l3 := lineRule "### " "<h3>" "</h3>" l2 in
  let l4 := lineRule "#### " "<h4>" "</h4>" l3 in
  (l1 = source b \/ l1 = textOf (inner b))
  /\ (l2 = source b \/ l2 = textOf (inner b))
  /\ (l3 = source b \/ l3 = textOf (inner b))
  /\ l4 = textOf (inner b)
  /\ lineRule "- " "<li>" "</li>" (textOf (inner b)) = textOf (inner b).
Proof.
  destruct b as [x|n x].
  - intros (_ & _ & _ & Hm). unfold markers in Hm.
    apply Forall_cons in Hm as [H1 Hm]. apply Forall_cons in Hm as [H2 Hm].
    apply Forall_cons in Hm as [H3 Hm]. apply Forall_cons in Hm as [H4 Hm].
    apply Forall_cons in Hm as [H5 _].
    cbn [source inner]. rewrite textOf_chars. unfold lineRule.
    rewrite H1, H2, H3, H4, H5. repeat split; by left.
  - intros _.
    change (textOf (inner (Heading n x)))
      with (tagText (TagH n) ++ textOf (map Ch x ++ [Tg (TagEndH n)])).
    rewrite textOf_app, textOf_chars.
    destruct n; cbn; repeat split; (by left) || (by right) || done.
Qed.

Lemma heading_rules ls :
  Forall prose ls ->
  let t1 := map (lineRule "# " "<h1>" "</h1>") (map source ls) in
  let t2 := map (lineRule "## " "<h2>" "</h2>") t1 in
  let t3 := map (lineRule "### " "<h3>" "</h3>") t2 in
  let t4 := map (lineRule "#### " "<h4>" "</h4>") t3 in
  Forall noLT (map source ls) /\ Forall noLT t1 /\ Forall noLT t2 /\ Forall noLT t3
  /\ t4 = map (fun b => textOf (inner b)) ls
  /\ map (lineRule "- " "<li>" "</li>") (map (fun b => textOf (inner b)) ls)
     = map (fun b => textOf (inner b)) ls.
Proof.
  induction 1 as [|b ls Hb Hls IH]; [by repeat split|].
  destruct IH as (I0 & I1 & I2 & I3 & I4 & I5).
  destruct (heading_rules_line b Hb) as (H1 & H2 & H3 & H4 & H5).
  destruct (prose_noLT b Hb) as [Hs Hi].
  cbn [map]. repeat split.
  - by constructor.
  - constructor; [by destruct H1 as [-> | ->]|done].
  - constructor; [by destruct H2 as [-> | ->]|done].
  - constructor; [by destruct H3 as [-> | ->]|done].
  - by rewrite H4, I4.
  - by rewrite H5, I5.
Qed.

Lemma line_rules ls :
  Forall noLT ls ->
  App.sub flags_gm App.h1 (lines ls) = lines (map (lineRule "# " "<h1>" "</h1>") ls)
  /\ App.sub flags_gm App.h2 (lines ls) = lines (map (lineRule "## " "<h2>" "</h2>") ls)
  /\ App.sub flags_gm App.h3 (lines ls) = lines (map (lineRule "### " "<h3>" "</h3>") ls)
  /\ App.sub flags_gm App.h4 (lines ls) = lines (map (lineRule "#### " "<h4>" "</h4>") ls)
  /\ App.sub flags_gm App.listItem (lines ls)
     = lines (map (lineRule "- " "<li>" "</li>") ls).
Proof.
  intros Hls. repeat split.
  - apply (line_rule_spec "# " "<h1>" "</h1>"); [done|repeat constructor|done].
  - apply (line_rule_spec "## " "<h2>" "</h2>"); [done|repeat constructor|done].
  - apply (line_rule_spec "### " "<h3>" "</h3>"); [done|repeat constructor|done].
  - apply (line_rule_spec "#### " "<h4>" "</h4>"); [done|repeat constructor|done].
  - apply (line_rule_spec "- " "<li>" "</li>"); [done|repeat constructor|done].
Qed.

(** A text without an asterisk has no emphasis. *)
Lemma emphasis_absent t :
  Forall (fun c => c <> "*"%char) t ->
  App.sub flags_g App.bold t = t /\ App.sub flags_g App.italic t = t.
Proof.
  intros Ht. unfold App.sub, replace. cbn [global flags_g fst snd]. split.
  - rewrite <- (app_nil_r t) at 1.
    etrans; [exact (emphasis_copy "**" "*"%char "*" "<strong>" "</strong>" eq_refl
                      t [] None Ht)|].
    rewrite replaceAll_end; [by rewrite app_nil_r|].
    by apply (emphasis_nomatch "**").
  - rewrite <- (app_nil_r t) at 1.
    etrans; [exact (emphasis_copy "*" "*"%char "" "<em>" "</em>" eq_refl t [] None Ht)|].
    rewrite replaceAll_end; [by rewrite app_nil_r|].
    by apply (emphasis_nomatch "*").
Qed.

Lemma Forall_lines (P : ascii -> Prop) ls :
  P JS.LF -> Forall (Forall P) ls -> Forall P (lines ls).
Proof.
  intros HP. induction 1 as [|l ls Hl Hls IH]; [constructor|].
  destruct ls as [|l2 ls]; [done|]. rewrite lines_cons.
  apply Forall_app. split; [done|]. by constructor.
Qed.

Lemma inner_plain b :
  prose b -> Forall (fun c => c <> "*"%char) (textOf (inner b)) /\ textOf (inner b) <> [].
Proof.
  destruct b as [x|n x]; cbn [prose inner].
  - intros (Hne & Hx & _). rewrite textOf_chars. split; [|done].
    eapply Forall_impl; [exact Hx|]. by intros c (_ & ? & _).
  - intros Hx.
    change (textOf (Tg (TagH n) :: map Ch x ++ [Tg (TagEndH n)]))
      with (tagText (TagH n) ++ textOf (map Ch x ++ [Tg (TagEndH n)])).
    rewrite textOf_app, textOf_chars. split; [|by destruct n].
    apply Forall_app. split; [destruct n; by repeat constructor|].
    apply Forall_app. split; [|destruct n; by repeat constructor].
    eapply Forall_impl; [exact Hx|]. by intros c (_ & ? & _).
Qed.

(** No tag of the rendering is a list tag. *)
Lemma tagText_shape t :
  exists c a, tagText t = "<"%char :: c :: a /\ c <> "l"%char
              /\ Forall (fun u => u <> "<"%char) (c :: a).
Proof.
  destruct t as [| |[]|[]]; do 2 eexists; (split; [reflexivity|]);
    (split; [done|by repeat constructor]).
Qed.

Lemma includes_unfold p c s :
  JS.includes p (c :: s) = JS.startsWith p (c :: s) || JS.includes p s.
Proof. reflexivity. Qed.

Lemma no_list_item toks :
  Forall okToken toks -> JS.includes "<li>" (textOf toks) = false.
Proof.
  induction 1 as [|tok toks Htok _ IH]; [done|].
  destruct tok as [c|t].
  - change (textOf (Ch c :: toks)) with ([c] ++ textOf toks).
    rewrite includes_no_tag; [done|by repeat constructor].
  - change (textOf (Tg t :: toks)) with (tagText t ++ textOf toks).
    destruct (tagText_shape t) as (c & a & -> & Hc & Ha).
    cbn [Datatypes.app]. rewrite includes_unfold. apply orb_false_iff. split.
    + cbn [JS.startsWith]. rewrite (proj2 (Ascii.eqb_neq "l" c)) by congruence.
      by rewrite andb_false_r.
    + change (c :: a ++ textOf toks) with ((c :: a) ++ textOf toks).
      by rewrite includes_no_tag.
Qed.

End ProseText.

Section ProseRendered.
Import Regex.

Lemma wrappedLine_text b : textOf (wrappedLine b) = "<p>" ++ textOf (inner b) ++ "</p>".
Proof.
  unfold wrappedLine.
  change (textOf (Tg TagP :: ?l)) with ("<p>" ++ textOf l).
  by rewrite textOf_app.
Qed.

Lemma closedLine_text b : textOf (closedLine b) = rendered b.
Proof.
  destruct b as [x|n x]; cbn [closedLine rendered].
  - rewrite wrappedLine_text. cbn [inner]. by rewrite textOf_chars.
  - cbn [inner]. change (textOf (Tg (TagH n) :: ?l)) with (tagText (TagH n) ++ textOf l).
    rewrite textOf_app, textOf_chars. cbn [tagText textOf flat_map tokenText].
    by rewrite app_nil_r, <- !app_assoc.
Qed.

Lemma prose_lines_ok ls :
  Forall prose ls ->
  Forall (Forall okToken) (map wrappedLine ls)
  /\ Forall (Forall okToken) (map openedLine ls)
  /\ Forall (Forall okToken) (map closedLine ls)
  /\ Forall (Forall okToken) (map inner ls).
Proof.
  induction 1 as [|b ls Hb _ (I1 & I2 & I3 & I4)]; [by repeat split|].
  pose proof (prose_inner b Hb) as Hi.
  assert (Forall okToken (wrappedLine b)) as Hw.
  { unfold wrappedLine. constructor; [done|]. apply Forall_app. by split; [|repeat constructor]. }
  cbn [map]. repeat split; constructor; try done.
  - destruct b; [done|]. cbn [openedLine]. apply Forall_app. by split; [|repeat constructor].
  - by destruct b.
Qed.

(** X20.  On prose, a text of plain lines and heading lines without an
    empty line, an asterisk, a ["<"], a list line or a table row,
    [formatMarkdown] gives one line for each line of the text: a plain line
    between [<p>] and [</p>], and a line that starts with one to four hash
    signs and a space as the heading of that level, without a paragraph
    around it.  The text of the lines is copied as it is: an ampersand or
    a [">"] in it is not escaped. *)
Theorem prose_rendered (ls : list block) :
  ls <> [] -> Forall prose ls ->
  App.formatMarkdown (Some (lines (map source ls))) = lines (map rendered ls).
Proof.
  intros Hne Hls.
  destruct (heading_rules ls Hls) as (N0 & N1 & N2 & N3 & H4 & H5).
  destruct (prose_lines_ok ls Hls) as (Kw & Ko & Kc & Ki).
  assert (Forall (fun l => l <> [] /\ noLT l) (map (fun b => textOf (inner b)) ls)) as Hin.
  { apply Forall_forall. intros l (b & -> & Hb)%list_elem_of_fmap.
    rewrite Forall_forall in Hls. specialize (Hls b Hb).
    split; [apply (inner_plain b Hls)|apply (prose_noLT b Hls)]. }
  assert (lines (map source ls) <> []) as Htext.
  { destruct ls as [|b ls]; [done|]. rewrite Forall_forall in Hls.
    assert (source b <> []) as Hb.
    { specialize (Hls b (list_elem_of_here _ _)). destruct b as [x|n x]; [apply Hls|].
      by destruct n. }
    destruct ls as [|b2 ls]; [done|]. cbn [map]. rewrite lines_cons.
    by destruct (source b). }
  unfold App.formatMarkdown.
  destruct (lines (map source ls)) as [|c0 t0] eqn:Etext; [done|]. rewrite <- Etext.
  rewrite parseMarkdownTables_rowless.
  2:{ rewrite split_lines; [|by destruct ls|done].
      apply Forall_forall. intros l (b & -> & Hb)%list_elem_of_fmap.
      rewrite Forall_forall in Hls. by apply prose_not_row, Hls. }
  unfold App.substitutions.
  rewrite (proj1 (line_rules _ N0)).
  rewrite (proj1 (proj2 (line_rules _ N1))).
  rewrite (proj1 (proj2 (proj2 (line_rules _ N2)))).
  rewrite (proj1 (proj2 (proj2 (proj2 (line_rules _ N3))))).
  rewrite H4.
  assert (Forall (fun c => c <> "*"%char) (lines (map (fun b => textOf (inner b)) ls)))
    as Hstar.
  { apply Forall_lines; [done|]. apply Forall_forall.
    intros l (b & -> & Hb)%list_elem_of_fmap. rewrite Forall_forall in Hls.
    apply (inner_plain b (Hls b Hb)). }
  rewrite (proj1 (emphasis_absent _ Hstar)), (proj2 (emphasis_absent _ Hstar)).
  rewrite (proj2 (proj2 (proj2 (proj2 (line_rules _ (Forall_impl _ _ _ Hin (fun _ H => proj2 H))))))).
  rewrite H5.
  assert (lines (map (fun b => textOf (inner b)) ls) = textOf (joinLines (map inner ls)))
    as Einner by (by rewrite textOf_joinLines, map_map).
  assert (App.sub flags_s App.listWrap (lines (map (fun b => textOf (inner b)) ls))
          = lines (map (fun b => textOf (inner b)) ls)) as ->.
  { unfold App.sub, replace. cbn [global flags_s]. apply listWrap_absent.
    rewrite Einner. by apply no_list_item, okToken_joinLines. }
  assert (App.sub flags_g App.paragraphBreak (lines (map (fun b => textOf (inner b)) ls))
          = lines (map (fun b => textOf (inner b)) ls)) as ->.
  { unfold App.sub, replace. cbn [global flags_g]. by apply break_lines. }
  assert (App.sub flags_gm App.paragraph (lines (map (fun b => textOf (inner b)) ls))
          = textOf (joinLines (map wrappedLine ls))) as ->.
  { unfold App.sub, replace. cbn [global flags_gm].
    rewrite paragraph_lines; [|done|done|by destruct ls].
    rewrite textOf_joinLines, !map_map. f_equal. apply map_ext. intros b.
    by rewrite wrappedLine_text. }
  rewrite emptyParagraph_tokens by by apply okToken_joinLines.
  rewrite (rewrite_lines hit_empty wrappedLine wrappedLine) by (done || apply empty_line).
  rewrite unwrapHeadingOpen_tokens by by apply okToken_joinLines.
  rewrite (rewrite_lines hit_open wrappedLine openedLine) by (done || apply open_line).
  rewrite unwrapHeadingClose_tokens by by apply okToken_joinLines.
  rewrite (rewrite_lines hit_close openedLine closedLine) by (done || apply close_line).
  destruct (other_rules_tokens (joinLines (map closedLine ls)))
    as (R1 & R2 & R3 & R4); [by apply okToken_joinLines|].
  rewrite R1, R2, R3, R4.
  rewrite textOf_joinLines, map_map. f_equal. apply map_ext. apply closedLine_text.
Qed.

Lemma prose_rendered_witness :
  App.formatMarkdown
    (Some (lines ["## Outlook"; "Margins > 4% & rising"; "#1 in its market"]))
  = lines ["<h2>Outlook</h2>"; "<p>Margins > 4% & rising</p>";
           "<p>#1 in its market</p>"].
Proof.
  apply (prose_rendered
           [Heading L2 "Outlook"; Plain "Margins > 4% & rising";
            Plain "#1 in its market"]); [done|].
  repeat constructor; done.
Defined.

End ProseRendered.
